(** * YAVNE operators: vertex-normal computation and normal merging

    A shallow embedding of [MESH_OT_UpdateVertexNormals] and
    [MESH_OT_MergeVertexNormals] from [operators.py], with the properties the
    specification states about them.

    - [Binary64]: the double-precision arithmetic that computes the chunk
      bounds of a worker ([int(chunk / total * len(bm.verts))]).
    - [Mathutils]: the operations of [mathutils.Vector] the operators use.
    - [Binary32]: the single-precision arithmetic of the vector difference
      and of the products in [length_squared].
    - [Update]: the worker of [MESH_OT_UpdateVertexNormals] and the serial and
      chunked runs of [execute].
    - [Merge]: the spatial grid and the merge loop of
      [MESH_OT_MergeVertexNormals.execute].
    - [FloatVec], [Scenario], [MergeScenario]: an instance of the vector
      operations on primitive floats, and concrete meshes on which the
      definitions are run. *)

From Stdlib Require Import ZArith QArith Qround Qabs Qpower Lia Lqa.
From Stdlib Require Import Uint63 PrimFloat FloatOps SpecFloat.
From stdpp Require Import base option list gmap.

(** * Double-precision arithmetic of the chunk bounds *)

Module Binary64.

Local Open Scope Q_scope.

(** A Python [float] is modelled by the rational it denotes.  The operations
    round their exact result to the nearest rational with a 53-bit
    significand, ties to even; the exponent range is unbounded, which is
    faithful for every magnitude between 2^-1022 and 2^1024. *)

(** [ilog2 q] is the integer [k] with [2^k <= q < 2^(k+1)], for [0 < q]. *)
Definition ilog2 (q : Q) : Z :=
  let k := (Z.log2 (Qnum q) - Z.log2 (Z.pos (Qden q)))%Z in
  if Qle_bool (2 ^ k) q then k else (k - 1)%Z.

(** Round to the nearest integer, ties to the even one. *)
Definition rne (q : Q) : Z :=
  let f := Qfloor q in
  match Qcompare (q - inject_Z f) (1 # 2) with
  | Lt => f
  | Gt => (f + 1)%Z
  | Eq => if Z.even f then f else (f + 1)%Z
  end.

(** The exponent of the unit in the last place of [q]. *)
Definition ulp_exp (q : Q) : Z := (ilog2 (Qabs q) - 52)%Z.

Definition round64 (q : Q) : Q :=
  if Qeq_bool q 0 then 0
  else inject_Z (rne (q / 2 ^ ulp_exp q)) * 2 ^ ulp_exp q.

(** [a / b] on Python integers: the correctly rounded quotient, or
    [ZeroDivisionError]. *)
Definition py_truediv (a b : Z) : option Q :=
  if (b =? 0)%Z then None else Some (round64 (inject_Z a / inject_Z b)).

(** The conversion of an integer operand of a float operation. *)
Definition py_float (n : Z) : Q := round64 (inject_Z n).

(** [x * y] on floats. *)
Definition py_fmul (x y : Q) : Q := round64 (x * y).

(** [int(x)]: truncation towards zero. *)
Definition py_int (x : Q) : Z :=
  if Qle_bool 0 x then Qfloor x else Qceiling x.

(** [int(chunk / total * n)], the expression of both chunk bounds. *)
Definition chunk_bound (chunk total n : Z) : option Z :=
  q ← py_truediv chunk total;
  Some (py_int (py_fmul q (py_float n))).

(** ** Powers of two *)

Lemma pow2_pos (e : Z) : 0 < 2 ^ e.
Proof. apply Qpower_0_lt. reflexivity. Qed.

Lemma pow2_plus (a b : Z) : 2 ^ (a + b) == 2 ^ a * 2 ^ b.
Proof. apply Qpower_plus. discriminate. Qed.

Lemma pow2_succ (a : Z) : 2 ^ (a + 1) == 2 * 2 ^ a.
Proof. rewrite pow2_plus. change (2 ^ 1) with 2. ring. Qed.

Lemma pow2_le (a b : Z) : (a <= b)%Z -> 2 ^ a <= 2 ^ b.
Proof. intros H. apply Qpower_le_compat_l; [exact H | discriminate]. Qed.

Lemma pow2_inject (a : Z) : (0 <= a)%Z -> inject_Z (2 ^ a) == 2 ^ a.
Proof. intros H. apply (Zpower_Qpower 2 a H). Qed.

(** ** The binary logarithm *)

Lemma log2_bounds (n : Z) :
  (0 < n)%Z -> 2 ^ Z.log2 n <= inject_Z n /\ inject_Z n < 2 * 2 ^ Z.log2 n.
Proof.
  intros Hn. destruct (Z.log2_spec n Hn) as [Hlo Hhi].
  pose proof (Z.log2_nonneg n) as H0.
  rewrite <- (pow2_inject (Z.log2 n)) by exact H0. split.
  - rewrite <- Zle_Qle. exact Hlo.
  - change 2 with (inject_Z 2) at 1. rewrite <- inject_Z_mult, <- Zlt_Qlt.
    rewrite Z.pow_succ_r in Hhi by exact H0. exact Hhi.
Qed.

Lemma ilog2_spec (q : Q) :
  0 < q -> 2 ^ ilog2 q <= q /\ q < 2 ^ (ilog2 q + 1).
Proof.
  intros Hq. unfold ilog2.
  set (a := Z.log2 (Qnum q)). set (b := Z.log2 (Z.pos (Qden q))).
  assert (Hn : (0 < Qnum q)%Z).
  { destruct q as [n d]. unfold Qlt in Hq. simpl in *. lia. }
  destruct (log2_bounds (Qnum q) Hn) as [Hn1 Hn2].
  destruct (log2_bounds (Z.pos (Qden q)) eq_refl) as [Hd1 Hd2].
  fold a in Hn1, Hn2. fold b in Hd1, Hd2.
  assert (Hqd : q * inject_Z (Z.pos (Qden q)) == inject_Z (Qnum q)).
  { destruct q as [n d]. unfold Qeq, Qmult, inject_Z. simpl. lia. }
  pose proof (pow2_pos a) as Ha. pose proof (pow2_pos b) as Hb.
  pose proof (pow2_pos (a - b)) as Hab.
  assert (Hk : 2 ^ a == 2 ^ (a - b) * 2 ^ b).
  { rewrite <- pow2_plus. replace (a - b + b)%Z with a by lia. reflexivity. }
  set (D := inject_Z (Z.pos (Qden q))) in *.
  set (N := inject_Z (Qnum q)) in *.
  destruct (Qle_bool (2 ^ (a - b)) q) eqn:E.
  - apply Qle_bool_iff in E. split; [exact E |].
    rewrite pow2_succ. nra.
  - assert (E' : q < 2 ^ (a - b)).
    { apply Qnot_le_lt. intros H. apply Qle_bool_iff in H. congruence. }
    replace (a - b - 1 + 1)%Z with (a - b)%Z by lia. split; [| exact E'].
    assert (Hk' : 2 ^ (a - b) == 2 * 2 ^ (a - b - 1)).
    { rewrite <- pow2_succ. replace (a - b - 1 + 1)%Z with (a - b)%Z by lia.
      reflexivity. }
    pose proof (pow2_pos (a - b - 1)) as Hab'. nra.
Qed.

Lemma ilog2_mono (x y : Q) : 0 < x -> x <= y -> (ilog2 x <= ilog2 y)%Z.
Proof.
  intros Hx Hxy.
  destruct (ilog2_spec x Hx) as [Hx1 _].
  destruct (ilog2_spec y) as [_ Hy2]; [lra |].
  destruct (Z_le_gt_dec (ilog2 x) (ilog2 y)) as [H | H]; [exact H |].
  pose proof (pow2_le (ilog2 y + 1) (ilog2 x)) as Hp. lapply Hp; [| lia].
  intros Hp'. lra.
Qed.

(** ** Rounding to the nearest integer *)

Lemma rne_mono (x y : Q) : x <= y -> (rne x <= rne y)%Z.
Proof.
  intros Hxy. unfold rne.
  pose proof (Qfloor_resp_le x y Hxy) as Hf.
  pose proof (Qfloor_le x) as Hx1. pose proof (Qlt_floor x) as Hx2.
  pose proof (Qfloor_le y) as Hy1. pose proof (Qlt_floor y) as Hy2.
  rewrite inject_Z_plus in Hx2, Hy2.
  destruct (Z.eq_dec (Qfloor x) (Qfloor y)) as [E | E].
  - rewrite <- E in *.
    destruct (Qcompare_spec (x - inject_Z (Qfloor x)) (1 # 2));
      destruct (Qcompare_spec (y - inject_Z (Qfloor x)) (1 # 2));
      try destruct (Z.even (Qfloor x)); try lia; exfalso; lra.
  - destruct (Qcompare_spec (x - inject_Z (Qfloor x)) (1 # 2));
      destruct (Qcompare_spec (y - inject_Z (Qfloor y)) (1 # 2));
      try destruct (Z.even (Qfloor x)); try destruct (Z.even (Qfloor y));
      lia.
Qed.

Lemma rne_comp (x y : Q) : x == y -> rne x = rne y.
Proof.
  intros E. apply Z.le_antisymm; apply rne_mono; rewrite E; apply Qle_refl.
Qed.

Lemma rne_inject (k : Z) : rne (inject_Z k) = k.
Proof.
  unfold rne. rewrite Qfloor_Z.
  destruct (Qcompare_spec (inject_Z k - inject_Z k) (1 # 2)) as [H | H | H];
    [exfalso; lra | reflexivity | exfalso; lra].
Qed.

(** ** Rounding to a 53-bit significand *)

Lemma ulp_exp_mono (x y : Q) : 0 < x -> x <= y -> (ulp_exp x <= ulp_exp y)%Z.
Proof.
  intros Hx Hxy. unfold ulp_exp.
  assert (Hax : Qabs x == x) by (apply Qabs_pos; lra).
  assert (Hay : Qabs y == y) by (apply Qabs_pos; lra).
  pose proof (ilog2_mono (Qabs x) (Qabs y)) as H.
  lapply H; [| lra]. intros H'. lapply H'; [lia | lra].
Qed.

(** The significand of a positive number lies between 2^52 and 2^53. *)
Lemma significand_bounds (x : Q) :
  0 < x ->
  2 ^ 52 * 2 ^ ulp_exp x <= x /\ x < 2 ^ 53 * 2 ^ ulp_exp x.
Proof.
  intros Hx. unfold ulp_exp.
  assert (Hax : Qabs x == x) by (apply Qabs_pos; lra).
  destruct (ilog2_spec (Qabs x)) as [H1 H2]; [lra |].
  rewrite <- !pow2_plus.
  replace (52 + (ilog2 (Qabs x) - 52))%Z with (ilog2 (Qabs x)) by lia.
  replace (53 + (ilog2 (Qabs x) - 52))%Z with (ilog2 (Qabs x) + 1)%Z by lia.
  lra.
Qed.

Lemma scaled_bounds (x : Q) :
  0 < x -> 2 ^ 52 <= x / 2 ^ ulp_exp x /\ x / 2 ^ ulp_exp x <= 2 ^ 53.
Proof.
  intros Hx. destruct (significand_bounds x Hx) as [H1 H2].
  pose proof (pow2_pos (ulp_exp x)) as Hp. split.
  - apply Qle_shift_div_l; assumption.
  - apply Qle_shift_div_r; [assumption | lra].
Qed.

Lemma rne_significand (x : Q) :
  0 < x ->
  (2 ^ 52 <= rne (x / 2 ^ ulp_exp x) <= 2 ^ 53)%Z.
Proof.
  intros Hx. destruct (scaled_bounds x Hx) as [H1 H2]. split.
  - rewrite <- (rne_inject (2 ^ 52)). apply rne_mono.
    rewrite pow2_inject by lia. exact H1.
  - rewrite <- (rne_inject (2 ^ 53)). apply rne_mono.
    rewrite pow2_inject by lia. exact H2.
Qed.

Lemma round64_zero (x : Q) : x == 0 -> round64 x = 0.
Proof.
  intros H. unfold round64. apply Qeq_bool_iff in H. rewrite H. reflexivity.
Qed.

Lemma round64_pos (x : Q) :
  0 < x -> round64 x = inject_Z (rne (x / 2 ^ ulp_exp x)) * 2 ^ ulp_exp x.
Proof.
  intros H. unfold round64. destruct (Qeq_bool x 0) eqn:E; [| reflexivity].
  apply Qeq_bool_iff in E. lra.
Qed.

Lemma round64_nonneg (x : Q) : 0 <= x -> 0 <= round64 x.
Proof.
  intros H. destruct (Qeq_dec x 0) as [E | E].
  - rewrite (round64_zero x E). apply Qle_refl.
  - assert (Hx : 0 < x) by (apply Qle_lteq in H; destruct H as [H | H]; [exact H | symmetry in H; contradiction]).
    rewrite (round64_pos x Hx).
    pose proof (rne_significand x Hx) as [H1 _].
    pose proof (pow2_pos (ulp_exp x)) as Hp.
    apply Qmult_le_0_compat; [| lra].
    change 0 with (inject_Z 0). rewrite <- Zle_Qle. lia.
Qed.

(** Rounding is monotone (on the non-negative numbers the chunk bounds use). *)
Lemma round64_mono (x y : Q) : 0 <= x -> x <= y -> round64 x <= round64 y.
Proof.
  intros Hx Hxy. destruct (Qeq_dec x 0) as [E | E].
  - rewrite (round64_zero x E). apply round64_nonneg. lra.
  - assert (Hx' : 0 < x) by (apply Qle_lteq in Hx; destruct Hx as [Hx | Hx]; [exact Hx | symmetry in Hx; contradiction]).
    assert (Hy' : 0 < y) by lra.
    rewrite (round64_pos x Hx'), (round64_pos y Hy').
    pose proof (ulp_exp_mono x y Hx' Hxy) as He.
    pose proof (pow2_pos (ulp_exp x)) as Hpx.
    pose proof (pow2_pos (ulp_exp y)) as Hpy.
    destruct (Z.eq_dec (ulp_exp x) (ulp_exp y)) as [Ee | Ee].
    + rewrite <- Ee in *. apply Qmult_le_compat_r; [| lra].
      rewrite <- Zle_Qle. apply rne_mono.
      apply Qmult_le_compat_r; [exact Hxy |].
      apply Qlt_le_weak, Qinv_lt_0_compat, Hpx.
    + pose proof (rne_significand x Hx') as [_ Hmx].
      pose proof (rne_significand y Hy') as [Hmy _].
      rewrite Zle_Qle in Hmx, Hmy.
      rewrite pow2_inject in Hmx, Hmy by lia.
      pose proof (pow2_le (ulp_exp x + 1) (ulp_exp y)) as Hp.
      lapply Hp; [| lia]. rewrite pow2_succ. intros Hp'.
      change (2 ^ 53) with (2 * 2 ^ 52) in Hmx.
      set (mx := inject_Z (rne (x / 2 ^ ulp_exp x))) in *.
      set (my := inject_Z (rne (y / 2 ^ ulp_exp y))) in *.
      assert (H52 : 0 < 2 ^ 52) by reflexivity.
      apply Qle_trans with (2 * 2 ^ 52 * 2 ^ ulp_exp x); [nra |].
      apply Qle_trans with (2 ^ 52 * 2 ^ ulp_exp y); nra.
Qed.

Lemma round64_comp (x y : Q) : 0 <= x -> x == y -> round64 x == round64 y.
Proof.
  intros Hx E. apply Qle_antisym; apply round64_mono; lra.
Qed.

(** Integers up to 2^53 are represented exactly. *)
Lemma round64_int (n : Z) :
  (0 <= n <= 2 ^ 53)%Z -> round64 (inject_Z n) == inject_Z n.
Proof.
  intros [H0 H53]. destruct (Z.eq_dec n 0%Z) as [-> | Hn0]; [reflexivity |].
  destruct (Z.eq_dec n (2 ^ 53)%Z) as [-> | Hn53]; [vm_compute; reflexivity |].
  assert (Hx : 0 < inject_Z n).
  { change 0 with (inject_Z 0). rewrite <- Zlt_Qlt. lia. }
  rewrite (round64_pos _ Hx).
  destruct (significand_bounds _ Hx) as [H1 _].
  set (e := ulp_exp (inject_Z n)) in *.
  pose proof (pow2_pos e) as Hp.
  assert (He : (e <= 0)%Z).
  { destruct (Z_le_gt_dec e 0%Z) as [H | H]; [exact H | exfalso].
    pose proof (pow2_le 1 e) as Hp1. lapply Hp1; [| lia]. intros Hp1'.
    change (2 ^ 1) with 2 in Hp1'.
    assert (Hn : inject_Z n < 2 * 2 ^ 52).
    { change (2 * 2 ^ 52) with (inject_Z (2 ^ 53)). rewrite <- Zlt_Qlt. lia. }
    assert (H52 : 0 < 2 ^ 52) by reflexivity. nra. }
  assert (Hinv : inject_Z (2 ^ (- e)) * 2 ^ e == 1).
  { rewrite pow2_inject by lia. rewrite <- pow2_plus.
    replace (- e + e)%Z with 0%Z by lia. reflexivity. }
  assert (Hs : inject_Z n / 2 ^ e == inject_Z (n * 2 ^ (- e))).
  { rewrite inject_Z_mult. unfold Qdiv. rewrite <- Qpower_opp.
    rewrite pow2_inject by lia. reflexivity. }
  rewrite (rne_comp _ _ Hs), rne_inject, inject_Z_mult.
  rewrite <- Qmult_assoc, Hinv. ring.
Qed.

(** ** The chunk bound *)

Lemma py_int_nonneg (x : Q) : 0 <= x -> py_int x = Qfloor x.
Proof.
  intros H. unfold py_int. apply Qle_bool_iff in H. rewrite H. reflexivity.
Qed.

Definition bound_value (chunk total n : Z) : Q :=
  py_fmul (round64 (inject_Z chunk / inject_Z total)) (py_float n).

Lemma chunk_bound_value (chunk total n : Z) :
  total <> 0%Z ->
  chunk_bound chunk total n = Some (py_int (bound_value chunk total n)).
Proof.
  intros Ht. unfold chunk_bound, py_truediv.
  destruct (Z.eqb_spec total 0) as [E | _]; [contradiction | reflexivity].
Qed.

Lemma ratio_nonneg (chunk total : Z) :
  (0 <= chunk)%Z -> (0 < total)%Z -> 0 <= inject_Z chunk / inject_Z total.
Proof.
  intros Hc Ht. apply Qle_shift_div_l.
  - change 0 with (inject_Z 0). rewrite <- Zlt_Qlt. exact Ht.
  - rewrite Qmult_0_l. change 0 with (inject_Z 0). rewrite <- Zle_Qle. exact Hc.
Qed.

Lemma py_float_nonneg (n : Z) : (0 <= n)%Z -> 0 <= py_float n.
Proof.
  intros H. apply round64_nonneg. change 0 with (inject_Z 0).
  rewrite <- Zle_Qle. exact H.
Qed.

Lemma bound_value_nonneg (chunk total n : Z) :
  (0 <= chunk)%Z -> (0 < total)%Z -> (0 <= n)%Z ->
  0 <= bound_value chunk total n.
Proof.
  intros Hc Ht Hn. apply round64_nonneg, Qmult_le_0_compat.
  - apply round64_nonneg, ratio_nonneg; assumption.
  - apply py_float_nonneg, Hn.
Qed.

Lemma bound_value_mono (c1 c2 total n : Z) :
  (0 <= c1 <= c2)%Z -> (0 < total)%Z -> (0 <= n)%Z ->
  bound_value c1 total n <= bound_value c2 total n.
Proof.
  intros [Hc1 Hc12] Ht Hn. unfold bound_value, py_fmul.
  pose proof (ratio_nonneg c1 total Hc1 Ht) as Hr.
  apply round64_mono.
  - apply Qmult_le_0_compat; [apply round64_nonneg, Hr | apply py_float_nonneg, Hn].
  - apply Qmult_le_compat_r; [| apply py_float_nonneg, Hn].
    apply round64_mono; [exact Hr |].
    apply Qmult_le_compat_r.
    + rewrite <- Zle_Qle. exact Hc12.
    + apply Qlt_le_weak, Qinv_lt_0_compat. change 0 with (inject_Z 0).
      rewrite <- Zlt_Qlt. exact Ht.
Qed.

(** The bounds of a chunk are non-negative and ordered. *)
Lemma chunk_bound_mono (c1 c2 total n b1 b2 : Z) :
  (0 <= c1 <= c2)%Z -> (0 < total)%Z -> (0 <= n)%Z ->
  chunk_bound c1 total n = Some b1 -> chunk_bound c2 total n = Some b2 ->
  (0 <= b1 <= b2)%Z.
Proof.
  intros Hc Ht Hn. rewrite !chunk_bound_value by lia.
  intros [= <-] [= <-].
  pose proof (bound_value_nonneg c1 total n) as H1.
  pose proof (bound_value_nonneg c2 total n) as H2.
  rewrite !py_int_nonneg by (first [apply H1 | apply H2]; lia). split.
  - rewrite <- (Qfloor_Z 0). apply Qfloor_resp_le. apply H1; lia.
  - apply Qfloor_resp_le, bound_value_mono; assumption.
Qed.

(** Chunk 0 starts at vertex 0. *)
Lemma chunk_bound_zero (total n : Z) :
  total <> 0%Z -> chunk_bound 0 total n = Some 0%Z.
Proof.
  intros Ht. rewrite chunk_bound_value by exact Ht.
  unfold bound_value, py_fmul.
  assert (E : inject_Z 0 / inject_Z total == 0).
  { unfold Qdiv. change (inject_Z 0) with 0. ring. }
  rewrite (round64_zero _ E).
  rewrite (round64_zero (0 * py_float n)) by ring. reflexivity.
Qed.

(** The upper bound of the last chunk is the upper bound of the serial run. *)
Lemma chunk_bound_last (total n : Z) :
  (0 < total)%Z -> (0 <= n)%Z ->
  chunk_bound total total n = chunk_bound 1 1 n.
Proof.
  intros Ht Hn. rewrite !chunk_bound_value by lia. f_equal.
  assert (E : inject_Z total / inject_Z total == inject_Z 1 / inject_Z 1).
  { unfold Qdiv at 1. rewrite Qmult_inv_r; [reflexivity |].
    change 0 with (inject_Z 0). rewrite inject_Z_injective. lia. }
  pose proof (ratio_nonneg total total) as Hr. lapply Hr; [| lia].
  intros Hr'. specialize (Hr' Ht).
  pose proof (round64_comp _ _ Hr' E) as E1.
  pose proof (py_float_nonneg n Hn) as Hf.
  assert (E2 : bound_value total total n == bound_value 1 1 n).
  { unfold bound_value, py_fmul. apply round64_comp.
    - apply Qmult_le_0_compat; [apply round64_nonneg, Hr' | exact Hf].
    - rewrite E1. reflexivity. }
  rewrite !py_int_nonneg by (apply bound_value_nonneg; lia).
  apply Qfloor_comp, E2.
Qed.

(** Up to 2^53 vertices the serial run ends exactly at the vertex count. *)
Lemma chunk_bound_full (n : Z) :
  (0 <= n <= 2 ^ 53)%Z -> chunk_bound 1 1 n = Some n.
Proof.
  intros Hn. rewrite chunk_bound_value by lia. f_equal.
  assert (E : bound_value 1 1 n == inject_Z n).
  { unfold bound_value, py_fmul, py_float.
    change (round64 (inject_Z 1 / inject_Z 1)) with (round64 (1 / 1)).
    assert (E1 : round64 (1 / 1) == 1) by (vm_compute; reflexivity).
    pose proof (round64_int n Hn) as E2.
    assert (H0 : 0 <= inject_Z n).
    { change 0 with (inject_Z 0). rewrite <- Zle_Qle. lia. }
    rewrite <- E2 at 2. apply round64_comp.
    - apply Qmult_le_0_compat; [rewrite E1; discriminate | rewrite E2; exact H0].
    - rewrite E1, E2. ring. }
  rewrite py_int_nonneg by (rewrite E; change 0 with (inject_Z 0); rewrite <- Zle_Qle; lia).
  rewrite (Qfloor_comp _ _ E). apply Qfloor_Z.
Qed.

(** ** The same expression on the kernel's binary64 numbers *)

(** [int(chunk / total * n)] evaluated with primitive floats, for operands
    below 2^53 (which [of_uint63] converts exactly). *)
Definition float_of_Z (n : Z) : float := PrimFloat.of_uint63 (Uint63.of_Z n).

Definition float_trunc (x : float) : option Z :=
  match Prim2SF x with
  | S754_zero _ => Some 0%Z
  | S754_finite s m e =>
      let v := Z.shiftl (Z.pos m) e in Some (if s then (- v)%Z else v)
  | _ => None
  end.

Definition hardware_chunk_bound (chunk total n : Z) : option Z :=
  if (total =? 0)%Z then None
  else float_trunc (float_of_Z chunk / float_of_Z total * float_of_Z n)%float.

(** The rational model and the primitive floats agree on every chunk of
    every worker count up to 12, for a range of vertex counts. *)
Example chunk_bound_agrees_with_hardware :
  forallb (fun total =>
    forallb (fun n =>
      forallb (fun chunk =>
        bool_decide (chunk_bound chunk total n = hardware_chunk_bound chunk total n))
        (seqZ 0 (total + 1)))
      [0; 1; 7; 49; 90; 4000; 5001; 5760; 6272; 1000003]%Z)
    (seqZ 0 13) = true.
Proof. vm_compute. reflexivity. Qed.

(** ** The relative error of rounding *)

(** The unit roundoff of a 53-bit significand, 2^-53. *)
Definition unit_roundoff : Q := 1 # 9007199254740992.

Lemma rne_error (q : Q) :
  - (1 # 2) <= inject_Z (rne q) - q /\ inject_Z (rne q) - q <= 1 # 2.
Proof.
  unfold rne. pose proof (Qfloor_le q) as H1. pose proof (Qlt_floor q) as H2.
  rewrite inject_Z_plus in H2. change (inject_Z 1) with 1 in H2.
  destruct (Qcompare_spec (q - inject_Z (Qfloor q)) (1 # 2));
    try destruct (Z.even (Qfloor q)); rewrite ?inject_Z_plus;
    change (inject_Z 1) with 1; split; lra.
Qed.

(** Rounding a number changes it by at most the fraction 2^-53 of it. *)
Lemma round64_error (x : Q) :
  0 <= x ->
  x * (1 - unit_roundoff) <= round64 x /\ round64 x <= x * (1 + unit_roundoff).
Proof.
  intros Hx. unfold unit_roundoff. destruct (Qeq_dec x 0) as [E | E].
  - rewrite (round64_zero x E). split; lra.
  - assert (Hpos : 0 < x) by lra.
    rewrite (round64_pos x Hpos).
    destruct (significand_bounds x Hpos) as [H52 _].
    pose proof (pow2_pos (ulp_exp x)) as Hp.
    destruct (rne_error (x / 2 ^ ulp_exp x)) as [Hlo Hhi].
    assert (Hs : x / 2 ^ ulp_exp x * 2 ^ ulp_exp x == x) by (field; lra).
    assert (E52 : 2 ^ 52 == 4503599627370496) by reflexivity.
    rewrite E52 in H52.
    generalize dependent (inject_Z (rne (x / 2 ^ ulp_exp x))).
    generalize dependent (x / 2 ^ ulp_exp x).
    generalize dependent (2 ^ ulp_exp x).
    intros p H52 Hp s Hs m Hlo Hhi. split; nra.
Qed.

End Binary64.

(** * The interface of [mathutils] *)

(** [mathutils.Vector] and Python's [float] belong to Blender and to the
    interpreter; the operators use them through these operations only. *)
Class Mathutils := {
  scalar : Type;
  Vector : Type;
  (** [mathutils.Vector()] *)
  vzero : Vector;
  (** [u += v] *)
  vadd : Vector -> Vector -> Vector;
  (** [s * v] *)
  smul : scalar -> Vector -> Vector;
  (** [s * t] *)
  fmul : scalar -> scalar -> scalar;
  szero : scalar;
  (** [v.length] *)
  vlength : Vector -> scalar;
  (** [v.normalize()] *)
  normalize : Vector -> Vector;
  (** [==] on the tuples of components *)
  vec_eqb : Vector -> Vector -> bool
}.

(** Exceptions are [None]: a fold that stops at the first one. *)
Fixpoint foldM {A B : Type} (f : B -> A -> option B) (b : B) (l : list A)
  : option B :=
  match l with
  | [] => Some b
  | a :: l' => b' ← f b a; foldM f b' l'
  end.

Lemma foldM_app {A B : Type} (f : B -> A -> option B) (b : B) (l1 l2 : list A) :
  foldM f b (l1 ++ l2) = b' ← foldM f b l1; foldM f b' l2.
Proof.
  revert b. induction l1 as [| a l1 IH]; intros b; simpl; [reflexivity |].
  destruct (f b a) as [b' |]; simpl; [apply IH | reflexivity].
Qed.

Lemma foldM_concat {A B : Type} (f : B -> A -> option B) (b : B)
    (ls : list (list A)) :
  foldM f b (concat ls) = foldM (foldM f) b ls.
Proof.
  revert b. induction ls as [| l ls IH]; intros b; simpl; [reflexivity |].
  rewrite foldM_app. destruct (foldM f b l) as [b' |]; simpl;
    [apply IH | reflexivity].
Qed.

Lemma foldM_fmap {A B C : Type} (f : B -> C -> option B) (h : A -> C) (b : B)
    (l : list A) :
  foldM (fun b x => f b (h x)) b l = foldM f b (h <$> l).
Proof.
  revert b. induction l as [| a l IH]; intros b; simpl; [reflexivity |].
  destruct (f b (h a)) as [b' |]; simpl; [apply IH | reflexivity].
Qed.

Lemma foldM_ext {A B : Type} (f g : B -> A -> option B) (b : B) (l : list A) :
  (forall b a, a ∈ l -> f b a = g b a) -> foldM f b l = foldM g b l.
Proof.
  revert b. induction l as [| a l IH]; intros b Hfg; simpl; [reflexivity |].
  rewrite Hfg by apply list_elem_of_here.
  destruct (g b a) as [b' |]; simpl; [| reflexivity].
  apply IH. intros b0 a0 Ha0. apply Hfg. apply list_elem_of_further, Ha0.
Qed.

(** Two steps commute when their order does not matter on any state. *)
Definition commute {A B : Type} (f : B -> A -> option B) (a1 a2 : A) : Prop :=
  forall b, (b' ← f b a1; f b' a2) = (b' ← f b a2; f b' a1).

Lemma foldM_commute_one {A B : Type} (f : B -> A -> option B) (x : A)
    (l : list A) (b : B) :
  (forall a, a ∈ l -> commute f x a) ->
  (b' ← f b x; foldM f b' l) = (b' ← foldM f b l; f b' x).
Proof.
  revert b. induction l as [| a l IH]; intros b Hc; simpl.
  - destruct (f b x); reflexivity.
  - pose proof (Hc a (list_elem_of_here _ _) b) as Hxa.
    destruct (f b a) as [b1 |] eqn:Hba; simpl.
    + rewrite <- (IH b1) by (intros a0 Ha0; apply Hc, list_elem_of_further, Ha0).
      destruct (f b x) as [b2 |]; simpl in *.
      * rewrite Hxa. destruct (f b1 x); reflexivity.
      * destruct (f b1 x); [discriminate Hxa | reflexivity].
    + destruct (f b x) as [b2 |]; simpl in *; [| reflexivity].
      rewrite Hxa. reflexivity.
Qed.

Lemma foldM_commute_lists {A B : Type} (f : B -> A -> option B)
    (l1 l2 : list A) (b : B) :
  (forall x y, x ∈ l1 -> y ∈ l2 -> commute f x y) ->
  foldM f b (l1 ++ l2) = foldM f b (l2 ++ l1).
Proof.
  revert b. induction l1 as [| x l1 IH]; intros b Hc.
  - rewrite app_nil_r. reflexivity.
  - rewrite (foldM_app f b l2 (x :: l1)).
    transitivity (b2 ← (b1 ← f b x; foldM f b1 l2); foldM f b2 l1).
    + simpl. destruct (f b x) as [b1 |]; simpl; [| reflexivity].
      rewrite IH by (intros x0 y Hx0 Hy; apply Hc;
                     [apply list_elem_of_further, Hx0 | exact Hy]).
      apply foldM_app.
    + rewrite foldM_commute_one
        by (intros a Ha; apply Hc; [apply list_elem_of_here | exact Ha]).
      destruct (foldM f b l2); reflexivity.
Qed.

(** A fold over pairwise commuting steps does not depend on their order. *)
Lemma foldM_Permutation {A B : Type} (f : B -> A -> option B)
    (l1 l2 : list A) :
  l1 ≡ₚ l2 ->
  NoDup l1 ->
  (forall x y, x ∈ l1 -> y ∈ l1 -> x <> y -> commute f x y) ->
  forall b, foldM f b l1 = foldM f b l2.
Proof.
  induction 1 as [| x l1 l2 Hp IH | x y l | l1 l2 l3 Hp1 IH1 Hp2 IH2];
    intros Hnd Hc b.
  - reflexivity.
  - simpl. apply NoDup_cons in Hnd as [_ Hnd].
    destruct (f b x) as [b1 |]; simpl; [| reflexivity].
    apply IH; [exact Hnd |].
    intros x0 y0 Hx0 Hy0. apply Hc; apply list_elem_of_further; assumption.
  - simpl. apply NoDup_cons in Hnd as [Hy _].
    assert (Hxy : y <> x).
    { intros ->. apply Hy, list_elem_of_here. }
    pose proof (Hc y x (list_elem_of_here _ _)
                  (list_elem_of_further _ _ _ (list_elem_of_here _ _)) Hxy b)
      as Hswap.
    destruct (f b y) as [b1 |], (f b x) as [b2 |]; simpl in *.
    + destruct (f b1 x) as [b3 |], (f b2 y) as [b4 |]; simpl;
        congruence.
    + rewrite Hswap. reflexivity.
    + rewrite <- Hswap. reflexivity.
    + reflexivity.
  - rewrite (IH1 Hnd Hc b). apply IH2.
    + rewrite <- Hp1. exact Hnd.
    + intros x y Hx Hy. apply Hc; rewrite Hp1; assumption.
Qed.

Lemma concat_fmap_Permutation {A B : Type} (g : A -> list B) (l1 l2 : list A) :
  l1 ≡ₚ l2 -> concat (g <$> l1) ≡ₚ concat (g <$> l2).
Proof.
  induction 1 as [| x l1 l2 Hp IH | x y l | l1 l2 l3 Hp1 IH1 Hp2 IH2]; simpl.
  - reflexivity.
  - rewrite IH. reflexivity.
  - rewrite !app_assoc. rewrite (Permutation_app_comm (g y) (g x)). reflexivity.
  - rewrite IH1. exact IH2.
Qed.

(** * [MESH_OT_UpdateVertexNormals] *)

Module Update.

Inductive VertexNormalWeight := UNIFORM | ANGLE | AREA | COMBINED | UNWEIGHTED.

Section Worker.

Context {M : Mathutils}.

(** The part of a [BMFace], [BMLoop] and [BMVert] that the worker reads;
    the custom data layers are fields of the element they belong to. *)
Record Face := {
  face_index : nat;
  (** [face[face_normal_influence_layer]] *)
  influence : Z;
  (** [face.normal] *)
  normal : Vector
}.

Record Loop := {
  (** [loop.index], the slot of the corner in the output buffer *)
  index : nat;
  face : Face;
  (** [loop.calc_angle()] *)
  calc_angle : scalar;
  (** the layers [loop-normal-x], [loop-normal-y], [loop-normal-z] *)
  loop_normal : Vector
}.

Record Vert := {
  (** [v[vertex_normal_weight_layer]] *)
  weight : Z;
  link_loops : list Loop
}.

Record BMesh := { verts : list Vert }.

(** What the worker takes from [utils.py] and [types.py] (neither is part
    of these sources) and from the addon preferences. *)
Class Helpers := {
  (** [utils.split_loops(v, smooth_angle, use_flat_faces)] *)
  split_loops : Vert -> scalar -> bool -> list (list Loop);
  (** [utils.loop_space_transform(loop, v, inverse)] *)
  loop_space_transform : Loop -> Vector -> bool -> Vector;
  (** [types.FaceAreaCache().get(face)] *)
  face_area : Face -> scalar;
  (** [types.LinkedFaceAreaCache(link_angle).get(face)] *)
  linked_face_area : scalar -> Face -> scalar;
  (** [types.VertexNormalWeight.X.value] *)
  weight_value : VertexNormalWeight -> Z;
  (** [self.addon.preferences] *)
  use_linked_face_weights : bool;
  link_angle : scalar;
  use_auto_smooth : bool;
  smooth_angle : scalar;
  use_flat_faces : bool
}.

Context {U : Helpers}.

(** ** The set-up of a worker (lines 912-922) *)

(** [area_cache.get(face)]: each worker creates its own cache, plain or
    linked; a cache memoizes, so [get] is a function of the face. *)
Definition area_cache_get (face : Face) : scalar :=
  if use_linked_face_weights then linked_face_area link_angle face
  else face_area face.

(** The smoothing angle of the worker.  The branch for
    [use_auto_smooth = False] evaluates [math.pi], and [operators.py] does
    not import [math]: it raises [NameError]. *)
Definition worker_smooth_angle : option scalar :=
  if use_auto_smooth then Some smooth_angle else None.

(** ** The chunk of a worker (lines 924-929) *)

(** [(first, last)] of [worker]; [None] is the [ZeroDivisionError] of
    [total = 0].  The bounds are never negative ([Binary64.chunk_bound_mono]),
    so [Z.to_nat] loses nothing. *)
Definition chunk_range (chunk total nverts : nat) : option (nat * nat) :=
  first ← Binary64.chunk_bound (Z.of_nat chunk) (Z.of_nat total) (Z.of_nat nverts);
  last ← Binary64.chunk_bound (Z.of_nat chunk + 1) (Z.of_nat total) (Z.of_nat nverts);
  Some (Z.to_nat first, Z.to_nat last).

(** [[i + first for i in range(last - first)]] *)
Definition chunk_indices (chunk total nverts : nat) : option (list nat) :=
  '(first, last) ← chunk_range chunk total nverts;
  Some ((fun i => i + first) <$> seq 0 (last - first)).

(** ** One shading group (lines 937-979) *)

(** [max(...)] of a generator: [ValueError] on an empty one. *)
Definition py_max (l : list Z) : option Z :=
  match l with
  | [] => None
  | x :: l' => Some (foldl Z.max x l')
  end.

Definition influence_max (loop_group : list Loop) : option Z :=
  py_max ((fun loop => influence (face loop)) <$> loop_group).

Definition loop_subgroup (influence_max : Z) (loop_group : list Loop)
  : list Loop :=
  filter (fun loop => influence (face loop) = influence_max) loop_group.

(** The sum [vn_local] before it is normalized: the [if]/[elif] chain over the
    weight of the vertex. *)
Definition vn_sum (vertex_normal_weight : Z) (loop_subgroup : list Loop)
  : Vector :=
  if decide (vertex_normal_weight = weight_value UNIFORM) then
    foldl (fun vn loop => vadd vn (normal (face loop))) vzero loop_subgroup
  else if decide (vertex_normal_weight = weight_value ANGLE) then
    foldl (fun vn loop => vadd vn (smul (calc_angle loop) (normal (face loop))))
      vzero loop_subgroup
  else if decide (vertex_normal_weight = weight_value AREA) then
    foldl (fun vn loop =>
             vadd vn (smul (area_cache_get (face loop)) (normal (face loop))))
      vzero loop_subgroup
  else if decide (vertex_normal_weight = weight_value COMBINED) then
    foldl (fun vn loop =>
             vadd vn (smul (fmul (calc_angle loop) (area_cache_get (face loop)))
                        (normal (face loop))))
      vzero loop_subgroup
  else if decide (vertex_normal_weight = weight_value UNWEIGHTED) then
    foldl (fun vn loop =>
             vadd vn (loop_space_transform loop (loop_normal loop) true))
      vzero loop_subgroup
  else vzero.

(** The normal of a shading group. *)
Definition group_normal (vertex_normal_weight : Z) (loop_group : list Loop)
  : option Vector :=
  m ← influence_max loop_group;
  Some (normalize (vn_sum vertex_normal_weight (loop_subgroup m loop_group))).

(** [out[i] = v] on the shared array: [IndexError] out of range. *)
Definition store (out : list Vector) (i : nat) (v : Vector)
  : option (list Vector) :=
  if decide (i < length out) then Some (<[i := v]> out) else None.

Definition assign_group (vn_local : Vector) (loop_group : list Loop)
    (out : list Vector) : option (list Vector) :=
  foldM (fun out loop => store out (index loop) vn_local) out loop_group.

Definition process_group (vertex_normal_weight : Z) (out : list Vector)
    (loop_group : list Loop) : option (list Vector) :=
  vn_local ← group_normal vertex_normal_weight loop_group;
  assign_group vn_local loop_group out.

Definition process_vertex (angle : scalar) (out : list Vector) (v : Vert)
  : option (list Vector) :=
  foldM (process_group (weight v)) out (split_loops v angle use_flat_faces).

(** ** The worker and the two schedules of [execute] *)

Definition process_index (bm : BMesh) (angle : scalar) (out : list Vector)
    (idx : nat) : option (list Vector) :=
  v ← verts bm !! idx; process_vertex angle out v.

Definition worker (bm : BMesh) (out : list Vector) (chunk total : nat)
  : option (list Vector) :=
  angle ← worker_smooth_angle;
  indices ← chunk_indices chunk total (length (verts bm));
  foldM (process_index bm angle) out indices.

(** The serial branch of [execute]. *)
Definition execute_serial (bm : BMesh) (out : list Vector)
  : option (list Vector) :=
  worker bm out 0 1.

(** The chunked branch: one invocation of [worker] per chunk, all on the
    same array, here in the order the processes are created. *)
Definition execute_chunked (bm : BMesh) (out : list Vector) (num_procs : nat)
  : option (list Vector) :=
  foldM (fun out i => worker bm out i num_procs) out (seq 0 num_procs).

(** The same invocations taking effect in another order, as when the
    processes run side by side. *)
Definition execute_in_order (bm : BMesh) (out : list Vector)
    (num_procs : nat) (order : list nat) : option (list Vector) :=
  foldM (fun out i => worker bm out i num_procs) out order.

(** Each corner belongs to one vertex: the loops of the shading groups of
    two different vertices have different indices. *)
Definition corners_owned (bm : BMesh) : Prop :=
  forall i j vi vj gi gj li lj,
    i <> j ->
    verts bm !! i = Some vi -> verts bm !! j = Some vj ->
    gi ∈ split_loops vi smooth_angle use_flat_faces -> li ∈ gi ->
    gj ∈ split_loops vj smooth_angle use_flat_faces -> lj ∈ gj ->
    index li <> index lj.

(** ** The chunks partition the vertices *)

(** The bound [int(chunk / total * nverts)] as a natural number. *)
Definition bound (total nverts chunk : nat) : nat :=
  Z.to_nat (Binary64.py_int
              (Binary64.bound_value (Z.of_nat chunk) (Z.of_nat total)
                 (Z.of_nat nverts))).

Lemma chunk_range_bound (chunk total nverts : nat) :
  1 <= total ->
  chunk_range chunk total nverts
  = Some (bound total nverts chunk, bound total nverts (S chunk)).
Proof.
  intros Ht. unfold chunk_range, bound.
  rewrite !Binary64.chunk_bound_value by lia. simpl.
  replace (Z.of_nat chunk + 1)%Z with (Z.of_nat (S chunk)) by lia.
  reflexivity.
Qed.

Lemma bound_mono (total nverts chunk : nat) :
  1 <= total -> bound total nverts chunk <= bound total nverts (S chunk).
Proof.
  intros Ht. unfold bound.
  pose proof (Binary64.chunk_bound_mono (Z.of_nat chunk) (Z.of_nat (S chunk))
                (Z.of_nat total) (Z.of_nat nverts)) as H.
  rewrite !Binary64.chunk_bound_value in H by lia.
  specialize (H _ _ ltac:(lia) ltac:(lia) ltac:(lia) eq_refl eq_refl). lia.
Qed.

Lemma bound_zero (total nverts : nat) : 1 <= total -> bound total nverts 0 = 0.
Proof.
  intros Ht. unfold bound.
  pose proof (Binary64.chunk_bound_zero (Z.of_nat total) (Z.of_nat nverts)) as H.
  rewrite Binary64.chunk_bound_value in H by lia.
  specialize (H ltac:(lia)). change (Z.of_nat 0) with 0%Z.
  replace (Binary64.py_int _) with 0%Z by congruence. reflexivity.
Qed.

Lemma bound_last (total nverts : nat) :
  1 <= total -> bound total nverts total = bound 1 nverts 1.
Proof.
  intros Ht. unfold bound.
  pose proof (Binary64.chunk_bound_last (Z.of_nat total) (Z.of_nat nverts)) as H.
  rewrite !Binary64.chunk_bound_value in H by lia.
  specialize (H ltac:(lia) ltac:(lia)). change (Z.of_nat 1) with 1%Z.
  f_equal. congruence.
Qed.

Lemma bound_full (nverts : nat) :
  (Z.of_nat nverts <= 2 ^ 53)%Z -> bound 1 nverts 1 = nverts.
Proof.
  intros Hn. unfold bound.
  pose proof (Binary64.chunk_bound_full (Z.of_nat nverts)) as H.
  rewrite Binary64.chunk_bound_value in H by lia.
  specialize (H ltac:(lia)). change (Z.of_nat 1) with 1%Z.
  replace (Binary64.py_int _) with (Z.of_nat nverts) by congruence. lia.
Qed.

Lemma chunk_indices_seq (chunk total nverts : nat) :
  1 <= total ->
  chunk_indices chunk total nverts
  = Some (seq (bound total nverts chunk)
            (bound total nverts (S chunk) - bound total nverts chunk)).
Proof.
  intros Ht. unfold chunk_indices. rewrite chunk_range_bound by exact Ht.
  simpl. f_equal.
  generalize (bound total nverts (S chunk) - bound total nverts chunk).
  generalize (bound total nverts chunk). intros a n.
  transitivity ((fun i => a + i) <$> seq 0 n).
  - apply list_fmap_ext. intros _ i _. lia.
  - rewrite fmap_add_seq. f_equal. lia.
Qed.

(** Consecutive intervals between the values of a monotone sequence make up
    one interval. *)
Lemma concat_intervals (b : nat -> nat) (n : nat) :
  (forall i, i < n -> b i <= b (S i)) ->
  b 0 <= b n /\
  concat ((fun i => seq (b i) (b (S i) - b i)) <$> seq 0 n)
  = seq (b 0) (b n - b 0).
Proof.
  induction n as [| n IH]; intros Hb.
  - split; [lia |]. rewrite Nat.sub_diag. reflexivity.
  - destruct IH as [Hle IH]; [intros i Hi; apply Hb; lia |].
    pose proof (Hb n ltac:(lia)) as Hn. split; [lia |].
    rewrite seq_S, fmap_app, concat_app, IH. simpl. rewrite app_nil_r.
    replace (b (S n) - b 0) with ((b n - b 0) + (b (S n) - b n)) by lia.
    rewrite seq_app. do 2 f_equal. lia.
Qed.

Lemma worker_seq (bm : BMesh) (out : list Vector) (chunk total : nat)
    (angle : scalar) :
  1 <= total ->
  worker_smooth_angle = Some angle ->
  worker bm out chunk total
  = foldM (process_index bm angle) out
      (seq (bound total (length (verts bm)) chunk)
         (bound total (length (verts bm)) (S chunk)
          - bound total (length (verts bm)) chunk)).
Proof.
  intros Ht Ha. unfold worker. rewrite Ha. simpl.
  rewrite chunk_indices_seq by exact Ht. reflexivity.
Qed.

Lemma worker_name_error (bm : BMesh) (out : list Vector) (chunk total : nat) :
  worker_smooth_angle = None -> worker bm out chunk total = None.
Proof. intros Ha. unfold worker. rewrite Ha. reflexivity. Qed.

(** C1 (as amended): for [total >= 1] workers and up to 2^53 vertices, worker
    [chunk] processes the indices [first, last) with
    [first = int(chunk / total * V)] and [last = int((chunk + 1) / total * V)]
    in double-precision arithmetic; [last] of a worker is [first] of the
    next one, [first <= last], and the ranges of workers [0 .. total-1] in
    order list every index of [0, V) exactly once.  For [total = 4] and
    [V = 4000] the ranges are [0,1000), [1000,2000), [2000,3000),
    [3000,4000). *)
Theorem chunk_ranges_partition (total nverts : nat) :
  1 <= total ->
  (Z.of_nat nverts <= 2 ^ 53)%Z ->
  (forall chunk, chunk < total ->
     exists first last,
       chunk_range chunk total nverts = Some (first, last) /\
       first <= last /\
       chunk_indices chunk total nverts = Some (seq first (last - first)) /\
       fst <$> chunk_range (S chunk) total nverts = Some last) /\
  (exists ranges,
     mapM (fun chunk => chunk_indices chunk total nverts) (seq 0 total)
     = Some ranges /\
     concat ranges = seq 0 nverts) /\
  mapM (fun chunk => chunk_range chunk 4 4000) (seq 0 4)
  = Some [(0, 1000); (1000, 2000); (2000, 3000); (3000, 4000)].
Proof.
  intros Ht Hn. split; [| split].
  - intros chunk _.
    exists (bound total nverts chunk), (bound total nverts (S chunk)).
    rewrite !chunk_range_bound by exact Ht.
    rewrite chunk_indices_seq by exact Ht.
    repeat split. apply bound_mono, Ht.
  - exists ((fun i => seq (bound total nverts i)
                       (bound total nverts (S i) - bound total nverts i))
              <$> seq 0 total).
    split.
    + apply mapM_Some. apply Forall2_fmap_r, Forall_Forall2_diag.
      apply Forall_forall. intros chunk _. apply chunk_indices_seq, Ht.
    + destruct (concat_intervals (bound total nverts) total) as [_ ->].
      { intros i _. apply bound_mono, Ht. }
      rewrite bound_zero by exact Ht. rewrite Nat.sub_0_r.
      rewrite bound_last by exact Ht. rewrite bound_full by exact Hn.
      reflexivity.
  - vm_compute. reflexivity.
Qed.

(** In the order the processes are created, the chunks do what the serial
    run does. *)
Lemma chunked_in_creation_order (bm : BMesh) (out : list Vector)
    (num_procs : nat) :
  1 <= num_procs ->
  execute_chunked bm out num_procs = execute_serial bm out.
Proof.
  intros Ht. unfold execute_chunked, execute_serial.
  destruct worker_smooth_angle as [angle |] eqn:Ha.
  - set (n := length (verts bm)).
    rewrite (foldM_ext _
               (fun out i =>
                  foldM (process_index bm angle) out
                    (seq (bound num_procs n i)
                       (bound num_procs n (S i) - bound num_procs n i)))).
    2: { intros b i _. apply worker_seq; [exact Ht | exact Ha]. }
    rewrite (foldM_fmap (foldM (process_index bm angle))
               (fun i => seq (bound num_procs n i)
                           (bound num_procs n (S i) - bound num_procs n i))).
    rewrite <- foldM_concat.
    destruct (concat_intervals (bound num_procs n) num_procs) as [_ ->].
    { intros i _. apply bound_mono, Ht. }
    rewrite (worker_seq bm out 0 1 angle) by (lia || exact Ha). fold n.
    rewrite !bound_zero by lia. rewrite bound_last by exact Ht. reflexivity.
  - rewrite (worker_name_error bm out 0 1 Ha).
    destruct num_procs as [| k]; [lia |]. simpl.
    rewrite (worker_name_error bm out 0 (S k) Ha). reflexivity.
Qed.

(** ** The writes of a vertex *)

(** [out[w.1] = w.2] *)
Definition apply_write (out : list Vector) (w : nat * Vector)
  : option (list Vector) :=
  store out w.1 w.2.

(** The writes of one vertex do not depend on the array: they are the
    slots of the corners of each group with the normal of the group. *)
Definition group_writes (vertex_normal_weight : Z) (loop_group : list Loop)
  : option (list (nat * Vector)) :=
  vn_local ← group_normal vertex_normal_weight loop_group;
  Some ((fun loop => (index loop, vn_local)) <$> loop_group).

Fixpoint vertex_writes (vertex_normal_weight : Z) (groups : list (list Loop))
  : option (list (nat * Vector)) :=
  match groups with
  | [] => Some []
  | g :: gs =>
      ws ← group_writes vertex_normal_weight g;
      rest ← vertex_writes vertex_normal_weight gs;
      Some (ws ++ rest)
  end.

Definition index_writes (bm : BMesh) (angle : scalar) (idx : nat)
  : option (list (nat * Vector)) :=
  v ← verts bm !! idx;
  vertex_writes (weight v) (split_loops v angle use_flat_faces).

Lemma process_group_writes (w : Z) (g : list Loop) (out : list Vector) :
  process_group w out g = ws ← group_writes w g; foldM apply_write out ws.
Proof.
  unfold process_group, group_writes.
  destruct (group_normal w g) as [vn |]; [| reflexivity].
  cbn [mbind option_bind]. unfold assign_group.
  apply (foldM_fmap apply_write (fun loop => (index loop, vn))).
Qed.

Lemma process_groups_writes (w : Z) (groups : list (list Loop))
    (out : list Vector) :
  foldM (process_group w) out groups
  = ws ← vertex_writes w groups; foldM apply_write out ws.
Proof.
  revert out. induction groups as [| g gs IH]; intros out; [reflexivity |].
  cbn [foldM vertex_writes]. rewrite process_group_writes.
  destruct (group_writes w g) as [ws |]; [| reflexivity].
  cbn [mbind option_bind].
  destruct (vertex_writes w gs) as [rest |] eqn:Hrest; cbn [mbind option_bind].
  - rewrite foldM_app.
    destruct (foldM apply_write out ws) as [out1 |]; cbn [mbind option_bind];
      [| reflexivity].
    rewrite IH. rewrite ?Hrest. reflexivity.
  - destruct (foldM apply_write out ws) as [out1 |]; cbn [mbind option_bind];
      [| reflexivity].
    rewrite IH. rewrite ?Hrest. reflexivity.
Qed.

Lemma process_index_writes (bm : BMesh) (angle : scalar) (out : list Vector)
    (idx : nat) :
  process_index bm angle out idx
  = ws ← index_writes bm angle idx; foldM apply_write out ws.
Proof.
  unfold process_index, index_writes, process_vertex.
  destruct (verts bm !! idx) as [v |]; simpl; [| reflexivity].
  apply process_groups_writes.
Qed.

Lemma vertex_writes_index (w : Z) (groups : list (list Loop))
    (ws : list (nat * Vector)) (write : nat * Vector) :
  vertex_writes w groups = Some ws -> write ∈ ws ->
  exists g loop, g ∈ groups /\ loop ∈ g /\ index loop = write.1.
Proof.
  revert ws. induction groups as [| g gs IH]; intros ws; simpl.
  - intros [= <-] H. inversion H.
  - unfold group_writes. destruct (group_normal w g) as [vn |]; [| discriminate].
    simpl. destruct (vertex_writes w gs) as [rest |]; [| discriminate].
    simpl. intros [= <-] H. apply elem_of_app in H as [H | H].
    + apply list_elem_of_fmap in H as [loop [-> Hloop]].
      exists g, loop. split; [apply list_elem_of_here |]. split; [exact Hloop | reflexivity].
    + destruct (IH rest eq_refl H) as (g0 & loop & Hg0 & Hloop & Hidx).
      exists g0, loop. split; [apply list_elem_of_further, Hg0 |]. split; assumption.
Qed.

(** Writes to different slots can be exchanged. *)
Lemma apply_write_commute (w1 w2 : nat * Vector) :
  w1.1 <> w2.1 -> commute apply_write w1 w2.
Proof.
  intros Hne out. unfold apply_write, store.
  destruct (decide (w1.1 < length out)) as [H1 | H1],
    (decide (w2.1 < length out)) as [H2 | H2]; simpl;
    rewrite ?length_insert;
    repeat match goal with
      | |- context [decide (?i < length out)] =>
          destruct (decide (i < length out)); try contradiction
      end; simpl; try reflexivity.
  f_equal. apply list_insert_insert_ne. congruence.
Qed.

(** The steps of two different vertices can be exchanged when each corner
    belongs to one vertex. *)
Lemma process_index_commute (bm : BMesh) (i j : nat) :
  corners_owned bm -> i <> j -> commute (process_index bm smooth_angle) i j.
Proof.
  intros Hown Hij out. rewrite !process_index_writes.
  destruct (index_writes bm smooth_angle i) as [wi |] eqn:Hwi,
    (index_writes bm smooth_angle j) as [wj |] eqn:Hwj; simpl.
  - transitivity (foldM apply_write out (wi ++ wj)).
    { rewrite foldM_app.
      destruct (foldM apply_write out wi) as [o |]; simpl; [| reflexivity].
      rewrite process_index_writes, Hwj. reflexivity. }
    transitivity (foldM apply_write out (wj ++ wi)).
    2: { rewrite foldM_app.
         destruct (foldM apply_write out wj) as [o |]; simpl; [| reflexivity].
         rewrite process_index_writes, Hwi. reflexivity. }
    apply foldM_commute_lists. intros x y Hx Hy. apply apply_write_commute.
    unfold index_writes in Hwi, Hwj.
    destruct (verts bm !! i) as [vi |] eqn:Hvi; [| discriminate].
    destruct (verts bm !! j) as [vj |] eqn:Hvj; [| discriminate].
    simpl in Hwi, Hwj.
    destruct (vertex_writes_index _ _ _ _ Hwi Hx) as (gi & li & Hgi & Hli & <-).
    destruct (vertex_writes_index _ _ _ _ Hwj Hy) as (gj & lj & Hgj & Hlj & <-).
    apply (Hown i j vi vj gi gj li lj); assumption.
  - destruct (foldM apply_write out wi) as [o |]; simpl; [| reflexivity].
    rewrite process_index_writes, Hwj. reflexivity.
  - destruct (foldM apply_write out wj) as [o |]; simpl; [| reflexivity].
    rewrite process_index_writes, Hwi. reflexivity.
  - reflexivity.
Qed.

(** C2: for every number of chunks [num_procs >= 1], dividing the vertex
    count or not, one invocation of the worker per chunk on the same output
    array leaves every slot of the array exactly as the single invocation
    over chunk 0 of 1 does (and raises exactly when that one raises); and
    when each corner belongs to one vertex, this holds for every order in
    which the chunk invocations take effect. *)
Theorem chunked_equals_serial (bm : BMesh) (out : list Vector)
    (num_procs : nat) :
  1 <= num_procs ->
  execute_chunked bm out num_procs = execute_serial bm out /\
  (forall order,
     order ≡ₚ seq 0 num_procs -> corners_owned bm ->
     execute_in_order bm out num_procs order = execute_serial bm out).
Proof.
  intros Ht. split; [apply chunked_in_creation_order, Ht |].
  intros order Hperm Hown.
  rewrite <- (chunked_in_creation_order bm out num_procs Ht).
  unfold execute_in_order, execute_chunked.
  destruct worker_smooth_angle as [angle |] eqn:Ha.
  - assert (Hangle : angle = smooth_angle).
    { unfold worker_smooth_angle in Ha.
      destruct use_auto_smooth; [congruence | discriminate]. }
    subst angle. set (n := length (verts bm)).
    set (chunk := fun i => seq (bound num_procs n i)
                             (bound num_procs n (S i) - bound num_procs n i)).
    rewrite !(foldM_ext (fun out i => worker bm out i num_procs)
                (fun out i => foldM (process_index bm smooth_angle) out (chunk i)))
      by (intros b i _; apply worker_seq; [exact Ht | exact Ha]).
    rewrite !(foldM_fmap (foldM (process_index bm smooth_angle)) chunk).
    rewrite <- !foldM_concat.
    symmetry. apply foldM_Permutation.
    + apply concat_fmap_Permutation. symmetry. exact Hperm.
    + destruct (concat_intervals (bound num_procs n) num_procs) as [_ Hc].
      { intros i _. apply bound_mono, Ht. }
      unfold chunk. rewrite Hc. apply NoDup_seq.
    + intros i j _ _ Hij. apply process_index_commute; assumption.
  - destruct num_procs as [| k]; [lia |].
    assert (Hne : order <> []).
    { intros ->. apply Permutation_nil_l in Hperm. discriminate Hperm. }
    destruct order as [| c order]; [contradiction |]. simpl.
    rewrite !(worker_name_error _ _ _ _ Ha). reflexivity.
Qed.

(** ** The influence cutoff *)

Lemma foldl_max_spec (x : Z) (l : list Z) :
  foldl Z.max x l ∈ x :: l /\ forall y, y ∈ x :: l -> (y <= foldl Z.max x l)%Z.
Proof.
  revert x. induction l as [| z l IH]; intros x; simpl.
  - split; [apply list_elem_of_here |].
    intros y Hy. apply list_elem_of_singleton in Hy. lia.
  - destruct (IH (Z.max x z)) as [Hin Hle]. split.
    + apply elem_of_cons in Hin as [Hin | Hin].
      * rewrite Hin. destruct (Z.max_spec x z) as [[_ ->] | [_ ->]].
        -- apply list_elem_of_further, list_elem_of_here.
        -- apply list_elem_of_here.
      * do 2 apply list_elem_of_further. exact Hin.
    + intros y Hy. pose proof (Hle (Z.max x z) (list_elem_of_here _ _)) as Hm.
      apply elem_of_cons in Hy as [-> | Hy]; [lia |].
      apply elem_of_cons in Hy as [-> | Hy]; [lia |].
      apply Hle, list_elem_of_further, Hy.
Qed.

(** [max] returns an element that no element exceeds, and only that. *)
Lemma py_max_spec (l : list Z) (m : Z) :
  py_max l = Some m <-> m ∈ l /\ forall y, y ∈ l -> (y <= m)%Z.
Proof.
  destruct l as [| x l]; simpl.
  - split; [discriminate |]. intros [H _]. inversion H.
  - destruct (foldl_max_spec x l) as [Hin Hle]. split.
    + intros [= <-]. split; assumption.
    + intros [Hm Hall]. f_equal. apply Z.le_antisymm.
      * apply Hall, Hin.
      * apply Hle, Hm.
Qed.

Lemma influence_max_spec (loop_group : list Loop) (m : Z) :
  influence_max loop_group = Some m <->
  (exists loop, loop ∈ loop_group /\ influence (face loop) = m) /\
  (forall loop, loop ∈ loop_group -> (influence (face loop) <= m)%Z).
Proof.
  unfold influence_max. rewrite py_max_spec. split.
  - intros [Hin Hle]. split.
    + apply list_elem_of_fmap in Hin as [loop [-> Hloop]]. eauto.
    + intros loop Hloop. apply Hle, list_elem_of_fmap. eauto.
  - intros [[loop [Hloop <-]] Hle]. split.
    + apply list_elem_of_fmap. eauto.
    + intros y Hy. apply list_elem_of_fmap in Hy as [loop' [-> Hloop']].
      apply Hle, Hloop'.
Qed.

Lemma influence_max_insert (g1 g2 : list Loop) (loop : Loop) (m : Z) :
  influence_max (g1 ++ g2) = Some m ->
  (influence (face loop) <= m)%Z ->
  influence_max (g1 ++ loop :: g2) = Some m.
Proof.
  rewrite !influence_max_spec. intros [[l0 [Hl0 Hm]] Hle] Hloop. split.
  - exists l0. split; [| exact Hm].
    apply elem_of_app in Hl0 as [H | H]; apply elem_of_app;
      [left; exact H | right; apply list_elem_of_further, H].
  - intros l1 Hl1. apply elem_of_app in Hl1 as [H | H].
    + apply Hle, elem_of_app. left. exact H.
    + apply elem_of_cons in H as [-> | H]; [exact Hloop |].
      apply Hle, elem_of_app. right. exact H.
Qed.

(** C3: within a shading group whose maximal influence is [m], the
    contributing corners are exactly those whose face has influence [m], and
    [m] is the largest influence of the group; a corner of strictly lower
    influence, wherever it is added, leaves the maximum, the contributing
    corners and the normal of the group unchanged under every weight; a
    corner of influence [m] keeps the maximum and joins the contributing
    corners at its place. *)
Theorem influence_cutoff (vertex_normal_weight : Z) (g1 g2 : list Loop)
    (loop : Loop) (m : Z) :
  influence_max (g1 ++ g2) = Some m ->
  (forall l, l ∈ loop_subgroup m (g1 ++ g2) <->
             l ∈ g1 ++ g2 /\ influence (face l) = m) /\
  (forall l, l ∈ g1 ++ g2 -> (influence (face l) < m)%Z ->
             l ∉ loop_subgroup m (g1 ++ g2)) /\
  ((influence (face loop) < m)%Z ->
     influence_max (g1 ++ loop :: g2) = Some m /\
     loop_subgroup m (g1 ++ loop :: g2) = loop_subgroup m (g1 ++ g2) /\
     group_normal vertex_normal_weight (g1 ++ loop :: g2)
     = group_normal vertex_normal_weight (g1 ++ g2)) /\
  (influence (face loop) = m ->
     influence_max (g1 ++ loop :: g2) = Some m /\
     loop_subgroup m (g1 ++ loop :: g2)
     = loop_subgroup m g1 ++ loop :: loop_subgroup m g2).
Proof.
  intros Hmax. repeat split.
  - apply list_elem_of_filter in H. tauto.
  - apply list_elem_of_filter in H. tauto.
  - intros [Hl Hm]. apply list_elem_of_filter. tauto.
  - intros l _ Hlt Hin. apply list_elem_of_filter in Hin as [Hin _]. lia.
  - apply influence_max_insert; [exact Hmax | lia].
  - unfold loop_subgroup. rewrite !filter_app, filter_cons_False by lia.
    reflexivity.
  - unfold group_normal. rewrite Hmax.
    rewrite (influence_max_insert g1 g2 loop m Hmax) by lia. simpl.
    unfold loop_subgroup. rewrite !filter_app, filter_cons_False by lia.
    reflexivity.
  - apply influence_max_insert; [exact Hmax | lia].
  - unfold loop_subgroup. rewrite filter_app, filter_cons_True by exact H.
    reflexivity.
Qed.

(** ** Area weighting *)

(** The sum of a list of vectors, accumulated from the zero vector in the
    order of the list. *)
Definition vsum (vs : list Vector) : Vector := foldl vadd vzero vs.

(** A max-priority corner of a group, stated without the maximum that the
    worker computes: no corner of the group is on a face of higher
    influence. *)
Definition max_priority (loop_group : list Loop) (loop : Loop) : Prop :=
  Forall (fun other => (influence (face other) <= influence (face loop))%Z)
    loop_group.

#[export] Instance max_priority_dec (loop_group : list Loop) (loop : Loop) :
  Decision (max_priority loop_group loop).
Proof. unfold max_priority. apply _. Defined.

Definition max_priority_corners (loop_group : list Loop) : list Loop :=
  filter (max_priority loop_group) loop_group.

(** The AREA row of the specification: the normalized sum, over the
    max-priority corners, of the face normal scaled by the cached area of the
    face. *)
Definition area_weighted_normal (loop_group : list Loop) : Vector :=
  normalize
    (vsum ((fun loop => smul (area_cache_get (face loop)) (normal (face loop)))
             <$> max_priority_corners loop_group)).

Lemma filter_ext_elem (P Q : Loop -> Prop) `{!forall l, Decision (P l)}
    `{!forall l, Decision (Q l)} (g : list Loop) :
  (forall l, l ∈ g -> P l <-> Q l) -> filter P g = filter Q g.
Proof.
  induction g as [| l g IH]; intros Hext; [reflexivity |].
  assert (Hg : filter P g = filter Q g).
  { apply IH. intros l' Hl'. apply Hext. right. exact Hl'. }
  destruct (decide (P l)) as [Hp | Hp].
  - rewrite (filter_cons_True P) by exact Hp.
    rewrite (filter_cons_True Q) by (apply Hext; [left | exact Hp]).
    rewrite Hg. reflexivity.
  - rewrite (filter_cons_False P) by exact Hp.
    rewrite (filter_cons_False Q).
    + exact Hg.
    + intros Hq. apply Hp, Hext; [left | exact Hq].
Qed.

(** The subgroup that the worker keeps is the list of the max-priority
    corners. *)
Lemma loop_subgroup_max_priority (loop_group : list Loop) (m : Z) :
  influence_max loop_group = Some m ->
  loop_subgroup m loop_group = max_priority_corners loop_group.
Proof.
  intros Hm. apply influence_max_spec in Hm as [[top [Htop Hm]] Hle].
  unfold loop_subgroup, max_priority_corners. apply filter_ext_elem.
  intros l Hl. unfold max_priority. rewrite Forall_forall. split.
  - intros E other Hother. rewrite E. apply Hle, Hother.
  - intros Hall. apply Z.le_antisymm; [apply Hle, Hl |].
    rewrite <- Hm. apply Hall, Htop.
Qed.

Lemma max_priority_corners_two (l1 l2 : Loop) (g0 g1 g2 : list Loop) :
  influence (face l1) = influence (face l2) ->
  (forall l, l ∈ g0 ++ g1 ++ g2 ->
             (influence (face l) < influence (face l1))%Z) ->
  max_priority_corners (g0 ++ l1 :: g1 ++ l2 :: g2) = [l1; l2].
Proof.
  intros E Hlow.
  assert (Hmax : influence_max (g0 ++ l1 :: g1 ++ l2 :: g2)
                 = Some (influence (face l1))).
  { apply influence_max_spec. split.
    - exists l1. split; [| reflexivity].
      apply elem_of_app. right. left.
    - intros l Hl. apply elem_of_app in Hl as [Hl | Hl].
      { apply Z.lt_le_incl, Hlow, elem_of_app. left. exact Hl. }
      apply elem_of_cons in Hl as [-> | Hl]; [lia |].
      apply elem_of_app in Hl as [Hl | Hl].
      { apply Z.lt_le_incl, Hlow, elem_of_app. right.
        apply elem_of_app. left. exact Hl. }
      apply elem_of_cons in Hl as [-> | Hl]; [lia |].
      apply Z.lt_le_incl, Hlow, elem_of_app. right.
      apply elem_of_app. right. exact Hl. }
  rewrite <- (loop_subgroup_max_priority _ _ Hmax). unfold loop_subgroup.
  assert (Hnil : forall g, (forall l, l ∈ g -> l ∈ g0 ++ g1 ++ g2) ->
            filter (fun loop => influence (face loop) = influence (face l1)) g
            = []).
  { intros g Hg. induction g as [| l g IH]; [reflexivity |].
    rewrite filter_cons_False.
    - apply IH. intros l' Hl'. apply Hg. right. exact Hl'.
    - intros El. pose proof (Hlow l (Hg l ltac:(left))). lia. }
  rewrite filter_app, filter_cons_True by reflexivity.
  rewrite filter_app, filter_cons_True by (symmetry; exact E).
  rewrite !Hnil; [reflexivity | | |].
  - intros l Hl. apply elem_of_app. right. apply elem_of_app. right. exact Hl.
  - intros l Hl. apply elem_of_app. right. apply elem_of_app. left. exact Hl.
  - intros l Hl. apply elem_of_app. left. exact Hl.
Qed.

Lemma foldl_fmap_vadd (f : Loop -> Vector) (v : Vector) (l : list Loop) :
  foldl (fun vn loop => vadd vn (f loop)) v l = foldl vadd v (f <$> l).
Proof.
  revert v. induction l as [| a l IH]; intros v; simpl; [reflexivity | apply IH].
Qed.

Lemma vn_sum_area (w : Z) (subgroup : list Loop) :
  (forall a b, weight_value a = weight_value b -> a = b) ->
  w = weight_value AREA ->
  vn_sum w subgroup
  = vsum ((fun loop => smul (area_cache_get (face loop)) (normal (face loop)))
            <$> subgroup).
Proof.
  intros Hinj ->. unfold vn_sum.
  destruct (decide (weight_value AREA = weight_value UNIFORM)) as [E | _];
    [apply Hinj in E; discriminate E |].
  destruct (decide (weight_value AREA = weight_value ANGLE)) as [E | _];
    [apply Hinj in E; discriminate E |].
  destruct (decide (weight_value AREA = weight_value AREA)) as [_ | E];
    [| contradiction].
  apply foldl_fmap_vadd.
Qed.

(** C4: when the weight of the vertex is AREA (the members of the
    enumeration having distinct values), the normal of a non-empty shading
    group is the normalized sum, over the corners of the group on whose face
    no corner of the group has a higher influence, of the face normal scaled
    by the cached face area.  For a group in which two corners [l1] and
    [l2] are on faces of the same influence, with areas [a1], [a2] and
    normals [n1], [n2], and every other corner is on a face of strictly
    lower influence, it is the normalization of [(0 + a1 * n1) + a2 * n2],
    which is [normalize (a1 * n1 + a2 * n2)] as soon as adding [a1 * n1] to
    the zero vector gives [a1 * n1]. *)
Theorem area_mode_normal (vertex_normal_weight : Z) (loop_group : list Loop) :
  (forall a b, weight_value a = weight_value b -> a = b) ->
  vertex_normal_weight = weight_value AREA ->
  loop_group <> [] ->
  group_normal vertex_normal_weight loop_group
  = Some (area_weighted_normal loop_group) /\
  (forall (l1 l2 : Loop) (g0 g1 g2 : list Loop),
     loop_group = g0 ++ l1 :: g1 ++ l2 :: g2 ->
     influence (face l1) = influence (face l2) ->
     (forall l, l ∈ g0 ++ g1 ++ g2 ->
                (influence (face l) < influence (face l1))%Z) ->
     let c1 := smul (area_cache_get (face l1)) (normal (face l1)) in
     let c2 := smul (area_cache_get (face l2)) (normal (face l2)) in
     group_normal vertex_normal_weight loop_group
     = Some (normalize (vadd (vadd vzero c1) c2)) /\
     (vadd vzero c1 = c1 ->
      group_normal vertex_normal_weight loop_group
      = Some (normalize (vadd c1 c2)))).
Proof.
  intros Hinj Hw Hne.
  assert (Hn : group_normal vertex_normal_weight loop_group
               = Some (area_weighted_normal loop_group)).
  { unfold group_normal, area_weighted_normal.
    destruct (influence_max loop_group) as [m |] eqn:Hm; simpl.
    - rewrite (vn_sum_area _ _ Hinj Hw).
      rewrite (loop_subgroup_max_priority _ _ Hm). reflexivity.
    - destruct loop_group as [| l0 g]; [contradiction | discriminate Hm]. }
  split; [exact Hn |].
  intros l1 l2 g0 g1 g2 -> Hinfl Hlow c1 c2.
  assert (Hs : area_weighted_normal (g0 ++ l1 :: g1 ++ l2 :: g2)
               = normalize (vadd (vadd vzero c1) c2)).
  { unfold area_weighted_normal.
    rewrite (max_priority_corners_two l1 l2 g0 g1 g2 Hinfl Hlow).
    reflexivity. }
  rewrite Hn, Hs. split; [reflexivity |]. intros ->. reflexivity.
Qed.

(** ** Writing the normal of a group *)

Lemma store_in_range (out : list Vector) (i : nat) (v : Vector) :
  i < length out -> store out i v = Some (<[i := v]> out).
Proof.
  intros Hi. unfold store.
  destruct (decide (i < length out)); [reflexivity | contradiction].
Qed.

Lemma assign_group_cons (vn : Vector) (l : Loop) (g : list Loop)
    (out : list Vector) :
  assign_group vn (l :: g) out
  = out1 ← store out (index l) vn; assign_group vn g out1.
Proof. reflexivity. Qed.

Lemma assign_group_spec (vn : Vector) (loop_group : list Loop)
    (out : list Vector) :
  (forall loop, loop ∈ loop_group -> index loop < length out) ->
  exists out',
    assign_group vn loop_group out = Some out' /\
    length out' = length out /\
    (forall loop, loop ∈ loop_group -> out' !! index loop = Some vn) /\
    (forall j, (forall loop, loop ∈ loop_group -> index loop <> j) ->
               out' !! j = out !! j).
Proof.
  revert out. induction loop_group as [| l g IH]; intros out Hrange.
  - exists out. split; [reflexivity |]. split; [reflexivity |]. split.
    + intros loop Hloop. inversion Hloop.
    + intros j _. reflexivity.
  - pose proof (Hrange l (list_elem_of_here _ _)) as Hl.
    rewrite assign_group_cons, (store_in_range _ _ _ Hl). simpl.
    destruct (IH (<[index l := vn]> out)) as [out' [Hrun [Hlen [Hin Hout]]]].
    { intros loop Hloop. rewrite length_insert.
      apply Hrange, list_elem_of_further, Hloop. }
    exists out'. split; [exact Hrun |]. rewrite length_insert in Hlen.
    split; [exact Hlen |]. split.
    + intros loop Hloop. apply elem_of_cons in Hloop as [-> | Hloop].
      * destruct (decide (Exists (fun loop => index loop = index l) g))
          as [Hex | Hex].
        -- apply Exists_exists in Hex as [l' [Hl' Heq]]. rewrite <- Heq.
           apply Hin, Hl'.
        -- rewrite Hout.
           ++ apply list_lookup_insert_eq, Hl.
           ++ intros loop Hloop Heq. apply Hex, Exists_exists. eauto.
      * apply Hin, Hloop.
    + intros j Hj. rewrite Hout.
      * apply list_lookup_insert_ne. apply Hj, list_elem_of_here.
      * intros loop Hloop. apply Hj, list_elem_of_further, Hloop.
Qed.

(** C5: when the summed contribution of a shading group has zero length
    and [normalize] maps vectors of zero length to the zero vector (the
    contract of [mathutils]), processing the group raises nothing and
    leaves the zero vector in the slot of every corner of the group, the
    other slots being untouched. *)
Theorem zero_length_sum_gives_zero (vertex_normal_weight : Z)
    (loop_group : list Loop) (out : list Vector) (m : Z) :
  (forall v, vlength v = szero -> normalize v = vzero) ->
  influence_max loop_group = Some m ->
  vlength (vn_sum vertex_normal_weight (loop_subgroup m loop_group)) = szero ->
  (forall loop, loop ∈ loop_group -> index loop < length out) ->
  exists out',
    process_group vertex_normal_weight out loop_group = Some out' /\
    length out' = length out /\
    (forall loop, loop ∈ loop_group -> out' !! index loop = Some vzero) /\
    (forall j, (forall loop, loop ∈ loop_group -> index loop <> j) ->
               out' !! j = out !! j).
Proof.
  intros Hnorm Hmax Hzero Hrange. unfold process_group, group_normal.
  rewrite Hmax. simpl. rewrite (Hnorm _ Hzero).
  apply assign_group_spec, Hrange.
Qed.

End Worker.

(** The claimed bounds [⌊chunk * V / total⌋] are not the bounds of the code:
    with 10 workers and 5760 vertices, [7 / 10 * 5760] evaluates to
    4031.9999999999995, so worker 7 starts at 4031 and not at
    [7 * 5760 / 10 = 4032]. *)
Lemma chunk_range_not_floor :
  ~ (forall total nverts chunk : nat,
       1 <= total -> chunk < total ->
       chunk_range chunk total nverts
       = Some (chunk * nverts / total, (chunk + 1) * nverts / total)).
Proof.
  intros H. specialize (H 10 (10 * 576) 7 ltac:(lia) ltac:(lia)).
  vm_compute in H. discriminate H.
Qed.

End Update.
(** * Single-precision arithmetic of [mathutils] *)

Module Binary32.

Import Binary64.

Local Open Scope Q_scope.

(** A [float] of C is modelled by the rational it denotes.  The operations
    round their exact result to the nearest binary32 number, ties to even:
    a 24-bit significand, the spacing 2^-149 of the subnormal numbers below
    2^-126, and infinity from 2^128 on. *)

(** The exponent of the unit in the last place of [q]. *)
Definition ulp_exp32 (q : Q) : Z := Z.max (ilog2 (Qabs q) - 23) (-149).

(** The nearest number with that unit, for [0 < q]. *)
Definition round_magnitude (q : Q) : Q :=
  inject_Z (rne (q / 2 ^ ulp_exp32 q)) * 2 ^ ulp_exp32 q.

(** [None] is an infinity. *)
Definition round32 (q : Q) : option Q :=
  if Qeq_bool q 0 then Some 0
  else
    let r := round_magnitude (Qabs q) in
    if Qle_bool (2 ^ 128) r then None
    else Some (if Qle_bool 0 q then r else - r).

(** The numbers a [float] can hold. *)
Definition binary32 (q : Q) : Prop :=
  match round32 q with
  | Some r => r == q
  | None => False
  end.

Lemma ilog2_comp (x y : Q) : 0 < x -> x == y -> ilog2 x = ilog2 y.
Proof.
  intros Hx E. apply Z.le_antisymm; apply ilog2_mono; lra.
Qed.

Lemma ilog2_lower (x : Q) (k : Z) : 0 < x -> 2 ^ k <= x -> (k <= ilog2 x)%Z.
Proof.
  intros Hx Hk. destruct (ilog2_spec x Hx) as [_ H2].
  destruct (Z_le_gt_dec k (ilog2 x)) as [H | H]; [exact H | exfalso].
  pose proof (pow2_le (ilog2 x + 1) k) as Hp. lapply Hp; [| lia].
  intros Hp'. lra.
Qed.

Lemma ilog2_upper (x : Q) (k : Z) : 0 < x -> x < 2 ^ (k + 1) -> (ilog2 x <= k)%Z.
Proof.
  intros Hx Hk. destruct (ilog2_spec x Hx) as [H1 _].
  destruct (Z_le_gt_dec (ilog2 x) k) as [H | H]; [exact H | exfalso].
  pose proof (pow2_le (k + 1) (ilog2 x)) as Hp. lapply Hp; [| lia].
  intros Hp'. lra.
Qed.

Lemma ulp_exp32_comp (x y : Q) : 0 < x -> x == y -> ulp_exp32 x = ulp_exp32 y.
Proof.
  intros Hx E. unfold ulp_exp32.
  rewrite (ilog2_comp (Qabs x) (Qabs y)); [reflexivity | |].
  - rewrite Qabs_pos; lra.
  - rewrite E. reflexivity.
Qed.

Lemma ulp_exp32_pos (x : Q) :
  0 < x -> ulp_exp32 x = Z.max (ilog2 x - 23) (-149).
Proof.
  intros Hx. unfold ulp_exp32. rewrite (ilog2_comp (Qabs x) x); [reflexivity | |].
  - rewrite Qabs_pos; lra.
  - apply Qabs_pos. lra.
Qed.

Lemma ulp_exp32_mono (x y : Q) :
  0 < x -> x <= y -> (ulp_exp32 x <= ulp_exp32 y)%Z.
Proof.
  intros Hx Hxy. rewrite !ulp_exp32_pos by lra.
  pose proof (ilog2_mono x y Hx Hxy). lia.
Qed.

Lemma round_magnitude_comp (x y : Q) :
  0 < x -> x == y -> round_magnitude x = round_magnitude y.
Proof.
  intros Hx E. unfold round_magnitude.
  rewrite (ulp_exp32_comp x y Hx E).
  rewrite (rne_comp (x / 2 ^ ulp_exp32 y) (y / 2 ^ ulp_exp32 y));
    [reflexivity |].
  rewrite E. reflexivity.
Qed.

Lemma Qeq_bool_comp (x y : Q) : x == y -> Qeq_bool x 0 = Qeq_bool y 0.
Proof.
  intros E. destruct (Qeq_bool x 0) eqn:Hx, (Qeq_bool y 0) eqn:Hy;
    try reflexivity.
  - apply Qeq_bool_iff in Hx. rewrite E in Hx. apply Qeq_bool_iff in Hx.
    congruence.
  - apply Qeq_bool_iff in Hy. rewrite <- E in Hy. apply Qeq_bool_iff in Hy.
    congruence.
Qed.

Lemma Qle_bool_comp (a x y : Q) : x == y -> Qle_bool a x = Qle_bool a y.
Proof.
  intros E. destruct (Qle_bool a x) eqn:Hx, (Qle_bool a y) eqn:Hy;
    try reflexivity.
  - apply Qle_bool_iff in Hx. rewrite E in Hx. apply Qle_bool_iff in Hx.
    congruence.
  - apply Qle_bool_iff in Hy. rewrite <- E in Hy. apply Qle_bool_iff in Hy.
    congruence.
Qed.

Lemma Qabs_nonzero (x : Q) : ~ x == 0 -> 0 < Qabs x.
Proof.
  intros Hx. destruct (Q_dec x 0) as [[Hlt | Hgt] | Heq].
  - rewrite Qabs_neg by lra. lra.
  - rewrite Qabs_pos by lra. exact Hgt.
  - contradiction.
Qed.

(** Rounding depends on the number only, not on the fraction that denotes
    it. *)
Lemma round32_comp (x y : Q) : x == y -> round32 x = round32 y.
Proof.
  intros E. unfold round32. rewrite (Qeq_bool_comp x y E).
  destruct (Qeq_bool y 0) eqn:Hy; [reflexivity |].
  assert (Hx : ~ x == 0).
  { intros H. rewrite E in H. apply Qeq_bool_iff in H. congruence. }
  pose proof (Qabs_nonzero x Hx) as Ha.
  assert (Eabs : Qabs x == Qabs y) by (rewrite E; reflexivity).
  rewrite (round_magnitude_comp (Qabs x) (Qabs y) Ha Eabs).
  rewrite (Qle_bool_comp 0 x y E). reflexivity.
Qed.

Lemma round32_zero (x : Q) : x == 0 -> round32 x = Some 0.
Proof.
  intros H. unfold round32. apply Qeq_bool_iff in H. rewrite H. reflexivity.
Qed.

Lemma round32_pos (x : Q) :
  0 < x ->
  round32 x
  = if Qle_bool (2 ^ 128) (round_magnitude x) then None
    else Some (round_magnitude x).
Proof.
  intros Hx. unfold round32.
  destruct (Qeq_bool x 0) eqn:E; [apply Qeq_bool_iff in E; lra |].
  rewrite (round_magnitude_comp (Qabs x) x);
    [| rewrite Qabs_pos; lra | apply Qabs_pos; lra].
  assert (H0 : Qle_bool 0 x = true) by (apply Qle_bool_iff; lra).
  cbv zeta. rewrite H0. reflexivity.
Qed.

Lemma round32_neg (x : Q) :
  x < 0 ->
  round32 x
  = if Qle_bool (2 ^ 128) (round_magnitude (- x)) then None
    else Some (- round_magnitude (- x)).
Proof.
  intros Hx. unfold round32.
  destruct (Qeq_bool x 0) eqn:E; [apply Qeq_bool_iff in E; lra |].
  rewrite (round_magnitude_comp (Qabs x) (- x));
    [| rewrite Qabs_neg; lra | apply Qabs_neg; lra].
  assert (H0 : Qle_bool 0 x = false).
  { destruct (Qle_bool 0 x) eqn:H; [| reflexivity].
    apply Qle_bool_iff in H. lra. }
  cbv zeta. rewrite H0. reflexivity.
Qed.

(** ** The significand *)

Lemma significand_upper32 (x : Q) :
  0 < x -> x < 2 ^ 24 * 2 ^ ulp_exp32 x.
Proof.
  intros Hx. destruct (ilog2_spec x Hx) as [_ H2].
  rewrite <- pow2_plus.
  pose proof (pow2_le (ilog2 x + 1) (24 + ulp_exp32 x)) as Hp.
  lapply Hp; [intros Hp'; lra |].
  rewrite (ulp_exp32_pos x Hx). lia.
Qed.

Lemma significand_lower32 (x : Q) :
  0 < x -> (-126 <= ilog2 x)%Z ->
  ulp_exp32 x = (ilog2 x - 23)%Z /\ 2 ^ 23 * 2 ^ ulp_exp32 x <= x.
Proof.
  intros Hx Hn. destruct (ilog2_spec x Hx) as [H1 _].
  assert (E : ulp_exp32 x = (ilog2 x - 23)%Z).
  { rewrite (ulp_exp32_pos x Hx). lia. }
  split; [exact E |]. rewrite E, <- pow2_plus.
  replace (23 + (ilog2 x - 23))%Z with (ilog2 x) by lia. exact H1.
Qed.

Lemma scaled_identity (x : Q) (e : Z) : x / 2 ^ e * 2 ^ e == x.
Proof. pose proof (pow2_pos e). field. lra. Qed.

Lemma rne_scaled_upper (x : Q) :
  0 < x -> (0 <= rne (x / 2 ^ ulp_exp32 x) <= 2 ^ 24)%Z.
Proof.
  intros Hx. pose proof (significand_upper32 x Hx) as Hu.
  pose proof (pow2_pos (ulp_exp32 x)) as Hp. split.
  - rewrite <- (rne_inject 0). apply rne_mono. change (inject_Z 0) with 0.
    apply Qle_shift_div_l; [exact Hp | lra].
  - rewrite <- (rne_inject (2 ^ 24)). apply rne_mono.
    rewrite pow2_inject by lia. apply Qle_shift_div_r; [exact Hp | lra].
Qed.

Lemma rne_scaled_lower (x : Q) :
  0 < x -> (-126 <= ilog2 x)%Z ->
  (2 ^ 23 <= rne (x / 2 ^ ulp_exp32 x))%Z.
Proof.
  intros Hx Hn. destruct (significand_lower32 x Hx Hn) as [_ Hl].
  pose proof (pow2_pos (ulp_exp32 x)) as Hp.
  rewrite <- (rne_inject (2 ^ 23)). apply rne_mono.
  rewrite pow2_inject by lia. apply Qle_shift_div_l; [exact Hp | exact Hl].
Qed.

Lemma round_magnitude_nonneg (x : Q) : 0 < x -> 0 <= round_magnitude x.
Proof.
  intros Hx. unfold round_magnitude.
  pose proof (pow2_pos (ulp_exp32 x)) as Hp.
  destruct (rne_scaled_upper x Hx) as [H0 _].
  apply Qmult_le_0_compat; [| lra].
  change 0 with (inject_Z 0). rewrite <- Zle_Qle. exact H0.
Qed.

(** Rounding moves a number by at most half a unit in the last place. *)
Lemma round_magnitude_error (x : Q) :
  0 < x ->
  x - (1 # 2) * 2 ^ ulp_exp32 x <= round_magnitude x /\
  round_magnitude x <= x + (1 # 2) * 2 ^ ulp_exp32 x.
Proof.
  intros Hx. unfold round_magnitude.
  pose proof (pow2_pos (ulp_exp32 x)) as Hp.
  destruct (rne_error (x / 2 ^ ulp_exp32 x)) as [Hlo Hhi].
  pose proof (scaled_identity x (ulp_exp32 x)) as Hs.
  generalize dependent (inject_Z (rne (x / 2 ^ ulp_exp32 x))).
  generalize dependent (x / 2 ^ ulp_exp32 x).
  generalize dependent (2 ^ ulp_exp32 x).
  intros p Hp s Hs m Hlo Hhi. split; nra.
Qed.

Lemma round_magnitude_mono (x y : Q) :
  0 < x -> x <= y -> round_magnitude x <= round_magnitude y.
Proof.
  intros Hx Hxy. assert (Hy : 0 < y) by lra. unfold round_magnitude.
  pose proof (ulp_exp32_mono x y Hx Hxy) as He.
  pose proof (pow2_pos (ulp_exp32 x)) as Hpx.
  pose proof (pow2_pos (ulp_exp32 y)) as Hpy.
  destruct (Z.eq_dec (ulp_exp32 x) (ulp_exp32 y)) as [Ee | Ee].
  - rewrite <- Ee in *. apply Qmult_le_compat_r; [| lra].
    rewrite <- Zle_Qle. apply rne_mono.
    apply Qmult_le_compat_r; [exact Hxy |].
    apply Qlt_le_weak, Qinv_lt_0_compat, Hpx.
  - destruct (rne_scaled_upper x Hx) as [_ Hmx].
    assert (Hny : (-126 <= ilog2 y)%Z).
    { rewrite (ulp_exp32_pos y Hy) in He, Ee.
      rewrite (ulp_exp32_pos x Hx) in He, Ee. lia. }
    pose proof (rne_scaled_lower y Hy Hny) as Hmy.
    rewrite Zle_Qle in Hmx, Hmy.
    rewrite pow2_inject in Hmx, Hmy by lia.
    pose proof (pow2_le (ulp_exp32 x + 1) (ulp_exp32 y)) as Hp.
    lapply Hp; [| lia]. rewrite pow2_succ. intros Hp'.
    change (2 ^ 24) with (2 * 2 ^ 23) in Hmx.
    set (mx := inject_Z (rne (x / 2 ^ ulp_exp32 x))) in *.
    set (my := inject_Z (rne (y / 2 ^ ulp_exp32 y))) in *.
    assert (H23 : 0 < 2 ^ 23) by reflexivity.
    apply Qle_trans with (2 * 2 ^ 23 * 2 ^ ulp_exp32 x); [nra |].
    apply Qle_trans with (2 ^ 23 * 2 ^ ulp_exp32 y); nra.
Qed.

(** Rounding is monotone on the non-negative numbers, and an infinity is
    above every number. *)
Lemma round32_mono (x y ry : Q) :
  0 <= x -> x <= y -> round32 y = Some ry ->
  exists rx, round32 x = Some rx /\ 0 <= rx /\ rx <= ry.
Proof.
  intros Hx Hxy Hy. destruct (Qeq_dec x 0) as [E | E].
  - exists 0. split; [apply round32_zero, E |]. split; [lra |].
    destruct (Qeq_dec y 0) as [Ey | Ey].
    + rewrite (round32_zero y Ey) in Hy. injection Hy as <-. lra.
    + assert (Hy0 : 0 < y) by lra. rewrite (round32_pos y Hy0) in Hy.
      destruct (Qle_bool (2 ^ 128) (round_magnitude y)); [discriminate |].
      injection Hy as <-. apply round_magnitude_nonneg, Hy0.
  - assert (Hx0 : 0 < x) by lra. assert (Hy0 : 0 < y) by lra.
    rewrite (round32_pos y Hy0) in Hy. rewrite (round32_pos x Hx0).
    pose proof (round_magnitude_mono x y Hx0 Hxy) as Hm.
    destruct (Qle_bool (2 ^ 128) (round_magnitude y)) eqn:Hoy; [discriminate |].
    injection Hy as <-.
    destruct (Qle_bool (2 ^ 128) (round_magnitude x)) eqn:Hox.
    + apply Qle_bool_iff in Hox.
      assert (Hc : Qle_bool (2 ^ 128) (round_magnitude y) = true)
        by (apply Qle_bool_iff; lra).
      congruence.
    + exists (round_magnitude x). split; [reflexivity |].
      split; [apply round_magnitude_nonneg, Hx0 | exact Hm].
Qed.

Lemma round32_nonneg (x r : Q) : 0 <= x -> round32 x = Some r -> 0 <= r.
Proof.
  intros Hx Hr. destruct (round32_mono x x r Hx (Qle_refl x) Hr)
    as (r' & Hr' & H0 & _).
  rewrite Hr in Hr'. injection Hr' as <-. exact H0.
Qed.

(** ** The binary32 numbers *)

Lemma binary32_pos (a : Q) :
  0 < a -> binary32 a ->
  round32 a = Some (round_magnitude a) /\ round_magnitude a == a.
Proof.
  intros Ha. unfold binary32. rewrite (round32_pos a Ha).
  destruct (Qle_bool (2 ^ 128) (round_magnitude a)); [contradiction |].
  intros H. split; [reflexivity | exact H].
Qed.

(** Two binary32 numbers differ by at least one unit in the last place of
    the smaller. *)
Lemma float_gap (a b : Q) :
  0 < a -> a < b -> binary32 a -> binary32 b ->
  a + 2 ^ ulp_exp32 a <= b.
Proof.
  intros Ha Hab Fa Fb. assert (Hb : 0 < b) by lra.
  destruct (binary32_pos a Ha Fa) as [_ Ea].
  destruct (binary32_pos b Hb Fb) as [_ Eb].
  unfold round_magnitude in Ea, Eb.
  pose proof (ulp_exp32_mono a b Ha (Qlt_le_weak _ _ Hab)) as He.
  set (ea := ulp_exp32 a) in *. set (eb := ulp_exp32 b) in *.
  set (na := rne (a / 2 ^ ea)) in *. set (nb := rne (b / 2 ^ eb)) in *.
  assert (Ek : 2 ^ eb == inject_Z (2 ^ (eb - ea)) * 2 ^ ea).
  { rewrite pow2_inject by lia. rewrite <- pow2_plus.
    replace (eb - ea + ea)%Z with eb by lia. reflexivity. }
  assert (Eb' : inject_Z (nb * 2 ^ (eb - ea)) * 2 ^ ea == b).
  { rewrite inject_Z_mult, <- Eb, Ek. ring. }
  pose proof (pow2_pos ea) as Hp.
  assert (Hlt : inject_Z na < inject_Z (nb * 2 ^ (eb - ea))).
  { remember (inject_Z (nb * 2 ^ (eb - ea))) as y.
    remember (inject_Z na) as x. remember (2 ^ ea) as g.
    clear - Ea Eb' Hab Hp. nra. }
  rewrite <- Zlt_Qlt in Hlt.
  assert (Hle : inject_Z (na + 1) <= inject_Z (nb * 2 ^ (eb - ea))).
  { rewrite <- Zle_Qle. lia. }
  rewrite inject_Z_plus in Hle. change (inject_Z 1) with 1 in Hle.
  remember (inject_Z (nb * 2 ^ (eb - ea))) as y.
  remember (inject_Z na) as x. remember (2 ^ ea) as g.
  clear - Ea Eb' Hle Hp. nra.
Qed.

(** For a binary32 number [a] that is not tiny, the rounded square of any
    number a unit in the last place above [a] exceeds the square of [a] by
    the square of that unit. *)
Lemma gap_square (a c p : Q) :
  2 ^ (-63) <= a -> binary32 a ->
  a + 2 ^ ulp_exp32 a <= c -> round32 (c * c) = Some p ->
  a * a + 2 ^ ulp_exp32 a * 2 ^ ulp_exp32 a <= p /\
  a < 2 ^ 24 * 2 ^ ulp_exp32 a.
Proof.
  intros Hmin Fa Hc Hp.
  assert (Ha : 0 < a).
  { pose proof (pow2_pos (-63)). lra. }
  pose proof (ilog2_lower a (-63) Ha Hmin) as Hlog.
  destruct (significand_lower32 a Ha) as [Ee Hlo]; [lia |].
  pose proof (significand_upper32 a Ha) as Hup.
  destruct (binary32_pos a Ha Fa) as [_ Ea]. unfold round_magnitude in Ea.
  set (e := ulp_exp32 a) in *. set (n := rne (a / 2 ^ e)) in *.
  pose proof (pow2_pos e) as Hg.
  split; [| exact Hup].
  assert (E24 : 2 ^ 24 == 16777216) by reflexivity.
  assert (E23 : 2 ^ 23 == 8388608) by reflexivity.
  rewrite E23 in Hlo. rewrite E24 in Hup.
  assert (Hn : inject_Z n < inject_Z 16777216).
  { change (inject_Z 16777216) with 16777216.
    remember (inject_Z n) as x. remember (2 ^ e) as g.
    clear - Ea Hup Hg. nra. }
  rewrite <- Zlt_Qlt in Hn.
  assert (Hn1 : inject_Z (n + 1) <= inject_Z 16777216)
    by (rewrite <- Zle_Qle; lia).
  rewrite inject_Z_plus in Hn1. change (inject_Z 1) with 1 in Hn1.
  change (inject_Z 16777216) with 16777216 in Hn1.
  assert (Hc0 : a + 2 ^ e <= 16777216 * 2 ^ e).
  { remember (inject_Z n) as x. remember (2 ^ e) as g.
    clear - Ea Hn1 Hg. nra. }
  assert (Hc0pos : 0 < a + 2 ^ e) by lra.
  assert (Hsq : (a + 2 ^ e) * (a + 2 ^ e) <= c * c) by nra.
  assert (Hsq0 : 0 < (a + 2 ^ e) * (a + 2 ^ e)) by nra.
  destruct (round32_mono _ _ p (Qlt_le_weak _ _ Hsq0) Hsq Hp)
    as (p0 & Hp0 & _ & Hp0p).
  rewrite (round32_pos _ Hsq0) in Hp0.
  destruct (Qle_bool (2 ^ 128)
              (round_magnitude ((a + 2 ^ e) * (a + 2 ^ e)))); [discriminate |].
  injection Hp0 as <-.
  destruct (round_magnitude_error _ Hsq0) as [Herr _].
  assert (Hpow : forall k, 2 ^ (k + (e + e)) == 2 ^ k * (2 ^ e * 2 ^ e)).
  { intros k. rewrite !pow2_plus. reflexivity. }
  assert (Hsqup : (a + 2 ^ e) * (a + 2 ^ e) < 2 ^ (48 + (e + e) + 1)).
  { rewrite pow2_succ, Hpow.
    assert (E48 : 2 ^ 48 == 281474976710656) by reflexivity. rewrite E48.
    remember (2 ^ e) as g. clear - Hc0 Hc0pos Hg. nra. }
  pose proof (ilog2_upper _ _ Hsq0 Hsqup) as Hlogsq.
  assert (Heps : (ulp_exp32 ((a + 2 ^ e) * (a + 2 ^ e)) <= 25 + (e + e))%Z).
  { rewrite (ulp_exp32_pos _ Hsq0). lia. }
  pose proof (pow2_le _ _ Heps) as Hulp. rewrite Hpow in Hulp.
  assert (E25 : 2 ^ 25 == 33554432) by reflexivity. rewrite E25 in Hulp.
  remember (round_magnitude ((a + 2 ^ e) * (a + 2 ^ e))) as r.
  remember (2 ^ ulp_exp32 ((a + 2 ^ e) * (a + 2 ^ e))) as u.
  remember (2 ^ e) as g.
  clear - Hlo Hg Ha Hulp Herr Hp0p. nra.
Qed.

(** ** The relative error of rounding *)









End Binary32.

(** * [MESH_OT_MergeVertexNormals] *)

Module Merge.

(** ** The mesh *)

(** A coordinate and the merge distance are the rationals that the floats
    denote; the arithmetic on them rounds as [mathutils] and Python do. *)
Record Point := { px : Q; py : Q; pz : Q }.

Record Vert := {
  (** [v.co] *)
  co : Point;
  (** [v.select] *)
  select : bool;
  (** [loop.index] of the loops of [v.link_loops] *)
  link_loops : list nat
}.

Record BMesh := { verts : list Vert }.

(** An element of [bm.verts]: a vertex with its position in the sequence,
    which is its identity in sets and lists. *)
Definition BMVert : Type := nat * Vert.

Definition bm_verts (bm : BMesh) : list BMVert := imap pair (verts bm).

#[export] Instance Qle_decision (x y : Q) : Decision (x <= y)%Q.
Proof.
  destruct (Qlt_le_dec y x) as [H | H].
  - right. apply Qlt_not_le, H.
  - left. exact H.
Defined.

(** ** The distance test (lines 666 and 710) *)

(** One component of [w - v], a subtraction of C [float]s, multiplied by
    itself, a product of C [float]s; [None] is an infinity. *)
Definition axis_square (a b : Q) : option Q :=
  d ← Binary32.round32 (a - b);
  Binary32.round32 (d * d).

(** [(w - v).length_squared]: [dot_vn_vn] of the difference with itself,
    which adds the three [float] products to a [double], from the last
    component to the first; [None] is an infinity. *)
Definition length_squared (w v : Point) : option Q :=
  xx ← axis_square (px w) (px v);
  yy ← axis_square (py w) (py v);
  zz ← axis_square (pz w) (pz v);
  Some (Binary64.round64
          (Binary64.round64 (Binary64.round64 (0 + zz) + yy) + xx)).

(** [merge_distance_squared = self.distance ** 2], on Python floats. *)
Definition merge_distance_squared (distance : Q) : Q :=
  Binary64.round64 (distance * distance).

(** The test of line 710; an infinity is above every number. *)
Definition within_distance (distance : Q) (w v : Point) : Prop :=
  match length_squared w v with
  | Some s => (s <= merge_distance_squared distance)%Q
  | None => False
  end.

#[export] Instance within_distance_dec (distance : Q) (w v : Point) :
  Decision (within_distance distance w v).
Proof. unfold within_distance. destruct (length_squared w v); apply _. Defined.

(** The values the property [distance] can hold (lines 626-631): a
    [FloatProperty] stores a C [float], and its minimum is the binary32
    number nearest to 0.0001, which is 13743895 / 2^37. *)
Definition min_distance : Q := 13743895 # 137438953472.

Definition distance_value (distance : Q) : Prop :=
  Binary32.binary32 distance /\ (min_distance <= distance)%Q.

(** The squared distance of the geometry, which the specification calls the
    true squared distance. *)
Definition true_length_squared (w v : Point) : Q :=
  ((px w - px v) * (px w - px v) + (py w - py v) * (py w - py v)
   + (pz w - pz v) * (pz w - pz v))%Q.

(** ** The grid (lines 666-684) *)

Definition Cell : Type := Z * Z * Z.

(** [(int(v.co.x // distance), int(v.co.y // distance), int(v.co.z // distance))] *)
Definition cell_of (distance : Q) (p : Point) : Cell :=
  (Qfloor (px p / distance), Qfloor (py p / distance), Qfloor (pz p / distance)).

(** The dictionary [cells[x][y][z]] of lists, as one map keyed by
    [(x, y, z)]: the inner dictionaries are created together with the list,
    so the three membership tests of the query succeed exactly on the keys
    of this map. *)
Definition cells_append (distance : Q) (cells : gmap Cell (list BMVert))
    (v : BMVert) : gmap Cell (list BMVert) :=
  let c := cell_of distance (co v.2) in
  <[c := default [] (cells !! c) ++ [v]]> cells.

Definition build_cells (distance : Q) (indexed : list BMVert)
  : gmap Cell (list BMVert) :=
  foldl (cells_append distance) ∅ indexed.

(** ** The query (lines 697-711) *)

Definition neighbourhood (c : Cell) : list Cell :=
  let '(x, y, z) := c in
  i ← [x - 1; x; x + 1]%Z;
  j ← [y - 1; y; y + 1]%Z;
  k ← [z - 1; z; z + 1]%Z;
  [(i, j, k)].

Definition nearby_verts (cells : gmap Cell (list BMVert)) (c : Cell)
  : list BMVert :=
  c' ← neighbourhood c; default [] (cells !! c').

Definition mergeable_verts (distance : Q) (cells : gmap Cell (list BMVert))
    (v_curr : BMVert) : list BMVert :=
  filter (fun v => within_distance distance (co v.2) (co v_curr.2))
    (nearby_verts cells (cell_of distance (co v_curr.2))).

(** ** Properties of the grid *)

Lemma build_cells_from (distance : Q) (cells : gmap Cell (list BMVert))
    (indexed : list BMVert) (c : Cell) :
  default [] (foldl (cells_append distance) cells indexed !! c)
  = default [] (cells !! c)
    ++ filter (fun w => cell_of distance (co w.2) = c) indexed.
Proof.
  revert cells. induction indexed as [| v l IH]; intros cells; simpl.
  - rewrite app_nil_r. reflexivity.
  - rewrite IH. unfold cells_append at 1.
    destruct (decide (cell_of distance (co v.2) = c)) as [Hc | Hc].
    + rewrite filter_cons_True by exact Hc. rewrite Hc, lookup_insert_eq.
      simpl. rewrite <- app_assoc. reflexivity.
    + rewrite filter_cons_False by exact Hc.
      rewrite lookup_insert_ne by exact Hc. reflexivity.
Qed.

(** The list of a cell holds the indexed vertices of that cell, in the order
    they were indexed. *)
Lemma build_cells_lookup (distance : Q) (indexed : list BMVert) (c : Cell) :
  default [] (build_cells distance indexed !! c)
  = filter (fun w => cell_of distance (co w.2) = c) indexed.
Proof. unfold build_cells. rewrite build_cells_from, lookup_empty. reflexivity. Qed.

Lemma elem_of_neighbourhood (c c' : Cell) :
  c' ∈ neighbourhood c <->
  (c.1.1 - 1 <= c'.1.1 <= c.1.1 + 1)%Z /\
  (c.1.2 - 1 <= c'.1.2 <= c.1.2 + 1)%Z /\
  (c.2 - 1 <= c'.2 <= c.2 + 1)%Z.
Proof.
  destruct c as [[x y] z], c' as [[x' y'] z']. unfold neighbourhood. simpl.
  split.
  - intros H. rewrite !elem_of_cons, elem_of_nil in H.
    repeat (destruct H as [H | H]; [injection H as -> -> ->; lia |]).
    contradiction.
  - intros (Hx & Hy & Hz).
    assert (Ex : x' = (x - 1)%Z \/ x' = x \/ x' = (x + 1)%Z) by lia.
    assert (Ey : y' = (y - 1)%Z \/ y' = y \/ y' = (y + 1)%Z) by lia.
    assert (Ez : z' = (z - 1)%Z \/ z' = z \/ z' = (z + 1)%Z) by lia.
    destruct Ex as [-> | [-> | ->]], Ey as [-> | [-> | ->]],
      Ez as [-> | [-> | ->]];
      repeat first [apply list_elem_of_here | apply list_elem_of_further].
Qed.

Lemma elem_of_nearby_verts (distance : Q) (indexed : list BMVert) (c : Cell)
    (w : BMVert) :
  w ∈ nearby_verts (build_cells distance indexed) c <->
  w ∈ indexed /\ cell_of distance (co w.2) ∈ neighbourhood c.
Proof.
  unfold nearby_verts. rewrite list_elem_of_bind. split.
  - intros [c' [Hw Hc']]. rewrite build_cells_lookup in Hw.
    apply list_elem_of_filter in Hw as [-> Hw]. split; assumption.
  - intros [Hw Hc]. exists (cell_of distance (co w.2)). split; [| exact Hc].
    rewrite build_cells_lookup. apply list_elem_of_filter. split; [reflexivity | exact Hw].
Qed.

Lemma Qfloor_succ (q : Q) : Qfloor (q + 1) = (Qfloor q + 1)%Z.
Proof.
  pose proof (Qfloor_le q) as Ha. pose proof (Qlt_floor q) as Hb.
  pose proof (Qfloor_le (q + 1)) as Hc. pose proof (Qlt_floor (q + 1)) as He.
  rewrite inject_Z_plus in Hb, He. change (inject_Z 1) with 1%Q in Hb, He.
  generalize dependent (Qfloor (q + 1)). generalize dependent (Qfloor q).
  intros f Ha Hb g Hc He.
  assert (Hlo : (inject_Z f < inject_Z g)%Q) by lra.
  assert (Hhi : (inject_Z g < inject_Z (f + 2))%Q).
  { rewrite inject_Z_plus. change (inject_Z 2) with 2%Q. lra. }
  rewrite <- Zlt_Qlt in Hlo. rewrite <- Zlt_Qlt in Hhi. lia.
Qed.

(** Two numbers at most [d] apart fall in the same or in adjacent intervals
    of length [d]. *)
Lemma floor_near (d a b : Q) :
  (0 < d)%Q -> ((a - b) * (a - b) <= d * d)%Q ->
  (Qfloor (b / d) - 1 <= Qfloor (a / d) <= Qfloor (b / d) + 1)%Z.
Proof.
  intros Hd Hab.
  assert (H1 : (a <= b + d)%Q) by nra.
  assert (H2 : (b <= a + d)%Q) by nra.
  assert (Hdiv : forall u v : Q, (u <= v + d)%Q -> (Qfloor (u / d) <= Qfloor (v / d) + 1)%Z).
  { intros u v Huv.
    assert (Hle : (u / d <= v / d + 1)%Q).
    { assert (E : (v / d + 1 == (v + d) / d)%Q) by (field; lra).
      rewrite E. unfold Qdiv. apply Qmult_le_compat_r; [exact Huv |].
      apply Qlt_le_weak, Qinv_lt_0_compat, Hd. }
    pose proof (Qfloor_resp_le _ _ Hle) as Hf.
    rewrite Qfloor_succ in Hf.
    lia. }
  pose proof (Hdiv a b H1). pose proof (Hdiv b a H2). lia.
Qed.


(** ** Properties of the distance test *)

Section DistanceTest.

Import Binary64 Binary32.

Local Open Scope Q_scope.

Lemma axis_square_sym (a b : Q) : axis_square a b = axis_square b a.
Proof.
  unfold axis_square.
  destruct (Q_dec (a - b) 0) as [[Hlt | Hgt] | Heq].
  - rewrite (round32_neg (a - b) Hlt).
    rewrite (round32_pos (b - a)) by lra.
    rewrite (round_magnitude_comp (- (a - b)) (b - a)); [| lra | ring].
    destruct (Qle_bool (2 ^ 128) (round_magnitude (b - a))); [reflexivity |].
    cbn [mbind option_bind]. apply round32_comp. ring.
  - rewrite (round32_pos (a - b) Hgt).
    rewrite (round32_neg (b - a)) by lra.
    rewrite (round_magnitude_comp (- (b - a)) (a - b)); [| lra | ring].
    destruct (Qle_bool (2 ^ 128) (round_magnitude (a - b))); [reflexivity |].
    cbn [mbind option_bind]. apply round32_comp. ring.
  - rewrite (round32_zero (a - b) Heq).
    rewrite (round32_zero (b - a)) by lra. reflexivity.
Qed.

(** The computed squared length of [w - v] is that of [v - w]. *)
Lemma length_squared_sym (w v : Point) :
  length_squared w v = length_squared v w.
Proof.
  unfold length_squared.
  rewrite (axis_square_sym (px w)), (axis_square_sym (py w)),
    (axis_square_sym (pz w)).
  reflexivity.
Qed.





Lemma within_distance_sym (d : Q) (w v : Point) :
  within_distance d w v -> within_distance d v w.
Proof. unfold within_distance. rewrite length_squared_sym. trivial. Qed.

Lemma within_distance_mono (d d' : Q) (w v : Point) :
  0 <= d -> d <= d' -> within_distance d w v -> within_distance d' w v.
Proof.
  intros Hd Hdd'. unfold within_distance, merge_distance_squared.
  destruct (length_squared w v) as [s |]; [| trivial].
  intros Hs. apply (Qle_trans _ _ _ Hs). apply round64_mono; nra.
Qed.

Lemma axis_square_nonneg (a b p : Q) : axis_square a b = Some p -> 0 <= p.
Proof.
  unfold axis_square. destruct (round32 (a - b)) as [d |]; [| discriminate].
  cbn [mbind option_bind]. apply round32_nonneg. nra.
Qed.

(** The sum in double precision is within three roundings of the sum of
    the three products. *)
Lemma length_squared_axes (w v : Point) (s : Q) :
  length_squared w v = Some s ->
  exists xx yy zz,
    axis_square (px w) (px v) = Some xx /\
    axis_square (py w) (py v) = Some yy /\
    axis_square (pz w) (pz v) = Some zz /\
    0 <= xx /\ 0 <= yy /\ 0 <= zz /\
    (xx + yy + zz)
    * ((1 - unit_roundoff) * (1 - unit_roundoff) * (1 - unit_roundoff)) <= s /\
    s <= (xx + yy + zz)
         * ((1 + unit_roundoff) * (1 + unit_roundoff) * (1 + unit_roundoff)).
Proof.
  unfold length_squared.
  destruct (axis_square (px w) (px v)) as [xx |] eqn:Hx; [| discriminate].
  destruct (axis_square (py w) (py v)) as [yy |] eqn:Hy; [| discriminate].
  destruct (axis_square (pz w) (pz v)) as [zz |] eqn:Hz; [| discriminate].
  cbn [mbind option_bind]. intros [= <-].
  pose proof (axis_square_nonneg _ _ _ Hx) as Hx0.
  pose proof (axis_square_nonneg _ _ _ Hy) as Hy0.
  pose proof (axis_square_nonneg _ _ _ Hz) as Hz0.
  exists xx, yy, zz. repeat (split; [first [reflexivity | assumption] |]).
  assert (H1 : 0 <= 0 + zz) by lra.
  destruct (round64_error _ H1) as [A1 A2].
  pose proof (round64_nonneg _ H1) as A0.
  assert (H2 : 0 <= round64 (0 + zz) + yy) by lra.
  destruct (round64_error _ H2) as [B1 B2].
  pose proof (round64_nonneg _ H2) as B0.
  assert (H3 : 0 <= round64 (round64 (0 + zz) + yy) + xx) by lra.
  destruct (round64_error _ H3) as [C1 C2].
  unfold unit_roundoff in *.
  remember (round64 (round64 (round64 (0 + zz) + yy) + xx)) as s.
  remember (round64 (round64 (0 + zz) + yy)) as b.
  remember (round64 (0 + zz)) as a.
  clear - Hx0 Hy0 Hz0 A1 A2 A0 B1 B2 B0 C1 C2. split; lra.
Qed.

(** A component at least a binary32 number [d' > d] apart gives a product
    above the square of [d]. *)
Lemma axis_far (d d' a b p : Q) :
  2 ^ (-63) <= d -> binary32 d -> binary32 d' -> d < d' ->
  d' <= Qabs (a - b) -> axis_square a b = Some p ->
  d * d + 2 ^ ulp_exp32 d * 2 ^ ulp_exp32 d <= p /\
  d < 2 ^ 24 * 2 ^ ulp_exp32 d.
Proof.
  intros Hmin Fd Fd' Hdd' Hfar Hp.
  assert (Hd : 0 < d) by (pose proof (pow2_pos (-63)); lra).
  assert (Hd' : 0 < d') by lra.
  pose proof (float_gap d d' Hd Hdd' Fd Fd') as Hgap.
  destruct (binary32_pos d' Hd' Fd') as [_ E'].
  assert (Hr : exists r, d' <= r /\ round32 (r * r) = Some p).
  { unfold axis_square in Hp.
    destruct (Q_dec (a - b) 0) as [[Hlt | Hgt] | Heq].
    - rewrite (round32_neg _ Hlt) in Hp.
      destruct (Qle_bool (2 ^ 128) (round_magnitude (- (a - b))));
        [discriminate |].
      cbn [mbind option_bind] in Hp.
      exists (round_magnitude (- (a - b))). split.
      + rewrite <- E'. apply round_magnitude_mono; [exact Hd' |].
        rewrite Qabs_neg in Hfar by lra. exact Hfar.
      + rewrite <- Hp. apply round32_comp. ring.
    - rewrite (round32_pos _ Hgt) in Hp.
      destruct (Qle_bool (2 ^ 128) (round_magnitude (a - b)));
        [discriminate |].
      cbn [mbind option_bind] in Hp.
      exists (round_magnitude (a - b)). split; [| exact Hp].
      rewrite <- E'. apply round_magnitude_mono; [exact Hd' |].
      rewrite Qabs_pos in Hfar by lra. exact Hfar.
    - rewrite Heq in Hfar. change (Qabs 0) with 0 in Hfar. lra. }
  destruct Hr as (r & Hr1 & Hr2).
  apply (gap_square d r p Hmin Fd); [lra | exact Hr2].
Qed.

(** A vertex that is at least a larger binary32 distance away along one
    axis fails the test. *)
Lemma far_axis_fails (d d' : Q) (w v : Point) :
  2 ^ (-63) <= d -> binary32 d -> binary32 d' -> d < d' ->
  d' <= Qabs (px w - px v) \/ d' <= Qabs (py w - py v)
  \/ d' <= Qabs (pz w - pz v) ->
  ~ within_distance d w v.
Proof.
  intros Hmin Fd Fd' Hdd' Hfar. unfold within_distance, merge_distance_squared.
  destruct (length_squared w v) as [s |] eqn:Hs; [| tauto].
  destruct (length_squared_axes w v s Hs)
    as (xx & yy & zz & Hx & Hy & Hz & Hx0 & Hy0 & Hz0 & Hlo & _).
  assert (Hd : 0 < d) by (pose proof (pow2_pos (-63)); lra).
  assert (Hsq : 0 <= d * d) by nra.
  destruct (round64_error _ Hsq) as [_ HD].
  pose proof (pow2_pos (ulp_exp32 d)) as Hg.
  assert (E24 : 2 ^ 24 == 16777216) by reflexivity.
  intros Htest.
  assert (Hone : exists p, d * d + 2 ^ ulp_exp32 d * 2 ^ ulp_exp32 d <= p /\
                           p <= xx + yy + zz /\
                           d < 2 ^ 24 * 2 ^ ulp_exp32 d).
  { destruct Hfar as [H | [H | H]].
    - destruct (axis_far d d' _ _ xx Hmin Fd Fd' Hdd' H Hx) as [H1 H2].
      exists xx. split; [exact H1 |]. split; [lra | exact H2].
    - destruct (axis_far d d' _ _ yy Hmin Fd Fd' Hdd' H Hy) as [H1 H2].
      exists yy. split; [exact H1 |]. split; [lra | exact H2].
    - destruct (axis_far d d' _ _ zz Hmin Fd Fd' Hdd' H Hz) as [H1 H2].
      exists zz. split; [exact H1 |]. split; [lra | exact H2]. }
  destruct Hone as (p & Hp1 & Hp2 & Hup). rewrite E24 in Hup.
  assert (Hup2 : d * d <= 281474976710656 * (2 ^ ulp_exp32 d * 2 ^ ulp_exp32 d)).
  { remember (2 ^ ulp_exp32 d) as g. clear - Hup Hd Hg. nra. }
  assert (Hg2 : 0 < 2 ^ ulp_exp32 d * 2 ^ ulp_exp32 d) by nra.
  unfold unit_roundoff in *.
  remember (2 ^ ulp_exp32 d * 2 ^ ulp_exp32 d) as G.
  remember (d * d) as X. remember (round64 X) as D.
  clear - Hp1 Hp2 Hup2 Hg2 Hlo HD Htest Hx0 Hy0 Hz0. lra.
Qed.








End DistanceTest.

(** ** Properties of the grid *)

(** Two numbers in intervals of length [d] that are not the same or
    adjacent are more than [d] apart. *)
Lemma floor_far (d a b : Q) :
  (0 < d)%Q ->
  ~ (Qfloor (b / d) - 1 <= Qfloor (a / d) <= Qfloor (b / d) + 1)%Z ->
  (d < Qabs (a - b))%Q.
Proof.
  intros Hd Hn. destruct (Qlt_le_dec d (Qabs (a - b))) as [H | H]; [exact H |].
  exfalso. apply Hn, floor_near; [exact Hd |].
  apply Qabs_Qle_condition in H. nra.
Qed.

Lemma cell_of_comp (d d' : Q) (p : Point) :
  (d == d')%Q -> cell_of d p = cell_of d' p.
Proof.
  intros E. unfold cell_of.
  rewrite (Qfloor_comp (px p / d) (px p / d')) by (rewrite E; reflexivity).
  rewrite (Qfloor_comp (py p / d) (py p / d')) by (rewrite E; reflexivity).
  rewrite (Qfloor_comp (pz p / d) (pz p / d')) by (rewrite E; reflexivity).
  reflexivity.
Qed.

Lemma min_distance_not_tiny : (2 ^ (-63) <= min_distance)%Q.
Proof. vm_compute. discriminate. Qed.

(** The query returns the indexed vertices of the 27 cells around the cell
    of the seed that pass the test. *)
Lemma elem_of_mergeable_verts (distance : Q) (indexed : list BMVert)
    (v_curr w : BMVert) :
  w ∈ mergeable_verts distance (build_cells distance indexed) v_curr <->
  w ∈ indexed /\
  cell_of distance (co w.2) ∈ neighbourhood (cell_of distance (co v_curr.2)) /\
  within_distance distance (co w.2) (co v_curr.2).
Proof.
  unfold mergeable_verts.
  rewrite list_elem_of_filter, elem_of_nearby_verts. tauto.
Qed.

(** A vertex that passes the test for a distance and lies in a cell around
    the seed does so on the grid of every larger distance. *)
Lemma adjacent_larger (d d' : Q) (w v : Point) :
  distance_value d -> distance_value d' -> (d <= d')%Q ->
  cell_of d w ∈ neighbourhood (cell_of d v) ->
  within_distance d w v ->
  cell_of d' w ∈ neighbourhood (cell_of d' v).
Proof.
  intros [Fd Hmin] [Fd' Hmin'] Hdd' Hcell Htest.
  pose proof min_distance_not_tiny as Htiny.
  assert (Hd : (0 < d)%Q) by (pose proof (Binary64.pow2_pos (-63)); lra).
  assert (Hd' : (0 < d')%Q) by lra.
  destruct (Qeq_dec d d') as [E | E].
  - rewrite <- !(cell_of_comp d d' _ E). exact Hcell.
  - assert (Hlt : (d < d')%Q) by lra.
    assert (Hnear : forall a b : Q,
              (Qfloor (b / d') - 1 <= Qfloor (a / d') <= Qfloor (b / d') + 1)%Z
              \/ (d' <= Qabs (a - b))%Q).
    { intros a b.
      destruct (decide ((Qfloor (b / d') - 1 <= Qfloor (a / d')
                         <= Qfloor (b / d') + 1)%Z)) as [H | H];
        [left; exact H | right].
      apply Qlt_le_weak, floor_far; assumption. }
    apply elem_of_neighbourhood. unfold cell_of. cbn [fst snd].
    destruct (Hnear (px w) (px v)) as [Hx | Hx].
    2: { exfalso. apply (far_axis_fails d d' w v); auto. lra. }
    destruct (Hnear (py w) (py v)) as [Hy | Hy].
    2: { exfalso. apply (far_axis_fails d d' w v); auto. lra. }
    destruct (Hnear (pz w) (pz v)) as [Hz | Hz].
    2: { exfalso. apply (far_axis_fails d d' w v); auto. lra. }
    repeat split; lia.
Qed.








(** C9 (as amended): around a fixed seed, a larger merge distance never
    loses a vertex: every vertex the query returns at distance [d] is
    returned at every distance [d' >= d], on the grid built for [d'].  The
    distances are values of the property [distance]: binary32 numbers not
    below its minimum. *)
Theorem cluster_of_seed_monotone (d d' : Q) (indexed : list BMVert)
    (v_curr w : BMVert) :
  (0 < d)%Q -> (d <= d')%Q ->
  distance_value d -> distance_value d' ->
  w ∈ mergeable_verts d (build_cells d indexed) v_curr ->
  w ∈ mergeable_verts d' (build_cells d' indexed) v_curr.
Proof.
  intros Hd Hdd' Vd Vd'. rewrite !elem_of_mergeable_verts.
  intros (Hw & Hcell & Htest). split; [exact Hw |]. split.
  - apply (adjacent_larger d d'); assumption.
  - apply (within_distance_mono d d'); [lra | exact Hdd' | exact Htest].
Qed.

Section MergeLoop.

Context {M : Mathutils}.

(** What [execute] takes from its surroundings. *)
Class Environment := {
  (** [utils.loop_space_transform(loop, v)] (inverse is [False]), by the
      index of the loop *)
  loop_space_transform : nat -> Vector -> Vector;
  (** [types.VertexNormalWeight.UNWEIGHTED.value] *)
  unweighted_value : Z;
  (** The hash order of a set of vertices: given the identities of its
      elements in iteration order, the position of the one [pop] returns
      (taken modulo the size). *)
  pick : list nat -> nat
}.

Context {E : Environment}.

(** ** The custom data layers *)

(** The layers [vertex-normal-weight] (by vertex) and [loop-normal-x],
    [-y], [-z] (by loop, the three floats as one vector). *)
Record Layers := {
  vertex_normal_weight : gmap nat Z;
  loop_normal : gmap nat Vector
}.

(** ** One iteration of the loop (lines 691-736) *)

(** [len(set(...))]: the number of tuples that are pairwise different. *)
Definition distinct (vs : list Vector) : list Vector :=
  foldl (fun seen v => if existsb (vec_eqb v) seen then seen else seen ++ [v])
    [] vs.

(** [loop_normals] is the array read once by
    [mesh.loops.foreach_get('normal', loop_normals)]; it is taken per loop,
    entry [i] standing for the floats at [3 i], [3 i + 1] and [3 i + 2]. *)
Definition normal_count (loop_normals : nat -> Vector) (v : BMVert) : nat :=
  length (distinct (loop_normals <$> link_loops v.2)).

(** [vn] of one vertex: the normalized sum of the normals of its loops. *)
Definition vertex_normal (loop_normals : nat -> Vector) (v : BMVert) : Vector :=
  normalize (foldl (fun vn loop => vadd vn (loop_normals loop)) vzero
               (link_loops v.2)).

(** [vn_local]: the normalized sum of the vertex normals of the cluster. *)
Definition merged_normal (loop_normals : nat -> Vector)
    (mergeable : list BMVert) : Vector :=
  normalize (foldl (fun vn_local v => vadd vn_local (vertex_normal loop_normals v))
               vzero mergeable).

(** The average as the specification describes it, without the
    accumulators of the code: the normalized sum, over the vertices of a
    cluster, of the normalized sum of the snapshot normals of the corners
    of the vertex. *)
Definition vector_sum (vs : list Vector) : Vector := foldl vadd vzero vs.

Definition snapshot_average (loop_normals : nat -> Vector)
    (vs : list BMVert) : Vector :=
  normalize
    (vector_sum
       ((fun v => normalize (vector_sum (loop_normals <$> link_loops v.2)))
          <$> vs)).

(** The body of [for v in mergeable_verts] at line 727. *)
Definition assign_vertex (vn_local : Vector) (layers : Layers) (v : BMVert)
  : Layers :=
  {| vertex_normal_weight := <[v.1 := unweighted_value]> (vertex_normal_weight layers);
     loop_normal :=
       foldl (fun layer loop => <[loop := loop_space_transform loop vn_local]> layer)
         (loop_normal layers) (link_loops v.2) |}.

Definition assign_cluster (vn_local : Vector) (mergeable : list BMVert)
    (layers : Layers) : Layers :=
  foldl (assign_vertex vn_local) layers mergeable.

(** [selected_verts.pop()] *)
Definition set_pop (s : list BMVert) : option (BMVert * list BMVert) :=
  let i := pick (fst <$> s) mod length s in
  v ← s !! i; Some (v, delete i s).

(** [selected_verts.difference_update(local_selection)] *)
Definition difference_update (s removed : list BMVert) : list BMVert :=
  filter (fun v => v.1 ∉ fst <$> removed) s.

(** What one iteration did. *)
Record Event := {
  seed : BMVert;
  seed_normal_count : nat;
  cluster : list BMVert;
  vn_local : Vector;
  wrote : bool
}.

Definition iteration (distance : Q) (cells : gmap Cell (list BMVert))
    (loop_normals : nat -> Vector) (v_curr : BMVert) : Event :=
  let count := normal_count loop_normals v_curr in
  let mergeable := mergeable_verts distance cells v_curr in
  {| seed := v_curr;
     seed_normal_count := count;
     cluster := mergeable;
     vn_local := merged_normal loop_normals mergeable;
     wrote := bool_decide (1 < count \/ 1 < length mergeable) |}.

Definition apply_event (e : Event) (layers : Layers) : Layers :=
  if wrote e then assign_cluster (vn_local e) (cluster e) layers else layers.

(** ** The loop [while selected_verts] *)

(** The state is the pending set and the layers; the events are recorded in
    the order they happen.  [None] means that [fuel] iterations did not
    empty the set. *)
Fixpoint merge_loop (fuel : nat) (distance : Q)
    (cells : gmap Cell (list BMVert)) (loop_normals : nat -> Vector)
    (selected_verts : list BMVert) (layers : Layers)
  : option (Layers * list Event) :=
  match set_pop selected_verts with
  | None => Some (layers, [])
  | Some (v_curr, rest) =>
      match fuel with
      | 0 => None
      | S fuel' =>
          let e := iteration distance cells loop_normals v_curr in
          let local_selection := filter (fun v => select v.2 = true) (cluster e) in
          '(layers', events) ←
            merge_loop fuel' distance cells loop_normals
              (difference_update rest local_selection) (apply_event e layers);
          Some (layers', e :: events)
      end
  end.

(** The set [selected_verts] of line 670, from the vertices in mesh order. *)
Definition selected (bm : BMesh) : list BMVert :=
  filter (fun v => select v.2 = true) (bm_verts bm).

(** Iterating over a set visits its elements in the order successive
    [pop]s would return them. *)
Fixpoint set_iter (fuel : nat) (s : list BMVert) : list BMVert :=
  match fuel with
  | 0 => []
  | S fuel' =>
      match set_pop s with
      | None => []
      | Some (v, rest) => v :: set_iter fuel' rest
      end
  end.

Definition iteration_order (s : list BMVert) : list BMVert :=
  set_iter (length s) s.

(** [execute] up to the final recomputation: the grid over all vertices or
    over the selected ones, then the loop, with one unit of fuel per
    selected vertex. *)
Definition execute (distance : Q) (unselected : bool) (bm : BMesh)
    (loop_normals : nat -> Vector) (layers : Layers)
  : option (Layers * list Event) :=
  let selected_verts := selected bm in
  let cells :=
    build_cells distance
      (if unselected then bm_verts bm else iteration_order selected_verts) in
  merge_loop (length selected_verts) distance cells loop_normals
    selected_verts layers.

(** ** The pending set *)

Lemma set_pop_None (s : list BMVert) : set_pop s = None <-> s = [].
Proof.
  unfold set_pop. split.
  - intros H. destruct s as [| v s]; [reflexivity | exfalso].
    destruct (lookup_lt_is_Some_2 (v :: s)
                (pick (fst <$> v :: s) mod length (v :: s))) as [w Hw].
    { apply Nat.mod_upper_bound. simpl. lia. }
    rewrite Hw in H. discriminate H.
  - intros ->. reflexivity.
Qed.

(** [pop] returns an element of the set and the set without it. *)
Lemma set_pop_Some (s rest : list BMVert) (v : BMVert) :
  set_pop s = Some (v, rest) -> s ≡ₚ v :: rest /\ length s = S (length rest).
Proof.
  unfold set_pop. set (i := pick (fst <$> s) mod length s).
  destruct (s !! i) as [w |] eqn:Hw; [| discriminate].
  simpl. intros [= <- <-].
  pose proof (delete_Permutation s i w Hw) as Hp. split; [exact Hp |].
  rewrite Hp at 1. reflexivity.
Qed.

Lemma difference_update_sublist (s removed : list BMVert) :
  difference_update s removed `sublist_of` s.
Proof. apply sublist_filter. Qed.

Lemma elem_of_difference_update (s removed : list BMVert) (v : BMVert) :
  v ∈ difference_update s removed <-> v ∈ s /\ v.1 ∉ fst <$> removed.
Proof. unfold difference_update. rewrite list_elem_of_filter. tauto. Qed.

(** ** Termination *)

Lemma merge_loop_empty (fuel : nat) (distance : Q)
    (cells : gmap Cell (list BMVert)) (loop_normals : nat -> Vector)
    (pending : list BMVert) (layers : Layers) :
  set_pop pending = None ->
  merge_loop fuel distance cells loop_normals pending layers
  = Some (layers, []).
Proof. intros H. destruct fuel; simpl; rewrite H; reflexivity. Qed.

Lemma merge_loop_step (fuel : nat) (distance : Q)
    (cells : gmap Cell (list BMVert)) (loop_normals : nat -> Vector)
    (pending rest : list BMVert) (v : BMVert) (layers : Layers) :
  set_pop pending = Some (v, rest) ->
  merge_loop (S fuel) distance cells loop_normals pending layers
  = let e := iteration distance cells loop_normals v in
    r ← merge_loop fuel distance cells loop_normals
          (difference_update rest
             (filter (fun v => select v.2 = true) (cluster e)))
          (apply_event e layers);
    Some (r.1, e :: r.2).
Proof.
  intros H. simpl. rewrite H. simpl.
  destruct (merge_loop fuel distance cells loop_normals _ _) as [[l evs] |];
    reflexivity.
Qed.

Lemma merge_loop_out_of_fuel (distance : Q)
    (cells : gmap Cell (list BMVert)) (loop_normals : nat -> Vector)
    (pending rest : list BMVert) (v : BMVert) (layers : Layers) :
  set_pop pending = Some (v, rest) ->
  merge_loop 0 distance cells loop_normals pending layers = None.
Proof. intros H. simpl. rewrite H. reflexivity. Qed.

(** One unit of fuel per pending vertex is enough. *)
Lemma merge_loop_total (fuel : nat) (distance : Q)
    (cells : gmap Cell (list BMVert)) (loop_normals : nat -> Vector)
    (pending : list BMVert) (layers : Layers) :
  length pending <= fuel ->
  exists result,
    merge_loop fuel distance cells loop_normals pending layers = Some result.
Proof.
  revert pending layers.
  induction fuel as [| fuel IH]; intros pending layers Hlen.
  - destruct pending; [| simpl in Hlen; lia]. exists (layers, []). reflexivity.
  - destruct (set_pop pending) as [[v rest] |] eqn:Hpop.
    2: { exists (layers, []). apply merge_loop_empty, Hpop. }
    rewrite (merge_loop_step _ _ _ _ _ _ _ _ Hpop). cbv zeta.
    apply set_pop_Some in Hpop as [_ Hl].
    set (e := iteration distance cells loop_normals v).
    destruct (IH (difference_update rest
                    (filter (fun v => select v.2 = true) (cluster e)))
                (apply_event e layers)) as [result Hrun].
    { pose proof (sublist_length _ _ (difference_update_sublist rest
                    (filter (fun v => select v.2 = true) (cluster e)))). lia. }
    rewrite Hrun. simpl. eauto.
Qed.

(** ** The trace of a run *)

Section Trace.

Variable distance : Q.
Variable cells : gmap Cell (list BMVert).
Variable loop_normals : nat -> Vector.

(** All vertices in play are elements of one sequence [universe] in which
    the position identifies the vertex. *)
Variable universe : list BMVert.
Hypothesis universe_inj :
  forall v w, v ∈ universe -> w ∈ universe -> v.1 = w.1 -> v = w.
Hypothesis cells_universe :
  forall v w, w ∈ mergeable_verts distance cells v -> w ∈ universe.

Lemma merge_loop_trace (fuel : nat) (pending : list BMVert)
    (layers layers' : Layers) (events : list Event) :
  NoDup pending ->
  (forall v, v ∈ pending -> v ∈ universe /\ select v.2 = true) ->
  merge_loop fuel distance cells loop_normals pending layers
  = Some (layers', events) ->
  length events <= length pending /\
  (forall e, e ∈ events ->
     seed e ∈ pending /\ e = iteration distance cells loop_normals (seed e)) /\
  NoDup (seed <$> events) /\
  (forall v, v ∈ pending ->
     exists e, e ∈ events /\ (v = seed e \/ v ∈ cluster e)) /\
  (forall evs1 e1 evs2 e2,
     events = evs1 ++ e1 :: evs2 -> e2 ∈ evs2 ->
     seed e2 <> seed e1 /\ seed e2 ∉ cluster e1).
Proof.
  revert pending layers layers' events.
  assert (Hempty : forall (pending : list BMVert) (layers layers' : Layers)
                      (events : list Event),
            set_pop pending = None ->
            Some (layers, @nil Event) = Some (layers', events) ->
            length events <= length pending /\
            (forall e, e ∈ events ->
               seed e ∈ pending /\
               e = iteration distance cells loop_normals (seed e)) /\
            NoDup (seed <$> events) /\
            (forall v, v ∈ pending ->
               exists e, e ∈ events /\ (v = seed e \/ v ∈ cluster e)) /\
            (forall evs1 e1 evs2 e2,
               events = evs1 ++ e1 :: evs2 -> e2 ∈ evs2 ->
               seed e2 <> seed e1 /\ seed e2 ∉ cluster e1)).
  { intros pending layers layers' events Hpop [= <- <-].
    apply set_pop_None in Hpop as ->. simpl.
    split; [lia |]. split; [intros e He; inversion He |].
    split; [constructor |]. split; [intros v Hv; inversion Hv |].
    intros evs1 e1 evs2 e2 Heq. destruct evs1; discriminate Heq. }
  induction fuel as [| fuel IH]; intros pending layers layers' events Hnd Hsel;
    destruct (set_pop pending) as [[v rest] |] eqn:Hpop.
  - rewrite (merge_loop_out_of_fuel _ _ _ _ _ _ _ Hpop). discriminate.
  - rewrite (merge_loop_empty _ _ _ _ _ _ Hpop). apply Hempty, Hpop.
  - rewrite (merge_loop_step _ _ _ _ _ _ _ _ Hpop). cbv zeta.
    apply set_pop_Some in Hpop as [Hperm Hlen].
    set (e := iteration distance cells loop_normals v).
    set (local := filter (fun v => select v.2 = true) (cluster e)).
    destruct (merge_loop fuel distance cells loop_normals
                (difference_update rest local) (apply_event e layers))
      as [[layers1 events1] |] eqn:Hrun; [| discriminate].
    simpl. intros [= <- <-].
    rewrite Hperm in Hnd. apply NoDup_cons in Hnd as [Hv Hnd].
    assert (Hrest : forall w, w ∈ rest -> w ∈ pending).
    { intros w Hw. rewrite Hperm. apply list_elem_of_further, Hw. }
    assert (Hvp : v ∈ pending).
    { rewrite Hperm. apply list_elem_of_here. }
    assert (Hlocal : forall w, w ∈ local -> w ∈ universe).
    { intros w Hw. apply list_elem_of_filter in Hw as [_ Hw].
      apply (cells_universe v), Hw. }
    destruct (IH (difference_update rest local) (apply_event e layers)
                layers1 events1) as (Hn & Hseed & Hnd1 & Hres & Hord).
    { apply (sublist_NoDup _ rest Hnd (difference_update_sublist rest local)). }
    { intros w Hw. apply elem_of_difference_update in Hw as [Hw _].
      apply Hsel, Hrest, Hw. }
    { exact Hrun. }
    assert (Hlater : forall e2, e2 ∈ events1 ->
                       seed e2 ∈ rest /\ seed e2 <> v /\ seed e2 ∉ cluster e).
    { intros e2 He2. destruct (Hseed e2 He2) as [Hin _].
      apply elem_of_difference_update in Hin as [Hin Hid].
      split; [exact Hin |]. split.
      - intros Heq. apply Hv. rewrite <- Heq. exact Hin.
      - intros Hc. apply Hid, list_elem_of_fmap. exists (seed e2).
        split; [reflexivity |]. apply list_elem_of_filter. split; [| exact Hc].
        apply Hsel, Hrest, Hin. }
    split; [| split; [| split; [| split]]].
    + pose proof (sublist_length _ _ (difference_update_sublist rest local)).
      simpl. lia.
    + intros e0 He0. apply elem_of_cons in He0 as [-> | He0].
      * split; [exact Hvp | reflexivity].
      * destruct (Hseed e0 He0) as [Hin Heq]. split; [| exact Heq].
        apply elem_of_difference_update in Hin as [Hin _]. apply Hrest, Hin.
    + simpl. apply NoDup_cons. split; [| exact Hnd1].
      intros Hin. apply list_elem_of_fmap in Hin as [e2 [Heq He2]].
      destruct (Hlater e2 He2) as (_ & Hne & _). apply Hne. symmetry. exact Heq.
    + intros w Hw. rewrite Hperm in Hw. apply elem_of_cons in Hw as [-> | Hw].
      * exists e. split; [apply list_elem_of_here | left; reflexivity].
      * destruct (decide (w.1 ∈ fst <$> local)) as [Hin | Hout].
        -- exists e. split; [apply list_elem_of_here | right].
           apply list_elem_of_fmap in Hin as [u [Hid Hu]].
           assert (Hwu : w = u).
           { apply universe_inj; [apply Hsel, Hrest, Hw | apply Hlocal, Hu | exact Hid]. }
           rewrite Hwu. apply list_elem_of_filter in Hu as [_ Hu]. exact Hu.
        -- destruct (Hres w) as [e0 [He0 Hcase]].
           { apply elem_of_difference_update. split; assumption. }
           exists e0. split; [apply list_elem_of_further, He0 | exact Hcase].
    + intros evs1 e1 evs2 e2 Heq He2. destruct evs1 as [| e0 evs1].
      * injection Heq as <- <-. destruct (Hlater e2 He2) as (_ & Hne & Hc).
        split; assumption.
      * injection Heq as <- ->. apply (Hord evs1 e1 evs2 e2 eq_refl He2).
  - rewrite (merge_loop_empty _ _ _ _ _ _ Hpop). apply Hempty, Hpop.
Qed.

End Trace.

(** ** The vertices of a mesh *)

Lemma elem_of_bm_verts (bm : BMesh) (v : BMVert) :
  v ∈ bm_verts bm <-> verts bm !! v.1 = Some v.2.
Proof.
  unfold bm_verts. rewrite elem_of_lookup_imap. split.
  - intros (i & x & -> & Hx). exact Hx.
  - intros Hv. exists v.1, v.2. split; [destruct v; reflexivity | exact Hv].
Qed.

Lemma bm_verts_inj (bm : BMesh) (v w : BMVert) :
  v ∈ bm_verts bm -> w ∈ bm_verts bm -> v.1 = w.1 -> v = w.
Proof.
  rewrite !elem_of_bm_verts. destruct v as [i x], w as [j y]. simpl.
  intros Hx Hy <-. rewrite Hx in Hy. injection Hy as <-. reflexivity.
Qed.

Lemma NoDup_bm_verts (bm : BMesh) : NoDup (bm_verts bm).
Proof.
  apply NoDup_alt. intros i j v Hi Hj. unfold bm_verts in Hi, Hj.
  rewrite list_lookup_imap in Hi, Hj.
  apply fmap_Some in Hi as [x [_ ->]]. apply fmap_Some in Hj as [y [_ Hv]].
  injection Hv as Hij _. exact Hij.
Qed.

Lemma NoDup_selected (bm : BMesh) : NoDup (selected bm).
Proof. apply NoDup_filter, NoDup_bm_verts. Qed.

Lemma elem_of_selected (bm : BMesh) (v : BMVert) :
  v ∈ selected bm <-> select v.2 = true /\ v ∈ bm_verts bm.
Proof. unfold selected. rewrite list_elem_of_filter. reflexivity. Qed.

(** Iterating over a set visits each element once. *)
Lemma set_iter_Permutation (fuel : nat) (s : list BMVert) :
  length s <= fuel -> set_iter fuel s ≡ₚ s.
Proof.
  revert s. induction fuel as [| fuel IH]; intros s Hlen.
  - destruct s; [reflexivity | simpl in Hlen; lia].
  - simpl. destruct (set_pop s) as [[v rest] |] eqn:Hpop.
    + apply set_pop_Some in Hpop as [Hperm Hl].
      rewrite Hperm. apply perm_skip, IH. lia.
    + apply set_pop_None in Hpop as ->. reflexivity.
Qed.

Lemma iteration_order_Permutation (s : list BMVert) : iteration_order s ≡ₚ s.
Proof. apply set_iter_Permutation. lia. Qed.

(** The vertices put on the grid by [execute]. *)
Definition indexed_verts (unselected : bool) (bm : BMesh) : list BMVert :=
  if unselected then bm_verts bm else iteration_order (selected bm).

Lemma elem_of_indexed_verts (unselected : bool) (bm : BMesh) (v : BMVert) :
  v ∈ indexed_verts unselected bm <->
  v ∈ bm_verts bm /\ (unselected = true \/ select v.2 = true).
Proof.
  unfold indexed_verts. destruct unselected.
  - split; [intros H; split; [exact H | left; reflexivity] | intros [H _]; exact H].
  - rewrite iteration_order_Permutation, elem_of_selected. split.
    + intros [H1 H2]. split; [exact H2 | right; exact H1].
    + intros [H1 [H2 | H2]]; [discriminate H2 | split; assumption].
Qed.


Lemma mergeable_in_mesh (distance : Q) (unselected : bool) (bm : BMesh)
    (v w : BMVert) :
  w ∈ mergeable_verts distance
        (build_cells distance (indexed_verts unselected bm)) v ->
  w ∈ bm_verts bm.
Proof.
  unfold mergeable_verts. rewrite list_elem_of_filter, elem_of_nearby_verts.
  intros [_ [Hw _]]. apply elem_of_indexed_verts in Hw as [Hw _]. exact Hw.
Qed.

(** C8 (as amended): [execute] terminates for every mesh: the fuel of one
    iteration per selected vertex is never exhausted.  Every seed is a
    selected vertex, no vertex is a seed twice, every selected vertex is the
    seed of an iteration or a member of the cluster of one, and a vertex that
    was the seed or a member of the cluster of an iteration is never the seed
    of a later one.  (A vertex already assigned by one cluster can still be
    a member of the cluster of a later seed.) *)
Theorem merge_terminates_seeds_once (distance : Q) (unselected : bool)
    (bm : BMesh) (loop_normals : nat -> Vector) (layers : Layers) :
  exists layers' events,
    execute distance unselected bm loop_normals layers
    = Some (layers', events) /\
    length events <= length (selected bm) /\
    (forall e, e ∈ events -> seed e ∈ selected bm) /\
    NoDup (seed <$> events) /\
    (forall v, v ∈ selected bm ->
       exists e, e ∈ events /\ (v = seed e \/ v ∈ cluster e)) /\
    (forall evs1 e1 evs2 e2,
       events = evs1 ++ e1 :: evs2 -> e2 ∈ evs2 ->
       seed e2 <> seed e1 /\ seed e2 ∉ cluster e1).
Proof.
  unfold execute. fold (indexed_verts unselected bm).
  destruct (merge_loop_total (length (selected bm)) distance
              (build_cells distance (indexed_verts unselected bm))
              loop_normals (selected bm) layers (le_n _))
    as [[layers' events] Hrun].
  exists layers', events. split; [exact Hrun |].
  destruct (merge_loop_trace distance
              (build_cells distance (indexed_verts unselected bm))
              loop_normals (bm_verts bm) (bm_verts_inj bm)
              (mergeable_in_mesh distance unselected bm)
              _ _ _ _ _ (NoDup_selected bm)
              (fun v Hv => match proj1 (elem_of_selected bm v) Hv with
                           | conj Hs Hb => conj Hb Hs
                           end)
              Hrun)
    as (Hn & Hseed & Hnd & Hres & Hord).
  split; [exact Hn |]. split; [intros e He; apply Hseed, He |].
  split; [exact Hnd |]. split; [exact Hres | exact Hord].
Qed.

(** The events of the loop do not depend on the layers. *)
Lemma merge_loop_events_layers (fuel : nat) (distance : Q)
    (cells : gmap Cell (list BMVert)) (loop_normals : nat -> Vector)
    (pending : list BMVert) (layers1 layers2 : Layers) :
  snd <$> merge_loop fuel distance cells loop_normals pending layers1
  = snd <$> merge_loop fuel distance cells loop_normals pending layers2.
Proof.
  revert pending layers1 layers2.
  induction fuel as [| fuel IH]; intros pending layers1 layers2;
    destruct (set_pop pending) as [[v rest] |] eqn:Hpop.
  - rewrite !(merge_loop_out_of_fuel _ _ _ _ _ _ _ Hpop). reflexivity.
  - rewrite !(merge_loop_empty _ _ _ _ _ _ Hpop). reflexivity.
  - rewrite !(merge_loop_step _ _ _ _ _ _ _ _ Hpop). cbv zeta.
    set (e := iteration distance cells loop_normals v).
    set (pending' := difference_update rest _).
    specialize (IH pending' (apply_event e layers1) (apply_event e layers2)).
    destruct (merge_loop fuel distance cells loop_normals pending'
                (apply_event e layers1)) as [[l1 evs1] |];
      destruct (merge_loop fuel distance cells loop_normals pending'
                  (apply_event e layers2)) as [[l2 evs2] |];
      simpl in *; congruence.
  - rewrite !(merge_loop_empty _ _ _ _ _ _ Hpop). reflexivity.
Qed.

(** ** The writes of an iteration *)

Lemma assign_loops_lookup (f : nat -> Vector) (layer : gmap nat Vector)
    (loops : list nat) (loop : nat) :
  foldl (fun layer l => <[l := f l]> layer) layer loops !! loop
  = if decide (loop ∈ loops) then Some (f loop) else layer !! loop.
Proof.
  revert layer. induction loops as [| l loops IH]; intros layer.
  - rewrite decide_False; [reflexivity | intros H; inversion H].
  - cbn [foldl]. rewrite IH. rewrite (decide_ext _ _ _ _ (elem_of_cons loops loop l)).
    destruct (decide (loop ∈ loops)) as [Hin | Hout].
    + rewrite decide_True by (right; exact Hin). reflexivity.
    + destruct (decide (loop = l)) as [-> | Hne].
      * rewrite lookup_insert_eq. rewrite decide_True by (left; reflexivity).
        reflexivity.
      * rewrite lookup_insert_ne by congruence.
        rewrite decide_False by tauto. reflexivity.
Qed.

Lemma assign_vertex_weight (n : Vector) (layers : Layers) (v : BMVert) (i : nat) :
  vertex_normal_weight (assign_vertex n layers v) !! i
  = if decide (i = v.1) then Some unweighted_value
    else vertex_normal_weight layers !! i.
Proof.
  unfold assign_vertex. cbn [vertex_normal_weight].
  destruct (decide (i = v.1)) as [-> | Hne].
  - apply lookup_insert_eq.
  - apply lookup_insert_ne. congruence.
Qed.

Lemma assign_vertex_loop (n : Vector) (layers : Layers) (v : BMVert)
    (loop : nat) :
  loop_normal (assign_vertex n layers v) !! loop
  = if decide (loop ∈ link_loops v.2) then Some (loop_space_transform loop n)
    else loop_normal layers !! loop.
Proof.
  unfold assign_vertex. cbn [loop_normal].
  apply (assign_loops_lookup (fun l => loop_space_transform l n)).
Qed.

(** The layers after the writes of a cluster: the members have the weight
    UNWEIGHTED and their loops the transformed cluster normal; nothing else
    changes. *)
Lemma assign_cluster_lookup (n : Vector) (mergeable : list BMVert)
    (layers : Layers) :
  (forall i,
     vertex_normal_weight (assign_cluster n mergeable layers) !! i
     = if decide (i ∈ fst <$> mergeable) then Some unweighted_value
       else vertex_normal_weight layers !! i) /\
  (forall loop,
     loop_normal (assign_cluster n mergeable layers) !! loop
     = if decide (Exists (fun v => loop ∈ link_loops v.2) mergeable)
       then Some (loop_space_transform loop n)
       else loop_normal layers !! loop).
Proof.
  unfold assign_cluster. revert layers.
  induction mergeable as [| v vs IH]; intros layers.
  - split.
    + intros i. rewrite decide_False; [reflexivity | intros H; inversion H].
    + intros loop. rewrite decide_False; [reflexivity | intros H; inversion H].
  - cbn [foldl]. destruct (IH (assign_vertex n layers v)) as [IHw IHl]. split.
    + intros i. rewrite IHw, assign_vertex_weight, fmap_cons.
      rewrite (decide_ext _ _ _ _ (elem_of_cons (fst <$> vs) i v.1)).
      destruct (decide (i ∈ fst <$> vs)) as [Hin | Hout].
      * rewrite decide_True by (right; exact Hin). reflexivity.
      * destruct (decide (i = v.1)) as [Heq | Hne].
        -- rewrite decide_True by (left; exact Heq). reflexivity.
        -- rewrite decide_False by tauto. reflexivity.
    + intros loop. rewrite IHl, assign_vertex_loop.
      rewrite (decide_ext _ _ _ _
                 (Exists_cons (fun v0 : BMVert => loop ∈ link_loops v0.2) v vs)).
      destruct (decide (Exists (fun v0 : nat * Vert => loop ∈ link_loops v0.2) vs))
        as [Hin | Hout].
      * rewrite decide_True by (right; exact Hin). reflexivity.
      * destruct (decide (loop ∈ link_loops v.2)) as [Hl | Hl].
        -- rewrite decide_True by (left; exact Hl). reflexivity.
        -- rewrite decide_False by tauto. reflexivity.
Qed.


(** The layers at the end are the layers after the events, in order. *)
Lemma merge_loop_layers (fuel : nat) (distance : Q)
    (cells : gmap Cell (list BMVert)) (loop_normals : nat -> Vector)
    (pending : list BMVert) (layers layers' : Layers) (events : list Event) :
  merge_loop fuel distance cells loop_normals pending layers
  = Some (layers', events) ->
  layers' = foldl (fun layers e => apply_event e layers) layers events.
Proof.
  revert pending layers layers' events.
  induction fuel as [| fuel IH]; intros pending layers layers' events;
    destruct (set_pop pending) as [[v rest] |] eqn:Hpop.
  - rewrite (merge_loop_out_of_fuel _ _ _ _ _ _ _ Hpop). discriminate.
  - rewrite (merge_loop_empty _ _ _ _ _ _ Hpop). intros [= <- <-]. reflexivity.
  - rewrite (merge_loop_step _ _ _ _ _ _ _ _ Hpop). cbv zeta.
    set (e := iteration distance cells loop_normals v).
    set (pending' := difference_update rest _).
    destruct (merge_loop fuel distance cells loop_normals pending'
                (apply_event e layers)) as [[l1 evs1] |] eqn:Hrun;
      [| discriminate].
    simpl. intros [= <- <-]. simpl. apply (IH _ _ _ _ Hrun).
  - rewrite (merge_loop_empty _ _ _ _ _ _ Hpop). intros [= <- <-]. reflexivity.
Qed.


(** The events of a run and the layers it ends with. *)
Lemma execute_events (distance : Q) (unselected : bool) (bm : BMesh)
    (loop_normals : nat -> Vector) (layers layers' : Layers)
    (events : list Event) :
  execute distance unselected bm loop_normals layers = Some (layers', events) ->
  layers' = foldl (fun layers e => apply_event e layers) layers events /\
  forall e, e ∈ events ->
    seed e ∈ selected bm /\
    e = iteration distance
          (build_cells distance (indexed_verts unselected bm)) loop_normals
          (seed e).
Proof.
  intros Hrun. unfold execute in Hrun.
  fold (indexed_verts unselected bm) in Hrun.
  split; [apply (merge_loop_layers _ _ _ _ _ _ _ _ Hrun) |].
  destruct (merge_loop_trace distance
              (build_cells distance (indexed_verts unselected bm))
              loop_normals (bm_verts bm) (bm_verts_inj bm)
              (mergeable_in_mesh distance unselected bm)
              _ _ _ _ _ (NoDup_selected bm)
              (fun v Hv => match proj1 (elem_of_selected bm v) Hv with
                           | conj Hs Hb => conj Hb Hs
                           end)
              Hrun)
    as (_ & Hseed & _).
  exact Hseed.
Qed.


(** ** The layers after a list of events *)

Lemma apply_event_weight (e : Event) (layers : Layers) (i : nat) :
  vertex_normal_weight (apply_event e layers) !! i
  = if decide (wrote e = true /\ i ∈ fst <$> cluster e)
    then Some unweighted_value
    else vertex_normal_weight layers !! i.
Proof.
  unfold apply_event. destruct (wrote e).
  - rewrite (proj1 (assign_cluster_lookup _ _ _)).
    destruct (decide (i ∈ fst <$> cluster e)) as [Hin | Hout].
    + rewrite decide_True by tauto. reflexivity.
    + rewrite decide_False by tauto. reflexivity.
  - rewrite decide_False; [reflexivity |]. intros [H _]. discriminate H.
Qed.

Lemma apply_event_loop (e : Event) (layers : Layers) (loop : nat) :
  loop_normal (apply_event e layers) !! loop
  = if decide (wrote e = true /\
               Exists (fun v : nat * Vert => loop ∈ link_loops v.2) (cluster e))
    then Some (loop_space_transform loop (vn_local e))
    else loop_normal layers !! loop.
Proof.
  unfold apply_event. destruct (wrote e).
  - rewrite (proj2 (assign_cluster_lookup _ _ _)).
    destruct (decide (Exists (fun v : nat * Vert => loop ∈ link_loops v.2)
                        (cluster e))) as [Hin | Hout].
    + rewrite decide_True by tauto. reflexivity.
    + rewrite decide_False by tauto. reflexivity.
  - rewrite decide_False; [reflexivity |]. intros [H _]. discriminate H.
Qed.

Definition writes_vertex (i : nat) (e : Event) : Prop :=
  wrote e = true /\ i ∈ fst <$> cluster e.

Definition writes_loop (loop : nat) (e : Event) : Prop :=
  wrote e = true /\
  Exists (fun v : nat * Vert => loop ∈ link_loops v.2) (cluster e).

#[export] Instance writes_vertex_dec (i : nat) (e : Event) :
  Decision (writes_vertex i e).
Proof. unfold writes_vertex. apply _. Defined.

#[export] Instance writes_loop_dec (loop : nat) (e : Event) :
  Decision (writes_loop loop e).
Proof. unfold writes_loop. apply _. Defined.

Lemma events_weight_lookup (events : list Event) (layers : Layers) (i : nat) :
  vertex_normal_weight
    (foldl (fun layers e => apply_event e layers) layers events) !! i
  = if decide (Exists (writes_vertex i) events)
    then Some unweighted_value
    else vertex_normal_weight layers !! i.
Proof.
  revert layers. induction events as [| e evs IH]; intros layers.
  - rewrite decide_False; [reflexivity | intros H; inversion H].
  - cbn [foldl]. rewrite IH, apply_event_weight.
    rewrite (decide_ext _ _ _ _ (Exists_cons (writes_vertex i) e evs)).
    destruct (decide (Exists (writes_vertex i) evs)) as [Hin | Hout].
    + rewrite decide_True by tauto. reflexivity.
    + destruct (decide (wrote e = true /\ i ∈ fst <$> cluster e))
        as [He | He].
      * rewrite decide_True by (left; exact He). reflexivity.
      * rewrite decide_False; [reflexivity |]. intros [H | H]; tauto.
Qed.

Lemma events_loop_frame (events : list Event) (layers : Layers) (loop : nat) :
  ~ Exists (writes_loop loop) events ->
  loop_normal (foldl (fun layers e => apply_event e layers) layers events)
    !! loop
  = loop_normal layers !! loop.
Proof.
  revert layers. induction events as [| e evs IH]; intros layers Hno;
    [reflexivity |].
  cbn [foldl]. rewrite IH by (intros H; apply Hno; right; exact H).
  rewrite apply_event_loop. rewrite decide_False; [reflexivity |].
  intros H. apply Hno. left. exact H.
Qed.

Lemma events_loop_written (events : list Event) (layers : Layers)
    (loop : nat) :
  Exists (writes_loop loop) events ->
  exists e,
    e ∈ events /\ writes_loop loop e /\
    loop_normal (foldl (fun layers e => apply_event e layers) layers events)
      !! loop
    = Some (loop_space_transform loop (vn_local e)).
Proof.
  revert layers. induction events as [| e evs IH]; intros layers Hex;
    [inversion Hex |].
  cbn [foldl].
  destruct (decide (Exists (writes_loop loop) evs)) as [Hin | Hout].
  - destruct (IH (apply_event e layers) Hin) as (e' & He' & Hw & Hl).
    exists e'. split; [right; exact He' |]. split; assumption.
  - apply Exists_cons in Hex as [Hw | Hin]; [| contradiction].
    exists e. split; [left |]. split; [exact Hw |].
    rewrite events_loop_frame by exact Hout.
    rewrite apply_event_loop. rewrite decide_True by exact Hw. reflexivity.
Qed.


(** ** The snapshot *)

Lemma foldl_vadd_fmap {A : Type} (f : A -> Vector) (z : Vector) (l : list A) :
  foldl (fun acc x => vadd acc (f x)) z l = foldl vadd z (f <$> l).
Proof.
  revert z. induction l as [| x l IH]; intros z; [reflexivity | apply IH].
Qed.

(** The accumulators of the code compute the average of the snapshot. *)
Lemma merged_normal_snapshot (loop_normals : nat -> Vector)
    (mergeable : list BMVert) :
  merged_normal loop_normals mergeable
  = snapshot_average loop_normals mergeable.
Proof.
  unfold merged_normal, snapshot_average, vector_sum.
  rewrite foldl_vadd_fmap. f_equal. f_equal.
  apply list_fmap_ext. intros _ v _. unfold vertex_normal.
  rewrite foldl_vadd_fmap. reflexivity.
Qed.

(** C10: a run of the merge on the snapshot [loop_normals], read once
    before the loop, has the same events (seeds, clusters and averaged
    normals) whatever the custom data layers hold when it starts, for every
    order in which the pending set hands out its elements.  The normal of
    each event is the average over its cluster of the normalized sums of
    the snapshot normals of the corners of each vertex, also for a cluster
    with a vertex that an earlier event has written; and every loop the run
    has written holds the transform of that average of a written cluster
    it is a corner of, every other loop what it held before. *)
Theorem merge_reads_snapshot_only (distance : Q) (unselected : bool)
    (bm : BMesh) (loop_normals : nat -> Vector)
    (layers1 layers2 layers1' : Layers) (events : list Event) :
  execute distance unselected bm loop_normals layers1
  = Some (layers1', events) ->
  (exists layers2',
     execute distance unselected bm loop_normals layers2
     = Some (layers2', events)) /\
  (forall e, e ∈ events ->
     cluster e
     = mergeable_verts distance
         (build_cells distance (indexed_verts unselected bm)) (seed e) /\
     vn_local e = snapshot_average loop_normals (cluster e)) /\
  (forall loop e v,
     e ∈ events -> wrote e = true -> v ∈ cluster e ->
     loop ∈ link_loops v.2 ->
     exists e' v',
       e' ∈ events /\ wrote e' = true /\ v' ∈ cluster e' /\
       loop ∈ link_loops v'.2 /\
       loop_normal layers1' !! loop
       = Some (loop_space_transform loop
                 (snapshot_average loop_normals (cluster e')))) /\
  (forall loop,
     (forall e v, e ∈ events -> wrote e = true -> v ∈ cluster e ->
                  loop ∉ link_loops v.2) ->
     loop_normal layers1' !! loop = loop_normal layers1 !! loop).
Proof.
  intros Hrun.
  destruct (execute_events _ _ _ _ _ _ _ Hrun) as [Hlayers Hev].
  assert (Hsnap : forall e, e ∈ events ->
            cluster e
            = mergeable_verts distance
                (build_cells distance (indexed_verts unselected bm)) (seed e) /\
            vn_local e = snapshot_average loop_normals (cluster e)).
  { intros e He. destruct (Hev e He) as [_ Heq].
    rewrite Heq at 1 3 4. cbn [cluster vn_local seed iteration].
    split; [reflexivity | apply merged_normal_snapshot]. }
  split; [| split; [exact Hsnap | split]].
  - pose proof (merge_loop_events_layers (length (selected bm)) distance
                  (build_cells distance
                     (if unselected then bm_verts bm
                      else iteration_order (selected bm)))
                  loop_normals (selected bm) layers1 layers2) as Hsame.
    unfold execute in Hrun |- *. rewrite Hrun in Hsame. cbn [fmap option_fmap option_map] in Hsame.
    destruct (merge_loop _ _ _ _ _ layers2) as [[layers2' events2] |];
      [| discriminate Hsame].
    injection Hsame as <-. exists layers2'. reflexivity.
  - intros loop e v He Hw Hv Hl. rewrite Hlayers.
    destruct (events_loop_written events layers1 loop) as (e' & He' & Hw' & Hl').
    { apply Exists_exists. exists e. split; [exact He |].
      split; [exact Hw |]. apply Exists_exists. exists v. split; assumption. }
    destruct Hw' as [Hw' Hex]. apply Exists_exists in Hex as (v' & Hv' & Hlv').
    exists e', v'. repeat (split; [assumption |]).
    rewrite Hl'. rewrite (proj2 (Hsnap e' He')). reflexivity.
  - intros loop Hno. rewrite Hlayers. apply events_loop_frame.
    intros H. apply Exists_exists in H as (e & He & Hw & Hex).
    apply Exists_exists in Hex as (v & Hv & Hl).
    apply (Hno e v He Hw Hv Hl).
Qed.



End MergeLoop.

End Merge.

(** * A binary64 instance of the interface *)

(** Vectors of three primitive floats with the usual componentwise
    operations, on which the definitions above can be evaluated. *)
Module FloatVec.

Local Open Scope float_scope.

Record vec : Type := mk { vx : float; vy : float; vz : float }.

Definition zero : vec := mk 0 0 0.

Definition add (u v : vec) : vec :=
  mk (vx u + vx v) (vy u + vy v) (vz u + vz v).

Definition scale (s : float) (v : vec) : vec :=
  mk (s * vx v) (s * vy v) (s * vz v).

Definition length (v : vec) : float :=
  sqrt (vx v * vx v + vy v * vy v + vz v * vz v).

Definition normalized (v : vec) : vec :=
  let len := length v in
  if len =? 0 then zero else scale (1 / len) v.

Definition eqb (u v : vec) : bool :=
  (vx u =? vx v) && (vy u =? vy v) && (vz u =? vz v).

Lemma normalized_zero_length (v : vec) : length v = 0 -> normalized v = zero.
Proof. intros H. unfold normalized. rewrite H. reflexivity. Qed.

End FloatVec.

#[export] Instance float_mathutils : Mathutils := {|
  scalar := float;
  Vector := FloatVec.vec;
  vzero := FloatVec.zero;
  vadd := FloatVec.add;
  smul := FloatVec.scale;
  fmul := PrimFloat.mul;
  szero := 0%float;
  vlength := FloatVec.length;
  normalize := FloatVec.normalized;
  vec_eqb := FloatVec.eqb
|}.

(** * Concrete meshes *)

Module Scenario.

Import Update.

Local Open Scope float_scope.

(** Helpers for the examples: every vertex has one shading group, loop space
    is object space, the cached area of face [i] is the [i]-th entry of
    [areas], the weights are numbered in the order of the enumeration, and
    the preferences select the plain cache and a smoothing angle of 30
    degrees. *)
Definition areas : list float := [1; 3; 2].

#[export] Instance helpers : Helpers := {|
  split_loops v _ _ := match link_loops v with [] => [] | _ => [link_loops v] end;
  loop_space_transform _ v _ := v;
  face_area f := nth (face_index f) areas 0;
  linked_face_area _ f := nth (face_index f) areas 0;
  weight_value w :=
    match w with
    | UNIFORM => 0 | ANGLE => 1 | AREA => 2 | COMBINED => 3 | UNWEIGHTED => 4
    end%Z;
  use_linked_face_weights := false;
  link_angle := 0;
  use_auto_smooth := true;
  smooth_angle := 0x1.0c152382d7366p-1;
  use_flat_faces := false
|}.

Lemma weight_value_inj (a b : VertexNormalWeight) :
  weight_value a = weight_value b -> a = b.
Proof. destruct a, b; simpl; intros H; first [reflexivity | discriminate H]. Defined.

(** Two triangles: face 0 on vertices 0, 1, 2 and face 1 on vertices 1, 2, 3. *)
Definition f0 : Face := {| face_index := 0; influence := 0; normal := FloatVec.mk 0 0 1 |}.
Definition f1 : Face := {| face_index := 1; influence := 0; normal := FloatVec.mk 1 0 0 |}.

Definition corner (i : nat) (f : Face) : Loop :=
  {| index := i; face := f; calc_angle := 1; loop_normal := FloatVec.mk 0 1 0 |}.

Definition two_triangles : BMesh :=
  {| verts :=
       [ {| weight := 0; link_loops := [corner 0 f0] |};
         {| weight := 2; link_loops := [corner 1 f0; corner 3 f1] |};
         {| weight := 1; link_loops := [corner 2 f0; corner 4 f1] |};
         {| weight := 4; link_loops := [corner 5 f1] |} ] |}.

Definition split_normals : list Vector := replicate 6 FloatVec.zero.

(** The serial run on the two triangles: vertex 1 has weight AREA and gets
    the direction of [1 * (0,0,1) + 3 * (1,0,0)]. *)
Example execute_serial_two_triangles :
  execute_serial two_triangles split_normals
  = Some [ FloatVec.mk 0 0 1;
           FloatVec.mk 0x1.e5b9d136c6d96p-1 0 0x1.43d136248490fp-2;
           FloatVec.mk 0x1.6a09e667f3bccp-1 0 0x1.6a09e667f3bccp-1;
           FloatVec.mk 0x1.e5b9d136c6d96p-1 0 0x1.43d136248490fp-2;
           FloatVec.mk 0x1.6a09e667f3bccp-1 0 0x1.6a09e667f3bccp-1;
           FloatVec.mk 0 1 0 ].
Proof. vm_compute. reflexivity. Qed.

(** Ten vertices on four workers: [0,2), [2,5), [5,7), [7,10). *)
Lemma chunk_ranges_partition_witness :
  1 <= 4 /\ (Z.of_nat 10 <= 2 ^ 53)%Z /\
  exists ranges,
    mapM (fun chunk => chunk_indices chunk 4 10) (seq 0 4) = Some ranges /\
    concat ranges = seq 0 10.
Proof.
  assert (H4 : 1 <= 4) by lia.
  assert (H10 : (Z.of_nat 10 <= 2 ^ 53)%Z) by (vm_compute; discriminate).
  split; [exact H4 |]. split; [exact H10 |].
  exact (proj1 (proj2 (chunk_ranges_partition 4 10 H4 H10))).
Defined.

(** The two triangles on three workers. *)
Lemma chunked_equals_serial_witness :
  1 <= 3 /\
  execute_chunked two_triangles split_normals 3
  = execute_serial two_triangles split_normals.
Proof.
  assert (H3 : 1 <= 3) by lia.
  split; [exact H3 |].
  exact (proj1 (chunked_equals_serial two_triangles split_normals 3 H3)).
Defined.

(** The three workers taking effect in the order 2, 0, 1. *)
Example execute_in_order_two_triangles :
  execute_in_order two_triangles split_normals 3 [2; 0; 1]%nat
  = execute_serial two_triangles split_normals.
Proof. vm_compute. reflexivity. Qed.

(** A group of two corners on faces of influence 1, and a corner on a face of
    influence 0 placed between them. *)
Definition strong_a : Face := {| face_index := 0; influence := 1; normal := FloatVec.mk 0 0 1 |}.
Definition strong_b : Face := {| face_index := 1; influence := 1; normal := FloatVec.mk 0 1 0 |}.
Definition weak_c : Face := {| face_index := 2; influence := 0; normal := FloatVec.mk 1 0 0 |}.

Lemma influence_cutoff_witness :
  influence_max ([corner 0 strong_a] ++ [corner 1 strong_b]) = Some 1%Z /\
  (influence (face (corner 2 weak_c)) < 1)%Z /\
  group_normal 0 ([corner 0 strong_a] ++ corner 2 weak_c :: [corner 1 strong_b])
  = group_normal 0 ([corner 0 strong_a] ++ [corner 1 strong_b]).
Proof.
  assert (Hmax : influence_max ([corner 0 strong_a] ++ [corner 1 strong_b])
                 = Some 1%Z) by reflexivity.
  assert (Hlow : (influence (face (corner 2 weak_c)) < 1)%Z) by reflexivity.
  split; [exact Hmax |]. split; [exact Hlow |].
  exact (proj2 (proj2 (proj1 (proj2 (proj2
           (influence_cutoff 0 [corner 0 strong_a] [corner 1 strong_b]
              (corner 2 weak_c) 1 Hmax))) Hlow))).
Defined.

(** Scenario C: weight AREA, two faces of the highest influence with areas
    1.0 and 3.0, after and around two corners on a face of lower influence
    and area 2.0, which do not contribute. *)
Definition area_group : list Loop :=
  [corner 2 weak_c; corner 0 strong_a; corner 3 weak_c; corner 1 strong_b].

Lemma area_group_low (l : Loop) :
  l ∈ [corner 2 weak_c] ++ [corner 3 weak_c] ++ [] ->
  (influence (face l) < influence (face (corner 0 strong_a)))%Z.
Proof.
  intros Hl. apply elem_of_cons in Hl as [-> | Hl]; [reflexivity |].
  apply list_elem_of_singleton in Hl as ->. reflexivity.
Defined.

Lemma area_mode_normal_witness :
  (2%Z = weight_value AREA) /\
  area_group <> [] /\
  max_priority_corners area_group = [corner 0 strong_a; corner 1 strong_b] /\
  group_normal 2 area_group
  = Some (normalize (vadd (smul 1 (normal strong_a))
                       (smul 3 (normal strong_b)))).
Proof.
  assert (Hw : 2%Z = weight_value AREA) by reflexivity.
  assert (Hne : area_group <> []) by discriminate.
  split; [exact Hw |]. split; [exact Hne |].
  split; [vm_compute; reflexivity |].
  exact (proj2 (proj2 (area_mode_normal 2 area_group weight_value_inj Hw Hne)
                  (corner 0 strong_a) (corner 1 strong_b)
                  [corner 2 weak_c] [corner 3 weak_c] [] eq_refl eq_refl
                  area_group_low) eq_refl).
Defined.

(** Antiparallel face normals under weight UNIFORM cancel. *)
Definition up : Face := {| face_index := 0; influence := 0; normal := FloatVec.mk 0 0 1 |}.
Definition down : Face := {| face_index := 1; influence := 0; normal := FloatVec.mk 0 0 (-1) |}.

Lemma zero_length_sum_gives_zero_witness :
  influence_max [corner 0 up; corner 1 down] = Some 0%Z /\
  vlength (vn_sum 0 (loop_subgroup 0 [corner 0 up; corner 1 down])) = szero /\
  exists out',
    process_group 0 [FloatVec.mk 1 1 1; FloatVec.mk 1 1 1]
      [corner 0 up; corner 1 down] = Some out' /\
    forall loop, loop ∈ [corner 0 up; corner 1 down] ->
                 out' !! index loop = Some vzero.
Proof.
  assert (Hmax : influence_max [corner 0 up; corner 1 down] = Some 0%Z)
    by reflexivity.
  assert (Hzero : vlength (vn_sum 0 (loop_subgroup 0 [corner 0 up; corner 1 down]))
                  = szero) by (vm_compute; reflexivity).
  assert (Hrange : forall loop, loop ∈ [corner 0 up; corner 1 down] ->
                     index loop < length [FloatVec.mk 1 1 1; FloatVec.mk 1 1 1]).
  { intros loop Hloop. apply elem_of_cons in Hloop as [-> | Hloop]; [simpl; lia |].
    apply list_elem_of_singleton in Hloop as ->. simpl; lia. }
  split; [exact Hmax |]. split; [exact Hzero |].
  destruct (zero_length_sum_gives_zero 0 [corner 0 up; corner 1 down]
              [FloatVec.mk 1 1 1; FloatVec.mk 1 1 1] 0
              FloatVec.normalized_zero_length Hmax Hzero Hrange)
    as [out' [Hrun [_ [Hin _]]]].
  exists out'. split; [exact Hrun | exact Hin].
Defined.

End Scenario.

(** * Concrete merges *)

Module MergeScenario.

Import Merge.

(** Loop space is object space, UNWEIGHTED is 4, and a set hands out its
    elements in mesh order. *)
#[export] Instance environment : Environment := {|
  loop_space_transform _ v := v;
  unweighted_value := 4;
  pick _ := 0
|}.

Definition vertex (x y z : Q) (loops : list nat) : Vert :=
  {| co := {| px := x; py := y; pz := z |}; select := true; link_loops := loops |}.

Definition no_layers : Layers :=
  {| vertex_normal_weight := ∅; loop_normal := ∅ |}.

Definition flat_normals : nat -> Vector := fun _ => FloatVec.mk 0 0 1.

(** The binary32 number nearest to 0.001, 8589935 / 2^33. *)
Definition millimetre : Q := 8589935 # 8589934592.

Lemma millimetre_value : distance_value millimetre.
Proof. split; [vm_compute; reflexivity | vm_compute; discriminate]. Defined.

Lemma one_value : distance_value 1.
Proof. split; [vm_compute; reflexivity | vm_compute; discriminate]. Defined.

(** Three selected vertices on a line, 0.75 apart. *)
Definition line : BMesh :=
  {| verts := [vertex 0 0 0 []; vertex (3 # 4) 0 0 []; vertex (3 # 2) 0 0 []] |}.

(** A vertex at the origin with a neighbour 0.875 away on either side, and
    a fourth vertex at distance 1 from the origin only. *)
Definition cross : BMesh :=
  {| verts := [vertex 0 1 0 []; vertex 0 0 0 [];
               vertex (- (7 # 8)) 0 0 []; vertex (7 # 8) 0 0 []] |}.

(** Two coincident selected vertices, each with one corner of a shared
    face (Scenario A). *)
Definition coincident : BMesh :=
  {| verts := [vertex 1 2 3 [0]; vertex 1 2 3 [1]] |}.


(** The line with a corner at each vertex, and a snapshot that gives the
    three corners the three axes as normals. *)
Definition ridge : BMesh :=
  {| verts := [vertex 0 0 0 [0]; vertex (3 # 4) 0 0 [1];
               vertex (3 # 2) 0 0 [2]] |}.

Definition axis_normals : nat -> Vector := fun loop =>
  match loop with
  | 0 => FloatVec.mk 1 0 0
  | 1 => FloatVec.mk 0 1 0
  | _ => FloatVec.mk 0 0 1
  end.


Ltac not_member H :=
  repeat (apply elem_of_cons in H as [H | H]; [discriminate H |]);
  inversion H.

(** ** The distance test *)

(** The rounding of the model on known binary32 numbers: the numbers
    nearest to 0.0001 and 0.001, a tie between two neighbours, the largest
    finite number and the first number that rounds to an infinity, and the
    ties at the smallest subnormal number. *)
Example binary32_rounding :
  Binary32.round32 (1 # 10000) = Some min_distance /\
  Binary32.round32 (1 # 1000) = Some millimetre /\
  option_map Qred (Binary32.round32 (1 + 3 * 2 ^ (-24)))
  = Some (4194305 # 4194304)%Q /\
  option_map Qred (Binary32.round32 (2 ^ 128 - 2 ^ 103 - 1))
  = Some 340282346638528859811704183484516925440%Q /\
  Binary32.round32 (2 ^ 128 - 2 ^ 103) = None /\
  option_map Qred (Binary32.round32 (2 ^ (-150))) = Some 0%Q /\
  option_map Qred (Binary32.round32 (3 * 2 ^ (-150))) = Some (2 ^ (-148))%Q.
Proof. vm_compute. repeat split; reflexivity. Qed.



(** A vertex exactly at the merge distance 0.001 (as a binary32 number)
    from the seed fails the test: the product of the difference with
    itself is rounded upwards in single precision, above the square of the
    distance in double precision. *)
Definition seed_at_origin : BMVert := (0, vertex 0 0 0 []).
Definition at_millimetre : BMVert := (1, vertex millimetre 0 0 []).

Example boundary_vertex_dropped :
  (true_length_squared (co at_millimetre.2) (co seed_at_origin.2)
   == millimetre * millimetre)%Q /\
  option_map Qred (length_squared (co at_millimetre.2) (co seed_at_origin.2))
  = Some (4398047 # 4398046511104)%Q /\
  Qred (merge_distance_squared millimetre)
  = (73786983304225 # 73786976294838206464)%Q /\
  mergeable_verts millimetre
    (build_cells millimetre [seed_at_origin; at_millimetre]) seed_at_origin
  = [seed_at_origin].
Proof. vm_compute. repeat split; reflexivity. Qed.

(** Below the minimum of the property the products of the test underflow:
    at the distance 2^-100 a vertex 1.5 * 2^-100 from the seed passes the
    test with the squared length 0, and it is in the cluster because its
    cell is next to the cell of the seed; at the distance 1.25 * 2^-100
    its cell is not, and the cluster has lost it. *)
Definition tiny : Q := 2 ^ (-100).

Example tiny_distance_loses_vertex :
  let v := (0, vertex tiny 0 0 []) in
  let w := (1, vertex ((5 # 2) * tiny) 0 0 []) in
  length_squared (co w.2) (co v.2) = Some 0%Q /\
  mergeable_verts tiny (build_cells tiny [v; w]) v = [v; w] /\
  mergeable_verts ((5 # 4) * tiny) (build_cells ((5 # 4) * tiny) [v; w]) v
  = [v].
Proof. vm_compute. repeat split; reflexivity. Qed.


(** ** The runs *)

(** The seed and the members of the cluster of each event, by position in
    the mesh. *)
Definition summary (events : list Event) : list (nat * list nat) :=
  (fun e => ((seed e).1, fst <$> cluster e)) <$> events.

Definition line_events : list Event :=
  Eval vm_compute in
    default [] (snd <$> execute 1 false line flat_normals no_layers).

Lemma line_run :
  snd <$> execute 1 false line flat_normals no_layers = Some line_events.
Proof. vm_compute. reflexivity. Qed.

Definition cross_near_events : list Event :=
  Eval vm_compute in
    default [] (snd <$> execute (15 # 16) false cross flat_normals no_layers).

Definition cross_far_events : list Event :=
  Eval vm_compute in
    default [] (snd <$> execute 1 false cross flat_normals no_layers).

Lemma cross_near_run :
  snd <$> execute (15 # 16) false cross flat_normals no_layers
  = Some cross_near_events.
Proof. vm_compute. reflexivity. Qed.

Lemma cross_far_run :
  snd <$> execute 1 false cross flat_normals no_layers = Some cross_far_events.
Proof. vm_compute. reflexivity. Qed.

(** At distance 0.9375 the origin is a seed and is merged with its two
    neighbours; at distance 1 the vertex above it is popped first and takes
    the origin, and the neighbours, 1.75 apart, end in two clusters.  The
    three vertices merged together at 0.9375 are in no single cluster at
    1. *)
Example cross_clusters :
  summary cross_near_events = [(0, [0]); (1, [2; 1; 3])] /\
  summary cross_far_events = [(0, [1; 0]); (2, [2; 1]); (3, [1; 3])].
Proof. split; reflexivity. Qed.

(** C9 fails as stated: a set of vertices merged together at one distance
    need not be inside one cluster at a larger distance. *)
Lemma larger_distance_splits_cluster :
  ~ (forall (E : Environment) (bm : BMesh) (loop_normals : nat -> Vector)
            (layers : Layers) (d d' : Q) (events events' : list Event),
       (0 < d)%Q -> (d < d')%Q ->
       snd <$> execute d false bm loop_normals layers = Some events ->
       snd <$> execute d' false bm loop_normals layers = Some events' ->
       forall e, e ∈ events ->
         exists e', e' ∈ events' /\ forall v, v ∈ cluster e -> v ∈ cluster e').
Proof.
  intros H.
  pose proof (H environment cross flat_normals no_layers (15 # 16)%Q 1%Q
                cross_near_events cross_far_events eq_refl eq_refl
                cross_near_run cross_far_run) as Hsub.
  unfold cross_near_events in Hsub.
  destruct (Hsub _ (list_elem_of_further _ _ _ (list_elem_of_here _ _)))
    as [e' [He' Hin]].
  unfold cross_far_events in He'. rewrite !elem_of_cons, elem_of_nil in He'.
  destruct He' as [-> | [-> | [-> | []]]].
  - pose proof (Hin _ (list_elem_of_here _ _)) as X. simpl in X. not_member X.
  - pose proof (Hin _ (list_elem_of_further _ _ _
                         (list_elem_of_further _ _ _ (list_elem_of_here _ _))))
      as X.
    simpl in X. not_member X.
  - pose proof (Hin _ (list_elem_of_here _ _)) as X. simpl in X. not_member X.
Qed.

(** C8 fails as stated: on the line, the middle vertex is written with the
    cluster of the first vertex and again with the cluster of the third. *)
Lemma second_cluster_assignment :
  ~ (forall (E : Environment) (bm : BMesh) (loop_normals : nat -> Vector)
            (layers : Layers) (d : Q) (unselected : bool)
            (events : list Event),
       (0 < d)%Q ->
       snd <$> execute d unselected bm loop_normals layers = Some events ->
       forall evs1 e1 evs2 e2 v,
         events = evs1 ++ e1 :: evs2 -> e2 ∈ evs2 ->
         wrote e1 = true -> wrote e2 = true ->
         v ∈ cluster e1 -> select v.2 = true -> v ∉ cluster e2).
Proof.
  intros H.
  pose proof (H environment line flat_normals no_layers 1%Q false line_events
                eq_refl line_run) as Hno.
  unfold line_events in Hno.
  apply (Hno [] _ _ _ (1, vertex (3 # 4) 0 0 []) eq_refl
           (list_elem_of_here _ _) eq_refl eq_refl).
  - apply list_elem_of_further, list_elem_of_here.
  - reflexivity.
  - apply list_elem_of_here.
Qed.


(** ** Instances of the theorems *)


Lemma near_value : distance_value (15 # 16).
Proof. split; [vm_compute; reflexivity | vm_compute; discriminate]. Defined.

Lemma cluster_of_seed_monotone_witness :
  (0 < 15 # 16)%Q /\ (15 # 16 <= 1)%Q /\
  distance_value (15 # 16) /\ distance_value 1 /\
  (2, vertex (- (7 # 8)) 0 0 [])
    ∈ mergeable_verts (15 # 16) (build_cells (15 # 16) (bm_verts cross))
        (1, vertex 0 0 0 []) /\
  (2, vertex (- (7 # 8)) 0 0 [])
    ∈ mergeable_verts 1 (build_cells 1 (bm_verts cross)) (1, vertex 0 0 0 []).
Proof.
  assert (Hd : (0 < 15 # 16)%Q) by reflexivity.
  assert (Hdd : (15 # 16 <= 1)%Q) by discriminate.
  assert (Hnear : (2, vertex (- (7 # 8)) 0 0 [])
                    ∈ mergeable_verts (15 # 16)
                        (build_cells (15 # 16) (bm_verts cross))
                        (1, vertex 0 0 0 [])).
  { vm_compute. apply list_elem_of_here. }
  split; [exact Hd |]. split; [exact Hdd |]. split; [exact near_value |].
  split; [exact one_value |]. split; [exact Hnear |].
  exact (cluster_of_seed_monotone (15 # 16) 1 (bm_verts cross)
           (1, vertex 0 0 0 []) (2, vertex (- (7 # 8)) 0 0 []) Hd Hdd
           near_value one_value Hnear).
Defined.

Definition coincident_layers : Layers :=
  Eval vm_compute in
    default no_layers
      (fst <$> execute millimetre false coincident flat_normals no_layers).

Definition coincident_events : list Event :=
  Eval vm_compute in
    default []
      (snd <$> execute millimetre false coincident flat_normals no_layers).

Lemma coincident_run :
  execute millimetre false coincident flat_normals no_layers
  = Some (coincident_layers, coincident_events).
Proof. vm_compute. reflexivity. Qed.






(** ** The snapshot *)

Definition ridge_layers : Layers :=
  Eval vm_compute in
    default no_layers
      (fst <$> execute 1 false ridge axis_normals no_layers).

Definition ridge_events : list Event :=
  Eval vm_compute in
    default [] (snd <$> execute 1 false ridge axis_normals no_layers).

Lemma ridge_run :
  execute 1 false ridge axis_normals no_layers
  = Some (ridge_layers, ridge_events).
Proof. vm_compute. reflexivity. Qed.

(** On the ridge the middle vertex is written with the first cluster and is
    a member of the second; the normal of the second cluster is the
    average of the snapshot normals (0,1,0) and (0,0,1) of its two
    vertices, not of what the first cluster wrote, and the run ends with
    it on the corners of both. *)
Example ridge_clusters :
  summary ridge_events = [(0, [0; 1]); (2, [1; 2])] /\
  vn_local <$> ridge_events
  = [FloatVec.normalized (FloatVec.mk 1 1 0);
     FloatVec.normalized (FloatVec.mk 0 1 1)] /\
  loop_normal ridge_layers !! 1
  = Some (FloatVec.normalized (FloatVec.mk 0 1 1)).
Proof. vm_compute. repeat split; reflexivity. Qed.

(** The run on the ridge, started from empty layers and from the layers
    that the merge of the coincident vertices left. *)
Lemma merge_reads_snapshot_only_witness :
  execute 1 false ridge axis_normals no_layers
  = Some (ridge_layers, ridge_events) /\
  (exists layers2',
     execute 1 false ridge axis_normals coincident_layers
     = Some (layers2', ridge_events)) /\
  (forall e, e ∈ ridge_events ->
     cluster e
     = mergeable_verts 1 (build_cells 1 (indexed_verts false ridge)) (seed e) /\
     vn_local e = snapshot_average axis_normals (cluster e)) /\
  (forall loop e v,
     e ∈ ridge_events -> wrote e = true -> v ∈ cluster e ->
     loop ∈ link_loops v.2 ->
     exists e' v',
       e' ∈ ridge_events /\ wrote e' = true /\ v' ∈ cluster e' /\
       loop ∈ link_loops v'.2 /\
       loop_normal ridge_layers !! loop
       = Some (loop_space_transform loop
                 (snapshot_average axis_normals (cluster e')))) /\
  (forall loop,
     (forall e v, e ∈ ridge_events -> wrote e = true -> v ∈ cluster e ->
                  loop ∉ link_loops v.2) ->
     loop_normal ridge_layers !! loop = loop_normal no_layers !! loop).
Proof.
  split; [exact ridge_run |].
  exact (merge_reads_snapshot_only 1 false ridge axis_normals no_layers
           coincident_layers ridge_layers ridge_events ridge_run).
Defined.

End MergeScenario.

(** * The recomputation pass as a whole

    What a whole run of [worker] and of [execute] (lines 890-1039) does to
    the output array: when it raises, which slots it writes and with what,
    and which vertices it visits. *)

From stdpp Require Import strings.

Module UpdateRun.

Import Update.

(** A step that is a list of writes applied in order, folded over a list,
    is the concatenation of the writes applied in order. *)
Lemma foldM_collect {A B W : Type} (f : B -> A -> option B)
    (g : B -> W -> option B) (writes : A -> option (list W)) (l : list A)
    (b : B) :
  (forall b a, f b a = ws ← writes a; foldM g b ws) ->
  foldM f b l = ws ← @concat W <$> mapM writes l; foldM g b ws.
Proof.
  intros Hf. revert b. induction l as [| a l IH]; intros b; [reflexivity |].
  cbn [foldM mapM]. rewrite Hf.
  destruct (writes a) as [ws |]; [| reflexivity].
  cbn [mbind option_bind fmap option_fmap option_map mret option_ret].
  destruct (mapM writes l) as [rest |] eqn:Hrest;
    cbn [mbind option_bind fmap option_fmap option_map mret option_ret concat].
  - rewrite foldM_app.
    destruct (foldM g b ws) as [b1 |]; cbn [mbind option_bind]; [| reflexivity].
    rewrite IH. reflexivity.
  - destruct (foldM g b ws) as [b1 |]; cbn [mbind option_bind]; [| reflexivity].
    rewrite IH. reflexivity.
Qed.

Section Run.

Context {M : Mathutils} {U : Helpers}.

(** ** Writes applied to an array *)

Lemma apply_writes_cons (w : nat * Vector) (ws : list (nat * Vector))
    (out : list Vector) :
  foldM apply_write out (w :: ws)
  = if decide (w.1 < length out)
    then foldM apply_write (<[w.1 := w.2]> out) ws
    else None.
Proof.
  cbn [foldM]. change (apply_write out w) with (store out w.1 w.2).
  unfold store. destruct (decide (w.1 < length out)); reflexivity.
Qed.

Lemma apply_writes_length (ws : list (nat * Vector)) (out out' : list Vector) :
  foldM apply_write out ws = Some out' -> length out' = length out.
Proof.
  revert out. induction ws as [| w ws IH]; intros out.
  - intros [= <-]. reflexivity.
  - rewrite apply_writes_cons.
    destruct (decide (w.1 < length out)); [| discriminate].
    intros H. rewrite (IH _ H).
    apply length_insert.
Qed.

Lemma apply_writes_is_Some (ws : list (nat * Vector)) (out : list Vector) :
  is_Some (foldM apply_write out ws) <->
  forall w, w ∈ ws -> w.1 < length out.
Proof.
  revert out. induction ws as [| w ws IH]; intros out.
  - split; [intros _ w Hw; inversion Hw | intros _; eexists; reflexivity].
  - rewrite apply_writes_cons.
    destruct (decide (w.1 < length out)) as [Hlt | Hge].
    + rewrite IH, length_insert. split.
      * intros H w' Hw'. apply elem_of_cons in Hw' as [-> | Hw'];
          [exact Hlt | apply H, Hw'].
      * intros H w' Hw'. apply H, list_elem_of_further, Hw'.
    + split; [intros [? [=]] |].
      intros H. exfalso. apply Hge, H, list_elem_of_here.
Qed.

Lemma apply_writes_frame (ws : list (nat * Vector)) (out out' : list Vector)
    (j : nat) :
  foldM apply_write out ws = Some out' ->
  (forall w, w ∈ ws -> w.1 <> j) ->
  out' !! j = out !! j.
Proof.
  revert out. induction ws as [| w ws IH]; intros out.
  - intros [= <-] _. reflexivity.
  - rewrite apply_writes_cons.
    destruct (decide (w.1 < length out)); [| discriminate].
    intros H Hj.
    rewrite (IH _ H) by (intros w' Hw'; apply Hj, list_elem_of_further, Hw').
    apply list_lookup_insert_ne, Hj, list_elem_of_here.
Qed.

Lemma apply_writes_lookup (ws : list (nat * Vector)) (out out' : list Vector)
    (w : nat * Vector) :
  foldM apply_write out ws = Some out' ->
  NoDup (fst <$> ws) -> w ∈ ws ->
  out' !! w.1 = Some w.2.
Proof.
  revert out. induction ws as [| w0 ws IH]; intros out.
  - intros _ _ Hw. inversion Hw.
  - rewrite apply_writes_cons.
    destruct (decide (w0.1 < length out)) as [Hlt |]; [| discriminate].
    rewrite fmap_cons, NoDup_cons.
    intros H [Hnotin Hnd] Hw. apply elem_of_cons in Hw as [-> | Hw].
    + rewrite (apply_writes_frame _ _ _ w0.1 H).
      * apply list_lookup_insert_eq, Hlt.
      * intros w' Hw' Heq. apply Hnotin. rewrite <- Heq.
        apply list_elem_of_fmap_2, Hw'.
    + apply (IH _ H Hnd Hw).
Qed.

(** ** The writes of a mesh *)

(** The normal of a shading group that has a corner. *)
Definition normal_of_group (vertex_normal_weight : Z) (loop_group : list Loop)
  : Vector :=
  default vzero (group_normal vertex_normal_weight loop_group).

(** The corners of the shading groups of a list of vertices, each with its
    vertex and its group, in the order the worker visits them. *)
Definition corners (angle : scalar) (vs : list Vert)
  : list (Vert * list Loop * Loop) :=
  v ← vs; g ← split_loops v angle use_flat_faces; (fun l => (v, g, l)) <$> g.

Definition corner_write (c : Vert * list Loop * Loop) : nat * Vector :=
  (index c.2, normal_of_group (weight c.1.1) c.1.2).

Definition mesh_writes (angle : scalar) (vs : list Vert)
  : option (list (nat * Vector)) :=
  @concat (nat * Vector)
    <$> mapM (fun v => vertex_writes (weight v)
                         (split_loops v angle use_flat_faces)) vs.

Lemma group_normal_is_Some (w : Z) (g : list Loop) :
  is_Some (group_normal w g) <-> g <> [].
Proof.
  unfold group_normal, influence_max, py_max. destruct g as [| l g]; simpl.
  - split; [intros [? [=]] | congruence].
  - split; [congruence | intros _; eexists; reflexivity].
Qed.

Lemma vertex_writes_spec (w : Z) (v : Vert) (groups : list (list Loop)) :
  Forall (fun g => g <> []) groups ->
  vertex_writes w groups
  = Some (g ← groups; (fun l => (index l, normal_of_group w g)) <$> g).
Proof.
  induction 1 as [| g gs Hg _ IH]; [reflexivity |].
  cbn [vertex_writes]. unfold group_writes.
  destruct (proj2 (group_normal_is_Some w g) Hg) as [vn Hvn].
  assert (Hn : normal_of_group w g = vn).
  { unfold normal_of_group. rewrite Hvn. reflexivity. }
  rewrite Hvn, IH. cbn [mbind option_bind]. rewrite bind_cons, Hn.
  reflexivity.
Qed.

Lemma vertex_writes_is_Some (w : Z) (groups : list (list Loop)) :
  is_Some (vertex_writes w groups) <-> Forall (fun g => g <> []) groups.
Proof.
  split.
  - induction groups as [| g gs IH]; [constructor |].
    cbn [vertex_writes]. unfold group_writes.
    destruct (group_normal w g) as [vn |] eqn:Hvn;
      [| intros [? [=]]].
    cbn [mbind option_bind].
    destruct (vertex_writes w gs) as [rest |]; [| intros [? [=]]].
    intros _. constructor.
    + apply (group_normal_is_Some w). eexists; exact Hvn.
    + apply IH. eexists; reflexivity.
  - intros H. rewrite (vertex_writes_spec w {| weight := w; link_loops := [] |})
      by exact H.
    eexists; reflexivity.
Qed.

Definition groups_nonempty (angle : scalar) (vs : list Vert) : Prop :=
  forall v g, v ∈ vs -> g ∈ split_loops v angle use_flat_faces -> g <> [].

Lemma mesh_writes_spec (angle : scalar) (vs : list Vert) :
  groups_nonempty angle vs ->
  mesh_writes angle vs = Some (corner_write <$> corners angle vs).
Proof.
  unfold mesh_writes, corners. induction vs as [| v vs IH]; intros Hne;
    [reflexivity |].
  rewrite bind_cons, fmap_app.
  cbn [mapM]. rewrite (vertex_writes_spec _ v).
  2: { apply Forall_forall. intros g Hg. apply (Hne v g); [left | exact Hg]. }
  assert (Hrest : groups_nonempty angle vs).
  { intros v' g Hv'. apply Hne. right. exact Hv'. }
  specialize (IH Hrest).
  destruct (mapM _ vs) as [rest |]; [| discriminate].
  cbn [fmap option_fmap option_map] in IH. injection IH as IH.
  cbn [mbind option_bind mret option_ret fmap option_fmap option_map concat].
  f_equal. f_equal.
  - clear. induction (split_loops v angle use_flat_faces) as [| g gs IHg];
      [reflexivity |].
    rewrite !bind_cons, fmap_app, IHg. f_equal.
    rewrite <- list_fmap_compose. reflexivity.
  - exact IH.
Qed.

Lemma mesh_writes_is_Some (angle : scalar) (vs : list Vert) :
  is_Some (mesh_writes angle vs) <-> groups_nonempty angle vs.
Proof.
  split.
  - unfold mesh_writes. induction vs as [| v vs IH].
    + intros _ v g Hv. inversion Hv.
    + cbn [mapM].
      destruct (vertex_writes _ _) as [ws |] eqn:Hws; [| intros [? [=]]].
      cbn [mbind option_bind].
      destruct (mapM _ vs) as [rest |]; [| intros [? [=]]].
      intros _ v' g Hv' Hg. apply elem_of_cons in Hv' as [-> | Hv'].
      * assert (Hall : Forall (fun g => g <> [])
                         (split_loops v angle use_flat_faces)).
        { apply (vertex_writes_is_Some (weight v)). eexists; exact Hws. }
        rewrite Forall_forall in Hall. apply Hall, Hg.
      * apply (IH ltac:(eexists; reflexivity) v' g Hv' Hg).
  - intros H. rewrite mesh_writes_spec by exact H. eexists; reflexivity.
Qed.

Lemma elem_of_corners (angle : scalar) (vs : list Vert)
    (c : Vert * list Loop * Loop) :
  c ∈ corners angle vs <->
  c.1.1 ∈ vs /\ c.1.2 ∈ split_loops c.1.1 angle use_flat_faces /\ c.2 ∈ c.1.2.
Proof.
  unfold corners. rewrite list_elem_of_bind. split.
  - intros (v & Hc & Hv). apply list_elem_of_bind in Hc as (g & Hc & Hg).
    apply list_elem_of_fmap in Hc as (l & -> & Hl). simpl. auto.
  - destruct c as [[v g] l]. simpl. intros (Hv & Hg & Hl).
    exists v. split; [| exact Hv]. apply list_elem_of_bind. exists g.
    split; [| exact Hg]. apply list_elem_of_fmap. exists l. auto.
Qed.

(** ** The serial run as one list of writes *)

Lemma process_indices_vertices (angle : scalar) (pre suf : list Vert)
    (out : list Vector) :
  foldM (process_index {| verts := pre ++ suf |} angle) out
    (seq (length pre) (length suf))
  = foldM (process_vertex angle) out suf.
Proof.
  revert pre out. induction suf as [| v suf IH]; intros pre out;
    [reflexivity |].
  cbn [length seq foldM].
  assert (E : process_index {| verts := pre ++ v :: suf |} angle out
                (length pre) = process_vertex angle out v).
  { unfold process_index. cbn [verts].
    rewrite lookup_app_r by lia. rewrite Nat.sub_diag. reflexivity. }
  rewrite E.
  destruct (process_vertex angle out v) as [out1 |]; cbn [mbind option_bind];
    [| reflexivity].
  specialize (IH (pre ++ [v]) out1).
  rewrite <- app_assoc, length_app in IH. cbn [app length] in IH.
  rewrite Nat.add_1_r in IH. exact IH.
Qed.

Lemma execute_serial_writes (bm : BMesh) (out : list Vector) :
  (Z.of_nat (length (verts bm)) <= 2 ^ 53)%Z ->
  use_auto_smooth = true ->
  execute_serial bm out
  = ws ← mesh_writes smooth_angle (verts bm); foldM apply_write out ws.
Proof.
  intros Hn Hauto. unfold execute_serial.
  assert (Ha : worker_smooth_angle = Some smooth_angle).
  { unfold worker_smooth_angle. rewrite Hauto. reflexivity. }
  rewrite (worker_seq bm out 0 1 smooth_angle) by (lia || exact Ha).
  rewrite bound_zero, bound_full by (lia || exact Hn).
  rewrite Nat.sub_0_r. destruct bm as [vs]. cbn [verts] in *.
  rewrite (process_indices_vertices smooth_angle [] vs out).
  unfold mesh_writes. apply foldM_collect.
  intros b v. unfold process_vertex. apply process_groups_writes.
Qed.

(** ** The operator (lines 981-1039) *)

(** [execute]: the array has one zero vector per loop of the mesh; the
    chunked branch is taken for more than 5000 vertices on a platform
    whose [os.name] is neither ['nt'] nor ['posix'], with
    [utils.get_num_procs()] workers; the result is the list handed to
    [normals_split_custom_set]. *)
Definition execute (os_name : string) (num_procs : nat) (bm : BMesh)
    (nloops : nat) : option (list Vector) :=
  let split_normals := replicate nloops vzero in
  if bool_decide (5000 < length (verts bm))
     && negb (bool_decide (os_name ∈ ["nt"; "posix"]))
  then execute_chunked bm split_normals num_procs
  else execute_serial bm split_normals.

(** ** What a run writes *)

Lemma worker_zero_division (bm : BMesh) (out : list Vector) (chunk : nat) :
  worker bm out chunk 0 = None.
Proof.
  unfold worker. destruct worker_smooth_angle; reflexivity.
Qed.

Lemma process_indices_frame (bm : BMesh) (angle : scalar) (idxs : list nat)
    (out out' : list Vector) :
  foldM (process_index bm angle) out idxs = Some out' ->
  length out' = length out /\
  forall j,
    (forall idx v g l,
       idx ∈ idxs -> verts bm !! idx = Some v ->
       g ∈ split_loops v angle use_flat_faces -> l ∈ g -> index l <> j) ->
    out' !! j = out !! j.
Proof.
  revert out. induction idxs as [| idx idxs IH]; intros out; cbn [foldM].
  - intros [= <-]. split; reflexivity.
  - rewrite process_index_writes.
    destruct (index_writes bm angle idx) as [ws |] eqn:Hws;
      cbn [mbind option_bind]; [| discriminate].
    destruct (foldM apply_write out ws) as [out1 |] eqn:Hout1;
      cbn [mbind option_bind]; [| discriminate].
    intros H. destruct (IH _ H) as [Hlen Hframe].
    rewrite Hlen, (apply_writes_length _ _ _ Hout1). split; [reflexivity |].
    intros j Hj. rewrite Hframe.
    2: { intros idx' v g l Hidx'. apply Hj. right. exact Hidx'. }
    apply (apply_writes_frame _ _ _ _ Hout1). intros w Hw.
    unfold index_writes in Hws.
    destruct (verts bm !! idx) as [v |] eqn:Hv; [| discriminate].
    cbn [mbind option_bind] in Hws.
    destruct (vertex_writes_index _ _ _ _ Hws Hw) as (g & l & Hg & Hl & <-).
    apply (Hj idx v g l); [left | exact Hv | exact Hg | exact Hl].
Qed.

(** A serial run on an array [out] of a mesh of at most 2^53 vertices
    returns exactly when automatic smoothing is enabled in the preferences
    (the other branch evaluates [math.pi] without [math] being imported),
    every shading group has a corner ([max] of an empty group raises) and
    every corner index is below the length of [out]; otherwise it raises. *)
Theorem serial_run_returns_iff (bm : BMesh) (out : list Vector) :
  (Z.of_nat (length (verts bm)) <= 2 ^ 53)%Z ->
  (is_Some (execute_serial bm out) <->
   use_auto_smooth = true /\
   forall v g,
     v ∈ verts bm -> g ∈ split_loops v smooth_angle use_flat_faces ->
     g <> [] /\ forall l, l ∈ g -> index l < length out).
Proof.
  intros Hn. destruct use_auto_smooth eqn:Hauto.
  - rewrite execute_serial_writes by assumption. split.
    + intros Hs. split; [reflexivity |].
      destruct (mesh_writes smooth_angle (verts bm)) as [ws |] eqn:Hws;
        [| destruct Hs as [? [=]]].
      assert (Hne : groups_nonempty smooth_angle (verts bm)).
      { apply mesh_writes_is_Some. eexists; exact Hws. }
      rewrite mesh_writes_spec in Hws by exact Hne. injection Hws as <-.
      cbn [mbind option_bind] in Hs. rewrite apply_writes_is_Some in Hs.
      intros v g Hv Hg. split; [apply (Hne v g Hv Hg) |]. intros l Hl.
      apply (Hs (corner_write (v, g, l))). apply list_elem_of_fmap_2.
      apply elem_of_corners. simpl. auto.
    + intros [_ H].
      rewrite mesh_writes_spec by (intros v g Hv Hg; apply (H v g Hv Hg)).
      cbn [mbind option_bind]. apply apply_writes_is_Some. intros w Hw.
      apply list_elem_of_fmap in Hw as (c & -> & Hc).
      apply elem_of_corners in Hc as (Hv & Hg & Hl). simpl.
      apply (H _ _ Hv Hg), Hl.
  - split.
    + intros [x H]. unfold execute_serial in H.
      rewrite worker_name_error in H; [discriminate |].
      unfold worker_smooth_angle. rewrite Hauto. reflexivity.
    + intros [[=] _].
Qed.

(** A worker that returns leaves the array at its length and changes no
    slot other than those of the corners of the shading groups of the
    vertices [first .. last - 1] of its own chunk. *)
Theorem worker_writes_own_corners (bm : BMesh) (out out' : list Vector)
    (chunk total : nat) :
  worker bm out chunk total = Some out' ->
  exists first last,
    chunk_range chunk total (length (verts bm)) = Some (first, last) /\
    length out' = length out /\
    forall j,
      (forall idx v g l,
         first <= idx < last -> verts bm !! idx = Some v ->
         g ∈ split_loops v smooth_angle use_flat_faces -> l ∈ g ->
         index l <> j) ->
      out' !! j = out !! j.
Proof.
  intros H. destruct total as [| t].
  { rewrite worker_zero_division in H. discriminate. }
  destruct use_auto_smooth eqn:Hauto.
  2: { rewrite worker_name_error in H; [discriminate |].
       unfold worker_smooth_angle. rewrite Hauto. reflexivity. }
  assert (Ha : worker_smooth_angle = Some smooth_angle).
  { unfold worker_smooth_angle. rewrite Hauto. reflexivity. }
  rewrite (worker_seq _ _ _ _ smooth_angle) in H by (lia || exact Ha).
  set (n := length (verts bm)) in *.
  exists (bound (S t) n chunk), (bound (S t) n (S chunk)).
  split; [apply chunk_range_bound; lia |].
  destruct (process_indices_frame _ _ _ _ _ H) as [Hlen Hframe].
  split; [exact Hlen |]. intros j Hj. apply Hframe.
  intros idx v g l Hidx. apply Hj. apply elem_of_seq in Hidx. lia.
Qed.

(** On a platform whose [os.name] is ['nt'] or ['posix'], or for a mesh of
    at most 5000 vertices, an [execute] that returns hands
    [normals_split_custom_set] one normal per loop of the mesh: for a
    corner of a shading group the normal of that group, and the zero vector
    for a loop that is in no shading group.  (Each loop index belongs to
    one corner of one group, and the mesh has at most 2^53 vertices.) *)
Theorem execute_commits (os_name : string) (num_procs : nat) (bm : BMesh)
    (nloops : nat) (normals : list Vector) :
  os_name = "nt" \/ os_name = "posix" \/ length (verts bm) <= 5000 ->
  (Z.of_nat (length (verts bm)) <= 2 ^ 53)%Z ->
  NoDup ((fun c => index c.2) <$> corners smooth_angle (verts bm)) ->
  execute os_name num_procs bm nloops = Some normals ->
  length normals = nloops /\
  (forall v g l,
     v ∈ verts bm -> g ∈ split_loops v smooth_angle use_flat_faces ->
     l ∈ g ->
     exists vn,
       group_normal (weight v) g = Some vn /\
       normals !! index l = Some vn) /\
  (forall j,
     j < nloops ->
     (forall v g l,
        v ∈ verts bm -> g ∈ split_loops v smooth_angle use_flat_faces ->
        l ∈ g -> index l <> j) ->
     normals !! j = Some vzero).
Proof.
  intros Hos Hn Hnd H.
  assert (Hserial : execute_serial bm (replicate nloops vzero) = Some normals).
  { unfold execute in H.
    destruct (bool_decide (5000 < length (verts bm))) eqn:Hbig;
      cbn [andb] in H; [| exact H].
    destruct (bool_decide (os_name ∈ ["nt"; "posix"])) eqn:Hname;
      cbn [negb] in H; [exact H |].
    apply bool_decide_eq_true in Hbig. apply bool_decide_eq_false in Hname.
    exfalso. destruct Hos as [-> | [-> | Hsmall]]; [| | lia].
    - apply Hname. left.
    - apply Hname. right. left. }
  clear H Hos.
  assert (Hsome : is_Some (execute_serial bm (replicate nloops vzero))).
  { eexists; exact Hserial. }
  apply (serial_run_returns_iff bm _ Hn) in Hsome as [Hauto Hgroups].
  rewrite execute_serial_writes in Hserial by assumption.
  rewrite mesh_writes_spec in Hserial
    by (intros v g Hv Hg; apply (Hgroups v g Hv Hg)).
  cbn [mbind option_bind] in Hserial.
  split; [| split].
  - rewrite (apply_writes_length _ _ _ Hserial). apply length_replicate.
  - intros v g l Hv Hg Hl.
    destruct (proj2 (group_normal_is_Some (weight v) g)
                (proj1 (Hgroups v g Hv Hg))) as [vn Hvn].
    exists vn. split; [exact Hvn |].
    assert (Hc : (v, g, l) ∈ corners smooth_angle (verts bm)).
    { apply elem_of_corners. simpl. auto. }
    assert (E : corner_write (v, g, l) = (index l, vn)).
    { unfold corner_write, normal_of_group. cbn [fst snd]. rewrite Hvn.
      reflexivity. }
    apply (apply_writes_lookup _ _ _ (index l, vn) Hserial).
    + rewrite <- list_fmap_compose. exact Hnd.
    + rewrite <- E. apply list_elem_of_fmap_2, Hc.
  - intros j Hj Hfree.
    rewrite (apply_writes_frame _ _ _ j Hserial).
    + apply lookup_replicate_2, Hj.
    + intros w Hw. apply list_elem_of_fmap in Hw as (c & -> & Hc).
      apply elem_of_corners in Hc as (Hv & Hg & Hl). simpl.
      apply (Hfree _ _ _ Hv Hg Hl).
Qed.

End Run.

(** ** The two triangles *)

Import Scenario.

Lemma serial_run_returns_iff_witness :
  (Z.of_nat (length (verts two_triangles)) <= 2 ^ 53)%Z /\
  (is_Some (execute_serial two_triangles split_normals) <->
   use_auto_smooth = true /\
   forall v g,
     v ∈ verts two_triangles ->
     g ∈ split_loops v smooth_angle use_flat_faces ->
     g <> [] /\ forall l, l ∈ g -> index l < length split_normals).
Proof.
  assert (H : (Z.of_nat (length (verts two_triangles)) <= 2 ^ 53)%Z)
    by (vm_compute; discriminate).
  split; [exact H |].
  exact (serial_run_returns_iff two_triangles split_normals H).
Defined.

(** Worker 1 of 3 on the two triangles visits vertex 1 alone and leaves the
    slots 0, 2, 4 and 5 as they are. *)
Definition second_of_three : list Vector :=
  Eval vm_compute in
    default [] (worker two_triangles split_normals 1 3).

Lemma worker_writes_own_corners_witness :
  worker two_triangles split_normals 1 3 = Some second_of_three /\
  exists first last,
    chunk_range 1 3 (length (verts two_triangles)) = Some (first, last) /\
    length second_of_three = length split_normals /\
    forall j,
      (forall idx v g l,
         first <= idx < last -> verts two_triangles !! idx = Some v ->
         g ∈ split_loops v smooth_angle use_flat_faces -> l ∈ g ->
         index l <> j) ->
      second_of_three !! j = split_normals !! j.
Proof.
  assert (H : worker two_triangles split_normals 1 3 = Some second_of_three)
    by (vm_compute; reflexivity).
  split; [exact H |].
  exact (worker_writes_own_corners two_triangles split_normals
           second_of_three 1 3 H).
Defined.

Definition committed : list Vector :=
  Eval vm_compute in
    default [] (execute "posix" 0 two_triangles 6).

Lemma execute_commits_witness :
  execute "posix" 0 two_triangles 6 = Some committed /\
  length committed = 6 /\
  (forall v g l,
     v ∈ verts two_triangles ->
     g ∈ split_loops v smooth_angle use_flat_faces -> l ∈ g ->
     exists vn,
       group_normal (weight v) g = Some vn /\
       committed !! index l = Some vn) /\
  (forall j,
     j < 6 ->
     (forall v g l,
        v ∈ verts two_triangles ->
        g ∈ split_loops v smooth_angle use_flat_faces -> l ∈ g ->
        index l <> j) ->
     committed !! j = Some vzero).
Proof.
  assert (H : execute "posix" 0 two_triangles 6 = Some committed)
    by (vm_compute; reflexivity).
  assert (Hn : (Z.of_nat (length (verts two_triangles)) <= 2 ^ 53)%Z)
    by (vm_compute; discriminate).
  assert (Hnd : NoDup ((fun c => index c.2)
                         <$> corners smooth_angle (verts two_triangles))).
  { apply (bool_decide_unpack _). vm_compute. exact I. }
  split; [exact H |].
  exact (execute_commits "posix" 0 two_triangles 6 committed
           (or_intror (or_introl eq_refl)) Hn Hnd H).
Defined.

End UpdateRun.

(** * How far a chunk bound is from the exact quotient

    [int(chunk / total * n)] rounds twice (lines 925-926).  Each rounding
    has a relative error of at most 2^-53, which bounds the distance of the
    result from [chunk * n / total]. *)

Module ChunkPrecision.

Import Binary64.

Local Open Scope Q_scope.

Lemma Qfloor_bounds (x : Q) (b : Z) :
  Qfloor x = b -> inject_Z b <= x /\ x < inject_Z b + 1.
Proof.
  intros <-. pose proof (Qfloor_le x) as H0. pose proof (Qlt_floor x) as H.
  rewrite inject_Z_plus in H. change (inject_Z 1) with 1 in H.
  split; [assumption | exact H].
Qed.

(** The computed bound times [total] is within 3/4 of [chunk * n]. *)
Lemma bound_value_error (chunk total n : Z) :
  (0 <= chunk <= total)%Z -> (1 <= total)%Z -> (0 <= n)%Z ->
  (n * total <= 2 ^ 51)%Z ->
  inject_Z (chunk * n) - (1 # 2) <= bound_value chunk total n * inject_Z total
  /\ bound_value chunk total n * inject_Z total
     <= inject_Z (chunk * n) + (3 # 4).
Proof.
  intros [Hc0 Hct] Ht Hn Hsize. unfold bound_value, py_fmul, py_float.
  assert (HC : 0 <= inject_Z chunk).
  { change 0 with (inject_Z 0). rewrite <- Zle_Qle. exact Hc0. }
  assert (HT : 1 <= inject_Z total).
  { change 1 with (inject_Z 1). rewrite <- Zle_Qle. exact Ht. }
  assert (HN : 0 <= inject_Z n).
  { change 0 with (inject_Z 0). rewrite <- Zle_Qle. exact Hn. }
  assert (HCT : inject_Z chunk <= inject_Z total).
  { rewrite <- Zle_Qle. exact Hct. }
  assert (HS : inject_Z n * inject_Z total <= 2251799813685248).
  { rewrite <- inject_Z_mult. change 2251799813685248 with (inject_Z (2 ^ 51)).
    rewrite <- Zle_Qle. exact Hsize. }
  assert (Hq : 0 <= inject_Z chunk / inject_Z total).
  { apply Qle_shift_div_l; lra. }
  destruct (round64_error _ Hq) as [Hq1 Hq2].
  pose proof (round64_nonneg _ Hq) as Hq0.
  assert (Hfn : round64 (inject_Z n) == inject_Z n).
  { apply round64_int. nia. }
  assert (Hp : 0 <= round64 (inject_Z chunk / inject_Z total)
                    * round64 (inject_Z n)).
  { rewrite Hfn. nra. }
  destruct (round64_error _ Hp) as [Hx1 Hx2].
  rewrite inject_Z_mult.
  assert (HqT : inject_Z chunk / inject_Z total * inject_Z total
                == inject_Z chunk) by (field; lra).
  unfold unit_roundoff in *.
  generalize dependent
    (round64 (round64 (inject_Z chunk / inject_Z total)
              * round64 (inject_Z n))).
  generalize dependent (round64 (inject_Z n)).
  generalize dependent (round64 (inject_Z chunk / inject_Z total)).
  generalize dependent (inject_Z chunk / inject_Z total).
  generalize dependent (inject_Z chunk).
  generalize dependent (inject_Z n).
  generalize dependent (inject_Z total).
  intros T HT N HN HS C HC HCT q Hq HqT q1 Hq1 Hq2 Hq0 fn Hfn Hp x Hx1 Hx2.
  assert (HCN : C * N <= 2251799813685248) by nra.
  assert (HCN0 : 0 <= C * N) by nra.
  assert (Hfn' : fn == N) by exact Hfn.
  assert (HNT : 0 <= N * T) by nra.
  assert (Hp1 : C * N * (1 - (1 # 9007199254740992)) <= q1 * fn * T).
  { pose proof (Qmult_le_compat_r _ _ _ Hq1 HNT) as H.
    assert (E1 : q * (1 - (1 # 9007199254740992)) * (N * T)
                 == C * N * (1 - (1 # 9007199254740992))).
    { rewrite <- HqT. ring. }
    assert (E2 : q1 * (N * T) == q1 * fn * T) by (rewrite Hfn'; ring).
    rewrite E1, E2 in H. exact H. }
  assert (Hp2 : q1 * fn * T <= C * N * (1 + (1 # 9007199254740992))).
  { pose proof (Qmult_le_compat_r _ _ _ Hq2 HNT) as H.
    assert (E1 : q * (1 + (1 # 9007199254740992)) * (N * T)
                 == C * N * (1 + (1 # 9007199254740992))).
    { rewrite <- HqT. ring. }
    assert (E2 : q1 * (N * T) == q1 * fn * T) by (rewrite Hfn'; ring).
    rewrite E1, E2 in H. exact H. }
  assert (HT0 : 0 <= T) by lra.
  assert (Hpx1 : q1 * fn * T * (1 - (1 # 9007199254740992)) <= x * T).
  { pose proof (Qmult_le_compat_r _ _ _ Hx1 HT0) as H.
    assert (E1 : q1 * fn * (1 - (1 # 9007199254740992)) * T
                 == q1 * fn * T * (1 - (1 # 9007199254740992))) by ring.
    rewrite E1 in H. exact H. }
  assert (Hpx2 : x * T <= q1 * fn * T * (1 + (1 # 9007199254740992))).
  { pose proof (Qmult_le_compat_r _ _ _ Hx2 HT0) as H.
    assert (E1 : q1 * fn * (1 + (1 # 9007199254740992)) * T
                 == q1 * fn * T * (1 + (1 # 9007199254740992))) by ring.
    rewrite E1 in H. exact H. }
  clear Hq1 Hq2 Hx1 Hx2 Hp HqT Hq0 Hfn Hfn' Hq HS HCT.
  generalize dependent (x * T). generalize dependent (q1 * fn * T).
  generalize dependent (C * N). intros E HE HE0 P HP1 HP2 X HX1 HX2.
  split; lra.
Qed.

(** The chunk bound [int(chunk / total * n)] of lines 925-926 is the exact
    quotient [chunk * n // total] or one less, for [0 <= chunk <= total] and
    [n * total <= 2^51]; it is one less only where [total] divides
    [chunk * n], so that the exact bound is a whole number the rounded
    product falls just short of. *)
Theorem chunk_bound_precision (chunk total n b : Z) :
  (0 <= chunk <= total)%Z -> (1 <= total)%Z -> (0 <= n)%Z ->
  (n * total <= 2 ^ 51)%Z ->
  chunk_bound chunk total n = Some b ->
  (chunk * n / total - 1 <= b <= chunk * n / total)%Z /\
  ((chunk * n) mod total <> 0 -> b = chunk * n / total)%Z.
Proof.
  intros Hc Ht Hn Hsize Hb.
  rewrite chunk_bound_value in Hb by lia. injection Hb as Hb.
  rewrite py_int_nonneg in Hb by (apply bound_value_nonneg; lia).
  destruct (bound_value_error chunk total n Hc Ht Hn Hsize) as [Hlo Hhi].
  destruct (Qfloor_bounds _ _ Hb) as [Hb1 Hb2].
  assert (HT : 1 <= inject_Z total).
  { change 1 with (inject_Z 1). rewrite <- Zle_Qle. exact Ht. }
  assert (Hbt1 : inject_Z (b * total)
                 <= bound_value chunk total n * inject_Z total).
  { rewrite inject_Z_mult. apply Qmult_le_compat_r; lra. }
  assert (Hbt2 : bound_value chunk total n * inject_Z total
                 < inject_Z ((b + 1) * total)).
  { rewrite inject_Z_mult, inject_Z_plus. change (inject_Z 1) with 1.
    apply Qmult_lt_compat_r; lra. }
  assert (H1 : (b * total <= chunk * n)%Z).
  { destruct (Z_le_gt_dec (b * total) (chunk * n)) as [H | H]; [exact H |].
    exfalso.
    assert (H' : inject_Z (chunk * n) + 1 <= inject_Z (b * total)).
    { change 1 with (inject_Z 1). rewrite <- inject_Z_plus, <- Zle_Qle. lia. }
    lra. }
  assert (H2 : (chunk * n <= (b + 1) * total)%Z).
  { destruct (Z_le_gt_dec (chunk * n) ((b + 1) * total)) as [H | H];
      [exact H |].
    exfalso.
    assert (H' : inject_Z ((b + 1) * total) + 1 <= inject_Z (chunk * n)).
    { change 1 with (inject_Z 1). rewrite <- inject_Z_plus, <- Zle_Qle. lia. }
    lra. }
  pose proof (Z.div_mod (chunk * n) total ltac:(lia)) as Hdiv.
  pose proof (Z.mod_pos_bound (chunk * n) total ltac:(lia)) as Hmod.
  split; [split |]; [nia | nia |]. intros Hr. nia.
Qed.

(** Worker 7 of 10 on 5760 vertices: the exact bound is 4032, the computed
    one 4031. *)
Lemma chunk_bound_precision_witness :
  chunk_bound 7 10 5760 = Some 4031%Z /\
  ((7 * 5760 / 10 - 1 <= 4031 <= 7 * 5760 / 10)%Z /\
   ((7 * 5760) mod 10 <> 0 -> 4031 = 7 * 5760 / 10)%Z).
Proof.
  assert (H : chunk_bound 7 10 5760 = Some 4031%Z) by (vm_compute; reflexivity).
  split; [exact H |].
  exact (chunk_bound_precision 7 10 5760 4031 ltac:(lia) ltac:(lia) ltac:(lia)
           ltac:(lia) H).
Defined.

End ChunkPrecision.

(** * The merge as a whole

    What a run of the merge (lines 644-742) leaves in the layers, and what
    the clusters of the grid look like. *)

Module MergeRun.

Import Merge.

(** ** The clusters of the grid *)

(** The 27 cells around the origin. *)
Definition offsets : list Cell := Eval vm_compute in neighbourhood (0, 0, 0)%Z.

Definition shift (c o : Cell) : Cell :=
  (c.1.1 + o.1.1, c.1.2 + o.1.2, c.2 + o.2)%Z.

Lemma neighbourhood_offsets (c : Cell) :
  neighbourhood c = shift c <$> offsets.
Proof.
  destruct c as [[x y] z]. unfold neighbourhood, offsets, shift. simpl.
  repeat (f_equal; try lia).
Qed.

Lemma shift_inj (c o1 o2 : Cell) : shift c o1 = shift c o2 -> o1 = o2.
Proof.
  destruct c as [[x y] z], o1 as [[a1 b1] c1], o2 as [[a2 b2] c2].
  unfold shift. simpl. intros [= H1 H2 H3]. repeat f_equal; lia.
Qed.

Lemma NoDup_neighbourhood (c : Cell) : NoDup (neighbourhood c).
Proof.
  rewrite neighbourhood_offsets. apply NoDup_fmap_2_strong.
  - intros o1 o2 _ _. apply shift_inj.
  - apply (bool_decide_unpack _). vm_compute. exact I.
Qed.

Lemma NoDup_nearby_verts (distance : Q) (indexed : list BMVert) (c : Cell) :
  NoDup indexed -> NoDup (nearby_verts (build_cells distance indexed) c).
Proof.
  intros Hnd. unfold nearby_verts. apply NoDup_bind.
  - intros c1 c2 w _ _ H1 H2. rewrite build_cells_lookup in H1, H2.
    apply list_elem_of_filter in H1 as [<- _].
    apply list_elem_of_filter in H2 as [<- _]. reflexivity.
  - intros c' _. rewrite build_cells_lookup. apply NoDup_filter, Hnd.
  - apply NoDup_neighbourhood.
Qed.

Lemma NoDup_mergeable_verts (distance : Q) (indexed : list BMVert)
    (v : BMVert) :
  NoDup indexed ->
  NoDup (mergeable_verts distance (build_cells distance indexed) v).
Proof.
  intros Hnd. unfold mergeable_verts. apply NoDup_filter.
  apply NoDup_nearby_verts, Hnd.
Qed.

Lemma mergeable_indexed (distance : Q) (indexed : list BMVert)
    (v w : BMVert) :
  w ∈ mergeable_verts distance (build_cells distance indexed) v ->
  w ∈ indexed.
Proof.
  unfold mergeable_verts. rewrite list_elem_of_filter, elem_of_nearby_verts.
  tauto.
Qed.

(** For a merge distance [d > 0], being in the cluster of a seed is a
    symmetric relation between the vertices on the grid: [w] is merged
    into the cluster of [v] exactly when [v] would be merged into the
    cluster of [w]. *)
Theorem cluster_symmetric (distance : Q) (indexed : list BMVert)
    (v w : BMVert) :
  (0 < distance)%Q -> v ∈ indexed -> w ∈ indexed ->
  (w ∈ mergeable_verts distance (build_cells distance indexed) v <->
   v ∈ mergeable_verts distance (build_cells distance indexed) w).
Proof.
  intros Hd Hv Hw. rewrite !elem_of_mergeable_verts.
  split; intros (_ & Hcell & Htest); (split; [assumption |]); split;
    try (apply within_distance_sym, Htest);
    apply elem_of_neighbourhood; apply elem_of_neighbourhood in Hcell; lia.
Qed.

Section Run.

Context {M : Mathutils} {E : Environment}.

Lemma NoDup_indexed_verts (unselected : bool) (bm : BMesh) :
  NoDup (indexed_verts unselected bm).
Proof.
  unfold indexed_verts. destruct unselected; [apply NoDup_bm_verts |].
  rewrite iteration_order_Permutation. apply NoDup_selected.
Qed.

Lemma cluster_indexed (distance : Q) (unselected : bool) (bm : BMesh)
    (loop_normals : nat -> Vector) (layers layers' : Layers)
    (events : list Event) (e : Event) (w : BMVert) :
  execute distance unselected bm loop_normals layers = Some (layers', events) ->
  e ∈ events -> w ∈ cluster e -> w ∈ indexed_verts unselected bm.
Proof.
  intros Hrun He Hw. destruct (execute_events _ _ _ _ _ _ _ Hrun) as [_ Hev].
  destruct (Hev e He) as [_ Heq]. rewrite Heq in Hw. cbn [cluster iteration] in Hw.
  apply (mergeable_indexed _ _ _ _ Hw).
Qed.

(** What no written cluster holds is not changed. *)
Lemma merge_layers_frame (distance : Q) (unselected : bool)
    (bm : BMesh) (loop_normals : nat -> Vector) (layers layers' : Layers)
    (events : list Event) :
  execute distance unselected bm loop_normals layers = Some (layers', events) ->
  (forall i,
     (forall e, e ∈ events -> wrote e = true -> i ∉ fst <$> cluster e) ->
     vertex_normal_weight layers' !! i = vertex_normal_weight layers !! i) /\
  (forall loop,
     (forall e v, e ∈ events -> wrote e = true -> v ∈ cluster e ->
                  loop ∉ link_loops v.2) ->
     loop_normal layers' !! loop = loop_normal layers !! loop).
Proof.
  intros Hrun. destruct (execute_events _ _ _ _ _ _ _ Hrun) as [-> _].
  split.
  - intros i Hno. rewrite events_weight_lookup.
    rewrite decide_False; [reflexivity |].
    intros H. apply Exists_exists in H as (e & He & Hw & Hi).
    apply (Hno e He Hw Hi).
  - intros loop Hno. apply events_loop_frame.
    intros H. apply Exists_exists in H as (e & He & Hw & Hex).
    apply Exists_exists in Hex as (v & Hv & Hl).
    apply (Hno e v He Hw Hv Hl).
Qed.

(** A run of the merge changes the weight of exactly the members of the
    clusters it wrote, to UNWEIGHTED, and the loop layers of exactly the
    corners of those members, to the transform of the normal of a cluster
    the corner's vertex is a member of; every other vertex and every other
    loop keeps what the layers held before. *)
Theorem merge_writes_clusters_only (distance : Q) (unselected : bool)
    (bm : BMesh) (loop_normals : nat -> Vector) (layers layers' : Layers)
    (events : list Event) :
  execute distance unselected bm loop_normals layers = Some (layers', events) ->
  (forall i e,
     e ∈ events -> wrote e = true -> i ∈ fst <$> cluster e ->
     vertex_normal_weight layers' !! i = Some unweighted_value) /\
  (forall i,
     (forall e, e ∈ events -> wrote e = true -> i ∉ fst <$> cluster e) ->
     vertex_normal_weight layers' !! i = vertex_normal_weight layers !! i) /\
  (forall loop e v,
     e ∈ events -> wrote e = true -> v ∈ cluster e ->
     loop ∈ link_loops v.2 ->
     exists e' v',
       e' ∈ events /\ wrote e' = true /\ v' ∈ cluster e' /\
       loop ∈ link_loops v'.2 /\
       loop_normal layers' !! loop
       = Some (loop_space_transform loop (vn_local e'))) /\
  (forall loop,
     (forall e v, e ∈ events -> wrote e = true -> v ∈ cluster e ->
                  loop ∉ link_loops v.2) ->
     loop_normal layers' !! loop = loop_normal layers !! loop).
Proof.
  intros Hrun.
  destruct (merge_layers_frame _ _ _ _ _ _ _ Hrun) as [Hweight Hloop].
  destruct (execute_events _ _ _ _ _ _ _ Hrun) as [-> _].
  split; [| split; [exact Hweight | split; [| exact Hloop]]].
  - intros i e He Hw Hi. rewrite events_weight_lookup.
    rewrite decide_True; [reflexivity |].
    apply Exists_exists. exists e. split; [exact He |]. split; assumption.
  - intros loop e v He Hw Hv Hl.
    destruct (events_loop_written events layers loop) as (e' & He' & Hw' & Hl').
    { apply Exists_exists. exists e. split; [exact He |].
      split; [exact Hw |]. apply Exists_exists. exists v. split; assumption. }
    destruct Hw' as [Hw' Hex]. apply Exists_exists in Hex as (v' & Hv' & Hlv').
    exists e', v'. repeat split; assumption.
Qed.

(** With the option [unselected] off, a run of the merge leaves the weight
    of every unselected vertex, and every loop that is a corner of no
    selected vertex, as they were. *)
Theorem merge_leaves_unselected (distance : Q) (bm : BMesh)
    (loop_normals : nat -> Vector) (layers layers' : Layers)
    (events : list Event) :
  execute distance false bm loop_normals layers = Some (layers', events) ->
  (forall v,
     v ∈ bm_verts bm -> select v.2 = false ->
     vertex_normal_weight layers' !! v.1
     = vertex_normal_weight layers !! v.1) /\
  (forall loop,
     (forall v, v ∈ selected bm -> loop ∉ link_loops v.2) ->
     loop_normal layers' !! loop = loop_normal layers !! loop).
Proof.
  intros Hrun.
  destruct (merge_layers_frame _ _ _ _ _ _ _ Hrun) as [Hweight Hloop].
  split.
  - intros v Hv Hsel. apply Hweight. intros e He _ Hi.
    apply list_elem_of_fmap in Hi as (w & Hid & Hw).
    pose proof (cluster_indexed _ _ _ _ _ _ _ _ _ Hrun He Hw) as Hidx.
    apply elem_of_indexed_verts in Hidx as [Hbm [Hu | Hs]]; [discriminate |].
    rewrite (bm_verts_inj bm v w Hv Hbm Hid) in Hsel. congruence.
  - intros loop Hno. apply Hloop. intros e w He _ Hw.
    pose proof (cluster_indexed _ _ _ _ _ _ _ _ _ Hrun He Hw) as Hidx.
    apply elem_of_indexed_verts in Hidx as [Hbm [Hu | Hs]]; [discriminate |].
    apply Hno, elem_of_selected. split; assumption.
Qed.

(** In every iteration of a run, no vertex is in the cluster twice: the
    length of [mergeable_verts] tested at line 726 is the number of
    vertices of the cluster, and each of them enters the averaged normal
    once. *)
Theorem cluster_members_once (distance : Q) (unselected : bool)
    (bm : BMesh) (loop_normals : nat -> Vector) (layers layers' : Layers)
    (events : list Event) :
  execute distance unselected bm loop_normals layers = Some (layers', events) ->
  forall e, e ∈ events -> NoDup (fst <$> cluster e).
Proof.
  intros Hrun e He. apply NoDup_fmap_2_strong.
  - intros v w Hv Hw. apply (bm_verts_inj bm).
    + pose proof (cluster_indexed _ _ _ _ _ _ _ _ _ Hrun He Hv) as H.
      apply elem_of_indexed_verts in H. tauto.
    + pose proof (cluster_indexed _ _ _ _ _ _ _ _ _ Hrun He Hw) as H.
      apply elem_of_indexed_verts in H. tauto.
  - destruct (execute_events _ _ _ _ _ _ _ Hrun) as [_ Hev].
    destruct (Hev e He) as [_ Heq]. rewrite Heq. cbn [cluster iteration].
    apply NoDup_mergeable_verts, NoDup_indexed_verts.
Qed.

End Run.

(** ** Instances *)

Import MergeScenario.

(** Two selected vertices half a unit apart and an unselected one between
    them, each with one corner. *)
Definition bystander : BMesh :=
  {| verts :=
       [ vertex 0 0 0 [0]; vertex (1 # 2) 0 0 [1];
         {| co := {| px := 1 # 4; py := 0; pz := 0 |};
            select := false; link_loops := [2] |} ] |}.

Definition bystander_layers : Layers :=
  Eval vm_compute in
    default no_layers
      (fst <$> execute 1 false bystander flat_normals no_layers).

Definition bystander_events : list Event :=
  Eval vm_compute in
    default [] (snd <$> execute 1 false bystander flat_normals no_layers).

Lemma bystander_run :
  execute 1 false bystander flat_normals no_layers
  = Some (bystander_layers, bystander_events).
Proof. vm_compute. reflexivity. Qed.

Lemma cluster_symmetric_witness :
  (0 < 1)%Q /\
  ((1, vertex (3 # 4) 0 0 [])
     ∈ mergeable_verts 1 (build_cells 1 (bm_verts line)) (0, vertex 0 0 0 [])
   <->
   (0, vertex 0 0 0 [])
     ∈ mergeable_verts 1 (build_cells 1 (bm_verts line))
         (1, vertex (3 # 4) 0 0 [])).
Proof.
  assert (Hd : (0 < 1)%Q) by reflexivity.
  assert (Hv : (0, vertex 0 0 0 []) ∈ bm_verts line).
  { vm_compute. apply list_elem_of_here. }
  assert (Hw : (1, vertex (3 # 4) 0 0 []) ∈ bm_verts line).
  { vm_compute. apply list_elem_of_further, list_elem_of_here. }
  split; [exact Hd |].
  exact (cluster_symmetric 1 (bm_verts line) (0, vertex 0 0 0 [])
           (1, vertex (3 # 4) 0 0 []) Hd Hv Hw).
Defined.

Lemma merge_writes_clusters_only_witness :
  execute millimetre false coincident flat_normals no_layers
  = Some (coincident_layers, coincident_events) /\
  (forall i e,
     e ∈ coincident_events -> wrote e = true -> i ∈ fst <$> cluster e ->
     vertex_normal_weight coincident_layers !! i = Some unweighted_value) /\
  (forall i,
     (forall e, e ∈ coincident_events -> wrote e = true ->
                i ∉ fst <$> cluster e) ->
     vertex_normal_weight coincident_layers !! i
     = vertex_normal_weight no_layers !! i) /\
  (forall loop e v,
     e ∈ coincident_events -> wrote e = true -> v ∈ cluster e ->
     loop ∈ link_loops v.2 ->
     exists e' v',
       e' ∈ coincident_events /\ wrote e' = true /\ v' ∈ cluster e' /\
       loop ∈ link_loops v'.2 /\
       loop_normal coincident_layers !! loop
       = Some (loop_space_transform loop (vn_local e'))) /\
  (forall loop,
     (forall e v, e ∈ coincident_events -> wrote e = true -> v ∈ cluster e ->
                  loop ∉ link_loops v.2) ->
     loop_normal coincident_layers !! loop = loop_normal no_layers !! loop).
Proof.
  split; [exact coincident_run |].
  exact (merge_writes_clusters_only millimetre false coincident
           flat_normals no_layers coincident_layers coincident_events
           coincident_run).
Defined.

Lemma merge_leaves_unselected_witness :
  execute 1 false bystander flat_normals no_layers
  = Some (bystander_layers, bystander_events) /\
  (forall v,
     v ∈ bm_verts bystander -> select v.2 = false ->
     vertex_normal_weight bystander_layers !! v.1
     = vertex_normal_weight no_layers !! v.1) /\
  (forall loop,
     (forall v, v ∈ selected bystander -> loop ∉ link_loops v.2) ->
     loop_normal bystander_layers !! loop = loop_normal no_layers !! loop).
Proof.
  split; [exact bystander_run |].
  exact (merge_leaves_unselected 1 bystander flat_normals no_layers
           bystander_layers bystander_events bystander_run).
Defined.

Lemma cluster_members_once_witness :
  execute millimetre false coincident flat_normals no_layers
  = Some (coincident_layers, coincident_events) /\
  forall e, e ∈ coincident_events -> NoDup (fst <$> cluster e).
Proof.
  split; [exact coincident_run |].
  exact (cluster_members_once millimetre false coincident flat_normals
           no_layers coincident_layers coincident_events coincident_run).
Defined.

End MergeRun.

(** * The operators that edit the layers

    [MESH_OT_ManageVertexNormalWeight] (lines 122-176),
    [MESH_OT_ManageFaceNormalInfluence] (lines 210-249) and
    [MESH_OT_SetNormalVector] (lines 585-615), on the mesh and the layers
    of the merge.  The recomputation these operators end with writes split
    normals only; it changes neither the selection nor the layers, and is
    recorded as a flag. *)

Module Manage.

Import Merge.

(** The property [action] of the two managing operators. *)
Inductive Action := GET | SET.

#[export] Instance weight_eq_dec : EqDecision Update.VertexNormalWeight.
Proof. solve_decision. Defined.

(** [element[layer]] of an integer layer: a new layer holds 0 everywhere. *)
Definition layer_value (layer : gmap nat Z) (i : nat) : Z :=
  default 0%Z (layer !! i).

(** [for x in xs: x[layer] = value], by the identity of the elements *)
Definition assign_all (value : Z) (ids : list nat) (layer : gmap nat Z)
  : gmap nat Z :=
  foldl (fun layer i => <[i := value]> layer) layer ids.

Lemma assign_all_lookup (value : Z) (ids : list nat) (layer : gmap nat Z)
    (i : nat) :
  assign_all value ids layer !! i
  = if decide (i ∈ ids) then Some value else layer !! i.
Proof.
  unfold assign_all. revert layer.
  induction ids as [| j ids IH]; intros layer.
  - rewrite decide_False; [reflexivity | intros H; inversion H].
  - cbn [foldl]. rewrite IH.
    rewrite (decide_ext _ _ _ _ (elem_of_cons ids i j)).
    destruct (decide (i ∈ ids)) as [Hin | Hout].
    + rewrite decide_True by (right; exact Hin). reflexivity.
    + destruct (decide (i = j)) as [-> | Hne].
      * rewrite lookup_insert_eq. rewrite decide_True by (left; reflexivity).
        reflexivity.
      * rewrite lookup_insert_ne by congruence.
        rewrite decide_False by tauto. reflexivity.
Qed.

Lemma assign_all_value (value : Z) (ids : list nat) (layer : gmap nat Z)
    (i : nat) :
  layer_value (assign_all value ids layer) i
  = if decide (i ∈ ids) then value else layer_value layer i.
Proof.
  unfold layer_value. rewrite assign_all_lookup.
  destruct (decide (i ∈ ids)); reflexivity.
Qed.

(** ** Vertices *)

(** [v.select = flag i] for every vertex. *)
Definition select_verts (flag : nat -> bool) (bm : BMesh) : BMesh :=
  {| verts := imap (fun i v => {| co := co v; select := flag i;
                                  link_loops := link_loops v |}) (verts bm) |}.

Lemma select_verts_lookup (flag : nat -> bool) (bm : BMesh) (i : nat) :
  verts (select_verts flag bm) !! i
  = (fun v => {| co := co v; select := flag i; link_loops := link_loops v |})
      <$> verts bm !! i.
Proof. unfold select_verts. cbn [verts]. apply list_lookup_imap. Qed.

Lemma elem_of_selected_ids (bm : BMesh) (i : nat) :
  i ∈ fst <$> selected bm <->
  exists v, verts bm !! i = Some v /\ select v = true.
Proof.
  rewrite list_elem_of_fmap. split.
  - intros ([j v] & -> & Hv). apply elem_of_selected in Hv as [Hs Hv].
    apply elem_of_bm_verts in Hv. exists v. split; assumption.
  - intros (v & Hv & Hs). exists (i, v). split; [reflexivity |].
    apply elem_of_selected. split; [exact Hs |].
    apply elem_of_bm_verts. exact Hv.
Qed.

Lemma selected_ids_of_vertex (bm : BMesh) (v : BMVert) :
  v ∈ bm_verts bm -> (v.1 ∈ fst <$> selected bm <-> select v.2 = true).
Proof.
  intros Hv. apply elem_of_bm_verts in Hv. rewrite elem_of_selected_ids.
  split.
  - intros (w & Hw & Hs). rewrite Hv in Hw. injection Hw as <-. exact Hs.
  - intros Hs. exists v.2. split; assumption.
Qed.

Section Operators.

Context {M : Mathutils} {E : Environment}.

(** What the operators take from [types.py] and from the mesh. *)
Class Types := {
  (** [types.VertexNormalWeight[name].value] *)
  weight_value : Update.VertexNormalWeight -> Z;
  (** [loop.calc_normal()], by the index of the loop *)
  calc_normal : nat -> Vector
}.

Context {T : Types}.

(** The mesh and the layers an operator leaves, and whether it ended with
    [bpy.ops.mesh.yavne_update_vertex_normals()]. *)
Record Result := {
  mesh : BMesh;
  layers_after : Layers;
  recomputed : bool
}.

(** Lines 162-168: the corners of the selected vertices get their own
    normal, in loop space. *)
Definition assign_corner_normals (selected_verts : list BMVert)
    (layer : gmap nat Vector) : gmap nat Vector :=
  foldl (fun layer v =>
           foldl (fun layer loop =>
                    <[loop := loop_space_transform loop (calc_normal loop)]>
                      layer)
             layer (link_loops v.2))
    layer selected_verts.

(** [MESH_OT_ManageVertexNormalWeight.execute] *)
Definition manage_vertex_normal_weight (action : Action)
    (type : Update.VertexNormalWeight) (update : bool) (bm : BMesh)
    (layers : Layers) : Result :=
  let vertex_normal_weight_value := weight_value type in
  match action with
  | GET =>
      {| mesh :=
           select_verts
             (fun i => bool_decide
                         (layer_value (vertex_normal_weight layers) i
                          = vertex_normal_weight_value))
             bm;
         layers_after := layers;
         recomputed := false |}
  | SET =>
      let selected_verts := selected bm in
      let weights :=
        assign_all vertex_normal_weight_value (fst <$> selected_verts)
          (vertex_normal_weight layers) in
      {| mesh := bm;
         layers_after :=
           {| vertex_normal_weight := weights;
              loop_normal :=
                if decide (type = Update.UNWEIGHTED)
                then assign_corner_normals selected_verts (loop_normal layers)
                else loop_normal layers |};
         recomputed := update |}
  end.

(** [MESH_OT_SetNormalVector.execute]: [to_local] is the product with
    [edit_object.matrix_world.inverted_safe()]. *)
Definition set_normal_vector (to_local : Vector -> Vector)
    (normal_buffer : Vector) (bm : BMesh) (layers : Layers) : Layers :=
  let vn_local := to_local normal_buffer in
  foldl (assign_vertex vn_local) layers (selected bm).

Lemma assign_corner_normals_lookup (selected_verts : list BMVert)
    (layer : gmap nat Vector) (loop : nat) :
  assign_corner_normals selected_verts layer !! loop
  = if decide (Exists (fun v : nat * Vert => loop ∈ link_loops v.2)
                 selected_verts)
    then Some (loop_space_transform loop (calc_normal loop))
    else layer !! loop.
Proof.
  unfold assign_corner_normals. revert layer.
  induction selected_verts as [| v vs IH]; intros layer.
  - rewrite decide_False; [reflexivity | intros H; inversion H].
  - cbn [foldl]. rewrite IH.
    rewrite (assign_loops_lookup
               (fun l => loop_space_transform l (calc_normal l))).
    rewrite (decide_ext _ _ _ _
               (Exists_cons (fun v : nat * Vert => loop ∈ link_loops v.2)
                  v vs)).
    destruct (decide (Exists (fun v : nat * Vert => loop ∈ link_loops v.2) vs))
      as [Hin | Hout].
    + rewrite decide_True by tauto. reflexivity.
    + destruct (decide (loop ∈ link_loops v.2)) as [Hl | Hl].
      * rewrite decide_True by tauto. reflexivity.
      * rewrite decide_False by tauto. reflexivity.
Qed.

(** SET leaves the selection as it is, gives every selected vertex the
    weight of the chosen type and leaves the weight of every other vertex;
    it changes the loop layers for the type UNWEIGHTED only, where every
    corner of a selected vertex gets its own normal in loop space and every
    other loop is left; and it ends with the recomputation exactly when
    [update] is set. *)
Theorem set_weight_assigns_selection (type : Update.VertexNormalWeight)
    (update : bool) (bm : BMesh) (layers : Layers) :
  let r := manage_vertex_normal_weight SET type update bm layers in
  mesh r = bm /\ recomputed r = update /\
  (forall v,
     v ∈ bm_verts bm ->
     layer_value (vertex_normal_weight (layers_after r)) v.1
     = if select v.2 then weight_value type
       else layer_value (vertex_normal_weight layers) v.1) /\
  (forall loop,
     loop_normal (layers_after r) !! loop
     = if decide (type = Update.UNWEIGHTED /\
                  Exists (fun v : nat * Vert => loop ∈ link_loops v.2)
                    (selected bm))
       then Some (loop_space_transform loop (calc_normal loop))
       else loop_normal layers !! loop).
Proof.
  cbn zeta. unfold manage_vertex_normal_weight.
  cbn [mesh recomputed layers_after vertex_normal_weight loop_normal].
  split; [reflexivity |]. split; [reflexivity |]. split.
  - intros v Hv. rewrite assign_all_value.
    pose proof (selected_ids_of_vertex bm v Hv) as Hsel.
    destruct (decide (v.1 ∈ fst <$> selected bm)) as [Hin | Hout].
    + rewrite (proj1 Hsel Hin). reflexivity.
    + destruct (select v.2); [| reflexivity]. exfalso. apply Hout, Hsel.
      reflexivity.
  - intros loop. destruct (decide (type = Update.UNWEIGHTED)) as [Ht | Ht].
    + rewrite assign_corner_normals_lookup.
      destruct (decide (Exists (fun v : nat * Vert => loop ∈ link_loops v.2)
                          (selected bm))) as [Hin | Hout].
      * rewrite decide_True by tauto. reflexivity.
      * rewrite decide_False by tauto. reflexivity.
    + rewrite decide_False by tauto. reflexivity.
Qed.

(** SET followed by GET of the same type: the layers are those SET left,
    and a vertex is selected afterwards exactly when it was selected before
    or already had the weight of that type; every vertex selected before
    stays selected. *)
Theorem set_then_get_keeps_selection (type : Update.VertexNormalWeight)
    (update1 update2 : bool) (bm : BMesh) (layers : Layers) :
  let r1 := manage_vertex_normal_weight SET type update1 bm layers in
  let r2 := manage_vertex_normal_weight GET type update2 (mesh r1)
              (layers_after r1) in
  layers_after r2 = layers_after r1 /\ recomputed r2 = false /\
  forall i v,
    verts bm !! i = Some v ->
    verts (mesh r2) !! i
    = Some {| co := co v;
              select := select v
                        || bool_decide
                             (layer_value (vertex_normal_weight layers) i
                              = weight_value type);
              link_loops := link_loops v |}.
Proof.
  cbn zeta. unfold manage_vertex_normal_weight.
  cbn [mesh recomputed layers_after vertex_normal_weight loop_normal].
  split; [reflexivity |]. split; [reflexivity |].
  intros i v Hv. rewrite select_verts_lookup, Hv.
  cbn [fmap option_fmap option_map].
  do 2 f_equal. rewrite assign_all_value.
  destruct (decide (i ∈ fst <$> selected bm)) as [Hin | Hout].
  - apply elem_of_selected_ids in Hin as (w & Hw & Hs).
    rewrite Hv in Hw. injection Hw as <-. rewrite Hs.
    rewrite bool_decide_eq_true_2 by reflexivity. reflexivity.
  - destruct (select v) eqn:Hs; [| reflexivity].
    exfalso. apply Hout, elem_of_selected_ids. exists v. split; assumption.
Qed.

(** GET followed by SET of the same type changes the weight of no vertex:
    the vertices GET selects are those that have the weight already. *)
Theorem get_then_set_changes_no_weight (type : Update.VertexNormalWeight)
    (update1 update2 : bool) (bm : BMesh) (layers : Layers) :
  let r1 := manage_vertex_normal_weight GET type update1 bm layers in
  let r2 := manage_vertex_normal_weight SET type update2 (mesh r1)
              (layers_after r1) in
  forall i,
    layer_value (vertex_normal_weight (layers_after r2)) i
    = layer_value (vertex_normal_weight layers) i.
Proof.
  cbn zeta. unfold manage_vertex_normal_weight.
  cbn [mesh recomputed layers_after vertex_normal_weight loop_normal].
  intros i. rewrite assign_all_value.
  destruct (decide (i ∈ fst <$> selected _)) as [Hin | Hout]; [| reflexivity].
  apply elem_of_selected_ids in Hin as (w & Hw & Hs).
  rewrite select_verts_lookup in Hw.
  destruct (verts bm !! i) as [v |]; [| discriminate].
  cbn [fmap option_fmap option_map] in Hw. injection Hw as <-.
  cbn [select] in Hs. apply bool_decide_eq_true in Hs. symmetry. exact Hs.
Qed.

(** [MESH_OT_SetNormalVector] gives every selected vertex the weight
    UNWEIGHTED and every corner of a selected vertex the stored normal,
    taken to object space and then to the space of the corner; the weight
    of every other vertex and every other loop are left.  When UNWEIGHTED
    is the value [types.py] gives that name, a GET of UNWEIGHTED afterwards
    selects every vertex that was selected. *)
Theorem set_normal_vector_assigns (to_local : Vector -> Vector)
    (normal_buffer : Vector) (update : bool) (bm : BMesh) (layers : Layers) :
  let layers' := set_normal_vector to_local normal_buffer bm layers in
  (forall v,
     v ∈ bm_verts bm ->
     vertex_normal_weight layers' !! v.1
     = if select v.2 then Some unweighted_value
       else vertex_normal_weight layers !! v.1) /\
  (forall loop,
     loop_normal layers' !! loop
     = if decide (Exists (fun v : nat * Vert => loop ∈ link_loops v.2)
                    (selected bm))
       then Some (loop_space_transform loop (to_local normal_buffer))
       else loop_normal layers !! loop) /\
  (weight_value Update.UNWEIGHTED = unweighted_value ->
   forall i v,
     verts bm !! i = Some v -> select v = true ->
     verts (mesh (manage_vertex_normal_weight GET Update.UNWEIGHTED update
                    bm layers')) !! i
     = Some v).
Proof.
  cbn zeta. unfold set_normal_vector.
  change (foldl (assign_vertex (to_local normal_buffer)) layers (selected bm))
    with (assign_cluster (to_local normal_buffer) (selected bm) layers).
  destruct (assign_cluster_lookup (to_local normal_buffer) (selected bm) layers)
    as [Hweight Hloop].
  assert (Hsel : forall v,
             v ∈ bm_verts bm ->
             vertex_normal_weight
               (assign_cluster (to_local normal_buffer) (selected bm) layers)
               !! v.1
             = if select v.2 then Some unweighted_value
               else vertex_normal_weight layers !! v.1).
  { intros v Hv. rewrite Hweight.
    pose proof (selected_ids_of_vertex bm v Hv) as Hs.
    destruct (decide (v.1 ∈ fst <$> selected bm)) as [Hin | Hout].
    - rewrite (proj1 Hs Hin). reflexivity.
    - destruct (select v.2); [| reflexivity]. exfalso. apply Hout, Hs.
      reflexivity. }
  split; [exact Hsel |]. split; [exact Hloop |].
  intros Hvalue i v Hv Hs. unfold manage_vertex_normal_weight. cbn [mesh].
  rewrite select_verts_lookup, Hv. cbn [fmap option_fmap option_map].
  assert (Hi : (i, v) ∈ bm_verts bm) by (apply elem_of_bm_verts; exact Hv).
  specialize (Hsel (i, v) Hi). cbn [fst snd] in Hsel. rewrite Hs in Hsel.
  unfold layer_value. rewrite Hsel. cbn [default].
  rewrite bool_decide_eq_true_2 by (symmetry; exact Hvalue).
  destruct v as [c s l]. cbn [select] in Hs. rewrite Hs. reflexivity.
Qed.

End Operators.

(** ** Faces *)

(** [[f for f in bm.faces if f.select]], the faces by their position in
    [bm.faces]; a face is its selection flag. *)
Definition selected_faces (faces : list bool) : list nat :=
  fst <$> filter (fun f => f.2 = true) (imap pair faces).

(** [MESH_OT_ManageFaceNormalInfluence.execute]: [face_normal_influence] is
    [types.FaceNormalInfluence[self.type].value], [total_face_sel] the
    count the mesh reports.  The result is the selection, the layer and
    whether the recomputation ran. *)
Definition manage_face_normal_influence (action : Action)
    (face_normal_influence : Z) (update : bool) (total_face_sel : nat)
    (faces : list bool) (layer : gmap nat Z)
  : list bool * gmap nat Z * bool :=
  match action with
  | GET =>
      (imap (fun i _ => bool_decide (layer_value layer i
                                     = face_normal_influence)) faces,
       layer, false)
  | SET =>
      (faces,
       if decide (total_face_sel <> 0)
       then assign_all face_normal_influence (selected_faces faces) layer
       else layer,
       update)
  end.

Lemma elem_of_selected_faces (faces : list bool) (i : nat) :
  i ∈ selected_faces faces <-> faces !! i = Some true.
Proof.
  unfold selected_faces. rewrite list_elem_of_fmap. split.
  - intros ([j f] & -> & Hf). apply list_elem_of_filter in Hf as [Hs Hf].
    cbn [fst snd] in *. subst f.
    apply elem_of_lookup_imap in Hf as (k & x & [= -> ->] & Hx). exact Hx.
  - intros Hi. exists (i, true). split; [reflexivity |].
    apply list_elem_of_filter. split; [reflexivity |].
    apply elem_of_lookup_imap. exists i, true. split; [reflexivity | exact Hi].
Qed.

Lemma set_influence_lookup (face_normal_influence : Z) (update : bool)
    (total_face_sel : nat) (faces : list bool) (layer : gmap nat Z) :
  total_face_sel = length (selected_faces faces) ->
  let r := manage_face_normal_influence SET face_normal_influence update
             total_face_sel faces layer in
  r.1.1 = faces /\
  forall i,
    r.1.2 !! i
    = if decide (faces !! i = Some true) then Some face_normal_influence
      else layer !! i.
Proof.
  intros Htotal. cbn zeta. unfold manage_face_normal_influence. cbn [fst snd].
  split; [reflexivity |]. intros i.
  destruct (decide (total_face_sel <> 0)) as [Hsome | Hnone].
  - rewrite assign_all_lookup.
    apply (decide_ext _ _ _ _ (elem_of_selected_faces faces i)).
  - rewrite decide_False; [reflexivity |].
    intros Hi. apply elem_of_selected_faces in Hi.
    destruct (selected_faces faces); [inversion Hi |].
    cbn [length] in Htotal. lia.
Qed.

(** SET on faces leaves the selection and ends with the recomputation
    exactly when [update] is set, whether a face is selected or not.  When
    [total_face_sel] is the number of selected faces, every selected face
    gets the influence and every other face keeps its own; with no face
    selected the layer is left as it is. *)
Theorem set_influence_assigns_selection (face_normal_influence : Z)
    (update : bool) (total_face_sel : nat) (faces : list bool)
    (layer : gmap nat Z) :
  let r := manage_face_normal_influence SET face_normal_influence update
             total_face_sel faces layer in
  r.1.1 = faces /\ r.2 = update /\
  (total_face_sel = length (selected_faces faces) ->
   forall i,
     r.1.2 !! i
     = if decide (faces !! i = Some true) then Some face_normal_influence
       else layer !! i) /\
  (selected_faces faces = [] -> r.1.2 = layer).
Proof.
  cbn zeta. split; [reflexivity |]. split; [reflexivity |]. split.
  - intros Htotal.
    apply (set_influence_lookup face_normal_influence update total_face_sel
             faces layer Htotal).
  - intros Hempty. unfold manage_face_normal_influence. cbn [fst snd].
    rewrite Hempty. destruct (decide (total_face_sel <> 0)); reflexivity.
Qed.

(** SET followed by GET of the same influence, with [total_face_sel] the
    number of selected faces: a face is selected afterwards exactly when
    it was selected before or already had that influence. *)
Theorem set_then_get_keeps_faces (face_normal_influence : Z)
    (update1 update2 : bool) (total1 total2 : nat) (faces : list bool)
    (layer : gmap nat Z) :
  total1 = length (selected_faces faces) ->
  let r1 := manage_face_normal_influence SET face_normal_influence update1
              total1 faces layer in
  let r2 := manage_face_normal_influence GET face_normal_influence update2
              total2 r1.1.1 r1.1.2 in
  forall i f,
    faces !! i = Some f ->
    r2.1.1 !! i
    = Some (f || bool_decide (layer_value layer i = face_normal_influence)).
Proof.
  intros Htotal. cbn zeta.
  pose proof (set_influence_lookup face_normal_influence update1
                total1 faces layer Htotal) as H.
  cbn zeta in H. destruct H as [Hfaces Hlayer].
  generalize dependent
    (manage_face_normal_influence SET face_normal_influence update1 total1
       faces layer).
  intros r1 Hfaces Hlayer i f Hi.
  unfold manage_face_normal_influence. cbn [fst snd].
  rewrite (list_lookup_imap
             (fun (i : nat) (_ : bool) =>
                bool_decide (layer_value r1.1.2 i = face_normal_influence))).
  rewrite Hfaces, Hi. cbn [fmap option_fmap option_map].
  f_equal.
  assert (Hv : layer_value r1.1.2 i
               = if f then face_normal_influence else layer_value layer i).
  { unfold layer_value. rewrite (Hlayer i), Hi.
    destruct f; [rewrite decide_True by reflexivity
                | rewrite decide_False by discriminate]; reflexivity. }
  rewrite Hv.
  destruct f; [rewrite bool_decide_eq_true_2 by reflexivity |]; reflexivity.
Qed.

End Manage.

(** * Picking one of the normals of a vertex

    [MESH_OT_GetNormalVector] (lines 370-527): the dispatch of [execute],
    the set-up of [get_vertex_normal] and the events of [modal], on the
    attributes of the operator and the part of the context they touch. *)

Module GetNormal.

Inductive EventType :=
  RET | LEFT_ARROW | RIGHT_ARROW | ESC | LEFTMOUSE | OTHER.
Inductive EventValue := PRESS | RELEASE.
Inductive Status := RUNNING_MODAL | FINISHED | CANCELLED.

Definition Event : Type := EventType * EventValue.

(** [l[i]], with the negative indices of Python; [None] is [IndexError]. *)
Definition py_index {A : Type} (l : list A) (i : Z) : option A :=
  let n := Z.of_nat (length l) in
  if decide (0 <= i < n)%Z then l !! Z.to_nat i
  else if decide (- n <= i < 0)%Z then l !! Z.to_nat (n + i)
  else None.

(** [a % b] on integers: the result has the sign of [b]; [None] is
    [ZeroDivisionError]. *)
Definition py_mod (a b : Z) : option Z :=
  if decide (b = 0%Z) then None else Some (a mod b)%Z.

Section Picker.

Context {M : Mathutils}.

(** The hash order of a set of tuples: [list(set(...))] lists the distinct
    tuples in an order of its own. *)
Variable set_order : list Vector -> list Vector.
Hypothesis set_order_Permutation : forall l, set_order l ≡ₚ l.

(** The three flags of [context.space_data.overlay] the operator saves. *)
Record Overlay := {
  show_vertex_normals : bool;
  show_split_normals : bool;
  show_face_normals : bool
}.

Record State := {
  (** [self.normals], [self.selected_idx], [self.num_normals] *)
  normals : list Vector;
  selected_idx : Z;
  num_normals : Z;
  (** [self.saved_show_...], set together; [None] before they are set *)
  saved : option Overlay;
  (** whether [self.post_view_handle] is set *)
  post_view_handle : bool;
  (** [context.space_data.overlay] *)
  overlay : Overlay;
  (** the number of draw handlers of the 3D view *)
  draw_handlers : nat;
  (** the normal shown in the header of the area, if the header is set *)
  header : option Vector;
  (** [self.addon.preferences.normal_buffer] *)
  normal_buffer : Vector
}.

Definition hidden : Overlay :=
  {| show_vertex_normals := false; show_split_normals := false;
     show_face_normals := false |}.

(** [show_usage] (lines 487-498) *)
Definition show_usage (s : State) : option State :=
  vn_global ← py_index (normals s) (selected_idx s);
  Some {| normals := normals s; selected_idx := selected_idx s;
          num_normals := num_normals s; saved := saved s;
          post_view_handle := post_view_handle s; overlay := overlay s;
          draw_handlers := draw_handlers s; header := Some vn_global;
          normal_buffer := normal_buffer s |}.

(** [store_vertex_normal] (lines 500-505) *)
Definition store_vertex_normal (s : State) : option State :=
  vn_global ← py_index (normals s) (selected_idx s);
  Some {| normals := normals s; selected_idx := selected_idx s;
          num_normals := num_normals s; saved := saved s;
          post_view_handle := post_view_handle s; overlay := overlay s;
          draw_handlers := draw_handlers s; header := header s;
          normal_buffer := vn_global |}.

(** [finish] (lines 508-527): [None] is the [AttributeError] of an
    attribute that was never set. *)
Definition finish (s : State) : option State :=
  saved_overlay ← saved s;
  if post_view_handle s then
    Some {| normals := normals s; selected_idx := selected_idx s;
            num_normals := num_normals s; saved := saved s;
            post_view_handle := post_view_handle s; overlay := saved_overlay;
            draw_handlers := pred (draw_handlers s); header := None;
            normal_buffer := normal_buffer s |}
  else None.

Definition select_idx (i : Z) (s : State) : State :=
  {| normals := normals s; selected_idx := i;
     num_normals := num_normals s; saved := saved s;
     post_view_handle := post_view_handle s; overlay := overlay s;
     draw_handlers := draw_handlers s; header := header s;
     normal_buffer := normal_buffer s |}.

(** [modal] (lines 382-408) *)
Definition modal (s : State) (event : Event) : option (State * Status) :=
  s ← show_usage s;
  match event with
  | (RET, PRESS) =>
      s ← store_vertex_normal s;
      s ← finish s;
      Some (s, FINISHED)
  | (LEFT_ARROW, PRESS) =>
      i ← py_mod (selected_idx s - 1) (num_normals s);
      Some (select_idx i s, RUNNING_MODAL)
  | (RIGHT_ARROW, PRESS) =>
      i ← py_mod (selected_idx s + 1) (num_normals s);
      Some (select_idx i s, RUNNING_MODAL)
  | (ESC, _) =>
      s ← finish s;
      Some (s, CANCELLED)
  | _ => Some (s, RUNNING_MODAL)
  end.

(** [get_vertex_normal] (lines 429-485) for a selected vertex whose
    corners have the world space normals [world_normals]. *)
Definition get_vertex_normal (world_normals : list Vector) (s : State)
  : option (State * Status) :=
  let normals := set_order (Merge.distinct world_normals) in
  let s := {| normals := normals; selected_idx := 0;
              num_normals := Z.of_nat (length normals); saved := saved s;
              post_view_handle := post_view_handle s; overlay := overlay s;
              draw_handlers := draw_handlers s; header := header s;
              normal_buffer := normal_buffer s |} in
  if decide (num_normals s = 0%Z) then Some (s, CANCELLED)
  else if decide (num_normals s = 1%Z) then
    s ← store_vertex_normal s; Some (s, FINISHED)
  else
    Some ({| normals := normals; selected_idx := 0;
             num_normals := num_normals s; saved := Some (overlay s);
             post_view_handle := true; overlay := hidden;
             draw_handlers := S (draw_handlers s); header := header s;
             normal_buffer := normal_buffer s |},
          RUNNING_MODAL).

(** The events the window manager delivers while the operator is modal:
    it stops at the first status that is not [RUNNING_MODAL]. *)
Fixpoint session (s : State) (events : list Event) : option (State * Status) :=
  match events with
  | [] => Some (s, RUNNING_MODAL)
  | event :: events' =>
      r ← modal s event;
      match r.2 with
      | RUNNING_MODAL => session r.1 events'
      | _ => Some r
      end
  end.

(** ** Indexing *)

Lemma py_index_in_range {A : Type} (l : list A) (i : Z) :
  (0 <= i < Z.of_nat (length l))%Z ->
  exists x, py_index l i = Some x /\ l !! Z.to_nat i = Some x.
Proof.
  intros Hi. unfold py_index. rewrite decide_True by exact Hi.
  destruct (lookup_lt_is_Some_2 l (Z.to_nat i)) as [x Hx]; [lia |].
  exists x. split; exact Hx.
Qed.

Lemma py_mod_in_range (a n : Z) :
  (0 < n)%Z -> exists i, py_mod a n = Some i /\ i = (a mod n)%Z /\ (0 <= i < n)%Z.
Proof.
  intros Hn. unfold py_mod. rewrite decide_False by lia.
  exists (a mod n)%Z. split; [reflexivity |]. split; [reflexivity |].
  apply Z.mod_pos_bound, Hn.
Qed.

(** ** The distinct normals *)

Lemma distinct_from (seen vs : list Vector) :
  let step := fun seen v =>
                if existsb (vec_eqb v) seen then seen else seen ++ [v] in
  (forall v, v ∈ foldl step seen vs -> v ∈ seen \/ v ∈ vs) /\
  (seen <> [] -> foldl step seen vs <> []) /\
  (vs <> [] -> foldl step seen vs <> []).
Proof.
  cbn zeta. revert seen. induction vs as [| x vs IH]; intros seen; cbn [foldl].
  - split; [intros v Hv; left; exact Hv |]. split; [tauto | congruence].
  - destruct (IH (if existsb (vec_eqb x) seen then seen else seen ++ [x]))
      as (Hin & Hseen & _).
    split; [| split].
    + intros v Hv. destruct (Hin v Hv) as [H | H].
      * destruct (existsb (vec_eqb x) seen); [left; exact H |].
        apply elem_of_app in H as [H | H]; [left; exact H |].
        apply list_elem_of_singleton in H as ->. right. left.
      * right. right. exact H.
    + intros Hne. apply Hseen.
      destruct (existsb (vec_eqb x) seen); [exact Hne |].
      destruct seen; [contradiction | discriminate].
    + intros _. apply Hseen.
      destruct (existsb (vec_eqb x) seen) eqn:Hex.
      * destruct seen; [discriminate Hex | discriminate].
      * destruct seen; discriminate.
Qed.

Lemma elem_of_distinct (vs : list Vector) (v : Vector) :
  v ∈ Merge.distinct vs -> v ∈ vs.
Proof.
  intros Hv. destruct (distinct_from [] vs) as (Hin & _).
  destruct (Hin v Hv) as [H | H]; [inversion H | exact H].
Qed.


(** ** A session *)

(** What holds between two events of a session that started from the
    context [s0] with the normals [ns]. *)
Definition modal_state (s0 : State) (ns : list Vector) (s : State) : Prop :=
  normals s = ns /\
  num_normals s = Z.of_nat (length ns) /\
  (0 <= selected_idx s < num_normals s)%Z /\
  saved s = Some (overlay s0) /\
  post_view_handle s = true /\
  overlay s = hidden /\
  draw_handlers s = S (draw_handlers s0) /\
  normal_buffer s = normal_buffer s0.

(** What holds when a session has ended. *)
Definition restored (s0 : State) (s : State) : Prop :=
  overlay s = overlay s0 /\
  draw_handlers s = draw_handlers s0 /\
  header s = None.

Lemma modal_step (s0 : State) (ns : list Vector) (s : State) (event : Event) :
  modal_state s0 ns s ->
  exists s' status,
    modal s event = Some (s', status) /\
    match status with
    | RUNNING_MODAL =>
        modal_state s0 ns s' /\
        selected_idx s'
        = match event with
          | (LEFT_ARROW, PRESS) => (selected_idx s - 1) mod num_normals s
          | (RIGHT_ARROW, PRESS) => (selected_idx s + 1) mod num_normals s
          | _ => selected_idx s
          end%Z
    | FINISHED =>
        event = (RET, PRESS) /\ restored s0 s' /\
        ns !! Z.to_nat (selected_idx s) = Some (normal_buffer s')
    | CANCELLED =>
        event.1 = ESC /\ restored s0 s' /\
        normal_buffer s' = normal_buffer s0
    end.
Proof.
  intros (Hns & Hnum & Hidx & Hsaved & Hhandle & Hov & Hdraw & Hbuf).
  assert (Hrange : (0 <= selected_idx s < Z.of_nat (length (normals s)))%Z).
  { rewrite Hns, <- Hnum. exact Hidx. }
  destruct (py_index_in_range _ _ Hrange) as (vn & Hvn & Hlook).
  destruct (py_mod_in_range (selected_idx s - 1) (num_normals s)
              ltac:(lia)) as (il & Hil & -> & Hilr).
  destruct (py_mod_in_range (selected_idx s + 1) (num_normals s)
              ltac:(lia)) as (ir & Hir & -> & Hirr).
  unfold modal, show_usage. rewrite Hvn. cbn [mbind option_bind].
  destruct event as [[] []];
    cbn [mbind option_bind selected_idx num_normals];
    unfold store_vertex_normal, finish;
    cbn [normals selected_idx num_normals saved post_view_handle overlay
         draw_handlers header normal_buffer];
    rewrite ?Hvn, ?Hsaved, ?Hhandle, ?Hil, ?Hir;
    cbn [mbind option_bind];
    eexists _, _; (split; [reflexivity |]);
    cbn [fst snd];
    unfold modal_state, restored, select_idx;
    cbn [normals selected_idx num_normals saved post_view_handle overlay
         draw_handlers header normal_buffer];
    rewrite ?Hdraw; cbn [pred];
    repeat split; try assumption; try reflexivity; try lia.
  rewrite <- Hns. exact Hlook.
Qed.

(** A session that [get_vertex_normal] started never raises, whatever
    events arrive: the index stays inside the list of normals, so neither
    [self.normals[self.selected_idx]] nor the modulo fails.  While it runs
    the three overlay flags are off and the normal buffer is untouched.
    When it ends, the flags have the values they had before the operator
    started, the draw handler is removed and the header is cleared;
    Return stores the normal at the selected index, one of the normals of
    the corners of the vertex, and Escape leaves the buffer as it was. *)
Theorem modal_session_restores (world_normals : list Vector) (s0 s1 : State)
    (events : list Event) :
  get_vertex_normal world_normals s0 = Some (s1, RUNNING_MODAL) ->
  exists s2 status,
    session s1 events = Some (s2, status) /\
    match status with
    | RUNNING_MODAL =>
        (0 <= selected_idx s2 < Z.of_nat (length (normals s1)))%Z /\
        normals s2 = normals s1 /\
        overlay s2 = hidden /\ normal_buffer s2 = normal_buffer s0
    | FINISHED =>
        restored s0 s2 /\ normal_buffer s2 ∈ world_normals
    | CANCELLED =>
        restored s0 s2 /\ normal_buffer s2 = normal_buffer s0
    end.
Proof.
  intros Hstart.
  set (ns := set_order (Merge.distinct world_normals)).
  assert (Hinv : modal_state s0 ns s1 /\ normals s1 = ns).
  { unfold get_vertex_normal in Hstart. fold ns in Hstart.
    cbn [num_normals] in Hstart.
    destruct (decide (Z.of_nat (length ns) = 0%Z)); [discriminate |].
    destruct (decide (Z.of_nat (length ns) = 1%Z)).
    { destruct (store_vertex_normal _); discriminate. }
    injection Hstart as <-. unfold modal_state.
    cbn [normals selected_idx num_normals saved post_view_handle overlay
         draw_handlers header normal_buffer].
    repeat split; try reflexivity; lia. }
  destruct Hinv as [Hinv Hns]. rewrite Hns. clear Hstart Hns.
  assert (Hmem : forall i vn, ns !! i = Some vn -> vn ∈ world_normals).
  { intros i vn Hi. apply elem_of_distinct.
    rewrite <- (set_order_Permutation (Merge.distinct world_normals)).
    apply list_elem_of_lookup_2 in Hi. exact Hi. }
  revert s1 Hinv. induction events as [| event events IH]; intros s1 Hinv.
  - exists s1, RUNNING_MODAL. split; [reflexivity |].
    destruct Hinv as (Hn & Hnum & Hidx & _ & _ & Hov & _ & Hbuf).
    repeat split; try assumption; lia.
  - cbn [session].
    destruct (modal_step s0 ns s1 event Hinv) as (s' & status & Hm & Hpost).
    rewrite Hm. cbn [mbind option_bind fst snd].
    destruct status.
    + apply IH. exact (proj1 Hpost).
    + exists s', FINISHED. split; [reflexivity |].
      destruct Hpost as (_ & Hres & Hlook). split; [exact Hres |].
      apply (Hmem _ _ Hlook).
    + exists s', CANCELLED. split; [reflexivity |].
      destruct Hpost as (_ & Hres & Hbuf). split; assumption.
Qed.

(** Between two events of a session, [k] presses of the right arrow move
    the selection from index [i] to [(i + k) mod n] and [k] presses of the
    left arrow to [(i - k) mod n], for [n] normals: the selection wraps
    around at both ends, and [n] presses of either arrow come back to
    where they started. *)
Theorem arrows_cycle (s0 : State) (ns : list Vector) (s : State) (k : nat) :
  modal_state s0 ns s ->
  (exists s',
     session s (replicate k (RIGHT_ARROW, PRESS)) = Some (s', RUNNING_MODAL) /\
     selected_idx s'
     = ((selected_idx s + Z.of_nat k) mod Z.of_nat (length ns))%Z) /\
  (exists s',
     session s (replicate k (LEFT_ARROW, PRESS)) = Some (s', RUNNING_MODAL) /\
     selected_idx s'
     = ((selected_idx s - Z.of_nat k) mod Z.of_nat (length ns))%Z).
Proof.
  intros Hinv.
  assert (Hgen : forall (event : Event) (d : Z),
             (forall s1, modal_state s0 ns s1 ->
                exists s2,
                  modal s1 event = Some (s2, RUNNING_MODAL) /\
                  modal_state s0 ns s2 /\
                  selected_idx s2
                  = ((selected_idx s1 + d) mod Z.of_nat (length ns))%Z) ->
             exists s',
               session s (replicate k event) = Some (s', RUNNING_MODAL) /\
               selected_idx s'
               = ((selected_idx s + Z.of_nat k * d)
                  mod Z.of_nat (length ns))%Z).
  { intros event d Hstep. revert s Hinv.
    induction k as [| k IH]; intros s Hinv.
    - exists s. split; [reflexivity |].
      destruct Hinv as (_ & Hnum & Hidx & _).
      rewrite Z.add_0_r, Z.mod_small by lia. reflexivity.
    - cbn [replicate session].
      destruct (Hstep s Hinv) as (s2 & Hm & Hinv2 & Hidx2).
      rewrite Hm. cbn [mbind option_bind fst snd].
      destruct (IH s2 Hinv2) as (s' & Hrun & Hidx').
      exists s'. split; [exact Hrun |]. rewrite Hidx', Hidx2.
      destruct Hinv as (_ & Hnum & Hidx & _).
      rewrite Zplus_mod_idemp_l. f_equal. lia. }
  split.
  - destruct (Hgen (RIGHT_ARROW, PRESS) 1%Z) as (s' & Hrun & Hidx).
    { intros s1 Hinv1.
      destruct (modal_step s0 ns s1 (RIGHT_ARROW, PRESS) Hinv1)
        as (s2 & status & Hm & Hpost).
      destruct status;
        [| destruct Hpost as [[=] _] | destruct Hpost as [[=] _]].
      exists s2. split; [exact Hm |]. split; [exact (proj1 Hpost) |].
      rewrite (proj2 Hpost).
      destruct Hinv1 as (_ & -> & _). reflexivity. }
    exists s'. split; [exact Hrun |]. rewrite Hidx. f_equal. lia.
  - destruct (Hgen (LEFT_ARROW, PRESS) (-1)%Z) as (s' & Hrun & Hidx).
    { intros s1 Hinv1.
      destruct (modal_step s0 ns s1 (LEFT_ARROW, PRESS) Hinv1)
        as (s2 & status & Hm & Hpost).
      destruct status;
        [| destruct Hpost as [[=] _] | destruct Hpost as [[=] _]].
      exists s2. split; [exact Hm |]. split; [exact (proj1 Hpost) |].
      rewrite (proj2 Hpost).
      destruct Hinv1 as (_ & -> & _). reflexivity. }
    exists s'. split; [exact Hrun |]. rewrite Hidx. f_equal. lia.
Qed.


End Picker.

End GetNormal.

Module GetNormalScenario.

Import GetNormal.

Local Open Scope float_scope.

(** The context before the operator starts: vertex and face normals are
    shown, split normals are not. *)
Definition start : State :=
  {| normals := []; selected_idx := 0; num_normals := 0; saved := None;
     post_view_handle := false;
     overlay := {| show_vertex_normals := true; show_split_normals := false;
                   show_face_normals := true |};
     draw_handlers := 0; header := None; normal_buffer := FloatVec.zero |}.

(** A vertex with three corners, two of them with the same normal. *)
Definition corner_normals : list Vector :=
  [FloatVec.mk 0 0 1; FloatVec.mk 1 0 0; FloatVec.mk 0 0 1].

Definition in_order (l : list Vector) : list Vector := l.

Lemma in_order_Permutation (l : list Vector) : in_order l ≡ₚ l.
Proof. reflexivity. Defined.

Definition picking : State :=
  Eval vm_compute in
    default start (fst <$> get_vertex_normal in_order corner_normals start).

Lemma picking_started :
  get_vertex_normal in_order corner_normals start
  = Some (picking, RUNNING_MODAL).
Proof. vm_compute. reflexivity. Qed.

(** Right arrow, then Return: the second normal is stored and the overlay
    is as before. *)
Example pick_second_normal :
  (fun r => (normal_buffer r.1, overlay r.1, r.2))
    <$> session picking [(RIGHT_ARROW, PRESS); (RET, PRESS)]
  = Some (FloatVec.mk 1 0 0, overlay start, FINISHED).
Proof. vm_compute. reflexivity. Qed.

Lemma modal_session_restores_witness :
  get_vertex_normal in_order corner_normals start
  = Some (picking, RUNNING_MODAL) /\
  exists s2 status,
    session picking [(LEFT_ARROW, PRESS); (ESC, PRESS)] = Some (s2, status) /\
    match status with
    | RUNNING_MODAL =>
        (0 <= selected_idx s2 < Z.of_nat (length (normals picking)))%Z /\
        normals s2 = normals picking /\
        overlay s2 = hidden /\ normal_buffer s2 = normal_buffer start
    | FINISHED =>
        restored start s2 /\ normal_buffer s2 ∈ corner_normals
    | CANCELLED =>
        restored start s2 /\ normal_buffer s2 = normal_buffer start
    end.
Proof.
  split; [exact picking_started |].
  exact (modal_session_restores in_order in_order_Permutation corner_normals
           start picking [(LEFT_ARROW, PRESS); (ESC, PRESS)] picking_started).
Defined.

Lemma picking_modal_state :
  modal_state start (normals picking) picking.
Proof. vm_compute. repeat split; discriminate. Qed.

Lemma arrows_cycle_witness :
  modal_state start (normals picking) picking /\
  (exists s',
     session picking (replicate 3 (RIGHT_ARROW, PRESS))
     = Some (s', RUNNING_MODAL) /\
     selected_idx s'
     = ((selected_idx picking + Z.of_nat 3)
        mod Z.of_nat (length (normals picking)))%Z) /\
  (exists s',
     session picking (replicate 3 (LEFT_ARROW, PRESS))
     = Some (s', RUNNING_MODAL) /\
     selected_idx s'
     = ((selected_idx picking - Z.of_nat 3)
        mod Z.of_nat (length (normals picking)))%Z).
Proof.
  split; [exact picking_modal_state |].
  exact (arrows_cycle start (normals picking) picking 3 picking_modal_state).
Defined.


End GetNormalScenario.

(** * Picking the shading source

    [MESH_OT_PickShadingSource] (lines 261-349): [execute] hides what
    cannot be picked, [modal] picks or cancels, [finish] reveals. *)

Module PickSource.

Import GetNormal.

(** An object of the scene: a position in [scene.objects] identifies it. *)
Record Object := {
  name : string;
  (** [obj.type == 'MESH'] *)
  is_mesh : bool;
  hide_viewport : bool;
  (** [obj.visible_get()] *)
  visible_get : bool
}.

Record Context := {
  objects : list Object;
  (** the position of [context.edit_object], if there is one *)
  edit_object : option nat;
  (** [context.mode == 'EDIT_MESH'] *)
  edit_mode : bool;
  (** the header text of the area *)
  header : option string;
  (** [self.addon.preferences.source] *)
  source : string
}.

(** The attributes [execute] sets on the operator. *)
Record Operator := {
  initially_in_edit_mode : bool;
  available_sources : list nat;
  temporarily_hidden_objects : list nat
}.

(** The positions of the objects that satisfy [test]. *)
Definition positions (test : nat -> Object -> bool) (objs : list Object)
  : list nat :=
  fst <$> filter (fun io => test io.1 io.2 = true) (imap pair objs).

(** [for obj in ids: obj.hide_viewport = flag] *)
Definition set_hide_viewport (flag : bool) (ids : list nat)
    (objs : list Object) : list Object :=
  imap (fun i obj =>
          if decide (i ∈ ids)
          then {| name := name obj; is_mesh := is_mesh obj;
                  hide_viewport := flag; visible_get := visible_get obj |}
          else obj)
    objs.

Definition is_edit_object (ctx : Context) (i : nat) : bool :=
  bool_decide (edit_object ctx = Some i).

(** [execute] (lines 261-298) *)
Definition execute (ctx : Context) : Operator * Context :=
  let initially := edit_mode ctx in
  let available :=
    positions (fun i obj => is_mesh obj && negb (is_edit_object ctx i)
                            && negb (hide_viewport obj))
      (objects ctx) in
  let hidden :=
    positions (fun i obj => (negb (is_mesh obj) && visible_get obj)
                            || is_edit_object ctx i)
      (objects ctx) in
  ({| initially_in_edit_mode := initially;
      available_sources := available;
      temporarily_hidden_objects := hidden |},
   {| objects := set_hide_viewport true hidden (objects ctx);
      edit_object := edit_object ctx;
      edit_mode := if initially then false else edit_mode ctx;
      header := Some "LMB: Pick, Escape: Cancel";
      source := source ctx |}).

(** [finish] (lines 336-349) *)
Definition finish (op : Operator) (ctx : Context) : Context :=
  {| objects :=
       set_hide_viewport false (temporarily_hidden_objects op) (objects ctx);
     edit_object := edit_object ctx;
     edit_mode := if initially_in_edit_mode op then true else edit_mode ctx;
     header := None;
     source := source ctx |}.

(** [modal] (lines 300-334); [pick_object] stands for
    [utils.pick_object] under the cursor of the event, and returns the
    object hit, if any. *)
Definition modal (pick_object : list Object -> option Object)
    (op : Operator) (ctx : Context) (event : Event) : Context * Status :=
  match event with
  | (LEFTMOUSE, PRESS) =>
      let hit :=
        pick_object (omap (fun i => objects ctx !! i) (available_sources op)) in
      let ctx :=
        {| objects := objects ctx; edit_object := edit_object ctx;
           edit_mode := edit_mode ctx; header := header ctx;
           source := match hit with Some obj => name obj | None => "" end |} in
      (finish op ctx, FINISHED)
  | (ESC, _) => (finish op ctx, CANCELLED)
  | _ => (ctx, RUNNING_MODAL)
  end.

(** The events delivered while the operator is modal. *)
Fixpoint session (pick_object : list Object -> option Object)
    (op : Operator) (ctx : Context) (events : list Event) : Context * Status :=
  match events with
  | [] => (ctx, RUNNING_MODAL)
  | event :: events' =>
      let r := modal pick_object op ctx event in
      match r.2 with
      | RUNNING_MODAL => session pick_object op r.1 events'
      | _ => r
      end
  end.

Lemma elem_of_positions (test : nat -> Object -> bool) (objs : list Object)
    (i : nat) :
  i ∈ positions test objs <->
  exists obj, objs !! i = Some obj /\ test i obj = true.
Proof.
  unfold positions. rewrite list_elem_of_fmap. split.
  - intros ([j obj] & -> & H). apply list_elem_of_filter in H as [Ht H].
    apply elem_of_lookup_imap in H as (k & x & [= <- <-] & Hx).
    exists obj. split; assumption.
  - intros (obj & Hobj & Ht). exists (i, obj). split; [reflexivity |].
    apply list_elem_of_filter. split; [exact Ht |].
    apply elem_of_lookup_imap. exists i, obj. split; [reflexivity | exact Hobj].
Qed.

Lemma set_hide_viewport_lookup (flag : bool) (ids : list nat)
    (objs : list Object) (i : nat) :
  set_hide_viewport flag ids objs !! i
  = (fun obj =>
       if decide (i ∈ ids)
       then {| name := name obj; is_mesh := is_mesh obj;
               hide_viewport := flag; visible_get := visible_get obj |}
       else obj) <$> objs !! i.
Proof. unfold set_hide_viewport. apply list_lookup_imap. Qed.

(** No object that can be picked is hidden: after [execute], every
    available source is a mesh object other than the edit object, is not
    among the temporarily hidden objects, and is still shown in the
    viewport. *)
Theorem sources_stay_visible (ctx : Context) (i : nat) :
  i ∈ available_sources (execute ctx).1 ->
  (i ∉ temporarily_hidden_objects (execute ctx).1) /\
  exists obj,
    objects ctx !! i = Some obj /\
    objects (execute ctx).2 !! i = Some obj /\
    is_mesh obj = true /\ hide_viewport obj = false /\
    edit_object ctx <> Some i.
Proof.
  unfold execute.
  cbn [fst snd available_sources temporarily_hidden_objects objects].
  intros Hi. apply elem_of_positions in Hi as (obj & Hobj & Ht).
  apply andb_prop in Ht as [Ht Hhide]. apply andb_prop in Ht as [Hmesh Hedit].
  apply negb_true_iff in Hhide, Hedit.
  assert (Hnot : i ∉ positions
                       (fun i obj => (negb (is_mesh obj) && visible_get obj)
                                     || is_edit_object ctx i)
                       (objects ctx)).
  { intros H. apply elem_of_positions in H as (obj' & Hobj' & Ht').
    rewrite Hobj in Hobj'. injection Hobj' as <-.
    rewrite Hmesh, Hedit in Ht'. discriminate Ht'. }
  split; [exact Hnot |]. exists obj. split; [exact Hobj |]. split.
  - rewrite set_hide_viewport_lookup, Hobj. cbn [fmap option_fmap option_map].
    rewrite decide_False by exact Hnot. reflexivity.
  - split; [exact Hmesh |]. split; [exact Hhide |].
    unfold is_edit_object in Hedit. apply bool_decide_eq_false in Hedit.
    exact Hedit.
Qed.

(** The objects after [execute] and [finish]. *)
Lemma finish_objects (ctx ctx' : Context) (i : nat) (obj : Object) :
  (forall obj, obj ∈ objects ctx ->
     visible_get obj = true -> hide_viewport obj = false) ->
  objects ctx' = objects (execute ctx).2 ->
  objects ctx !! i = Some obj ->
  objects (finish (execute ctx).1 ctx') !! i
  = Some (if is_edit_object ctx i
          then {| name := name obj; is_mesh := is_mesh obj;
                  hide_viewport := false; visible_get := visible_get obj |}
          else obj).
Proof.
  intros Hvis Hobjs Hobj. unfold finish. cbn [objects]. rewrite Hobjs.
  unfold execute. cbn [fst snd temporarily_hidden_objects objects].
  set (hidden := positions _ (objects ctx)).
  rewrite !set_hide_viewport_lookup, Hobj. cbn [fmap option_fmap option_map].
  f_equal. destruct (decide (i ∈ hidden)) as [Hin | Hout].
  - cbn [name is_mesh visible_get].
    apply elem_of_positions in Hin as (obj' & Hobj' & Ht).
    rewrite Hobj in Hobj'. injection Hobj' as <-.
    destruct (is_edit_object ctx i); [reflexivity |].
    rewrite orb_false_r in Ht. apply andb_prop in Ht as [_ Hv].
    assert (Hh : hide_viewport obj = false).
    { apply Hvis; [| exact Hv]. apply (list_elem_of_lookup_2 _ _ _ Hobj). }
    destruct obj as [n m h v]. cbn in *. rewrite Hh. reflexivity.
  - destruct (is_edit_object ctx i) eqn:He; [| reflexivity].
    exfalso. apply Hout. apply elem_of_positions. exists obj.
    split; [exact Hobj |]. rewrite He. apply orb_true_r.
Qed.

(** When no object that [visible_get] reports visible is hidden in the
    viewport, a session that [execute] started ends, on the left mouse
    button as on Escape, with every object but the edit object shown or
    hidden in the viewport as it was before the operator, with the edit
    object shown whatever it was before, with the mesh in Edit mode again
    if it was, and with the header cleared.  Escape leaves the source as it
    was; the left mouse button sets it to the name of the object that was
    hit, or to the empty string. *)
Theorem pick_session_restores
    (pick_object : list Object -> option Object) (ctx : Context)
    (events : list Event) :
  (forall obj, obj ∈ objects ctx ->
     visible_get obj = true -> hide_viewport obj = false) ->
  let op := (execute ctx).1 in
  let r := session pick_object op (execute ctx).2 events in
  match r.2 with
  | RUNNING_MODAL => r.1 = (execute ctx).2
  | status =>
      (forall i obj,
         objects ctx !! i = Some obj ->
         objects r.1 !! i
         = Some (if is_edit_object ctx i
                 then {| name := name obj; is_mesh := is_mesh obj;
                         hide_viewport := false;
                         visible_get := visible_get obj |}
                 else obj)) /\
      edit_mode r.1 = edit_mode ctx /\
      header r.1 = None /\
      match status with
      | CANCELLED => source r.1 = source ctx
      | _ =>
          source r.1
          = match pick_object
                    (omap (fun i => objects (execute ctx).2 !! i)
                       (available_sources op)) with
            | Some obj => name obj
            | None => ""
            end
      end
  end.
Proof.
  intros Hvis. cbn zeta.
  assert (Hmode : forall ctx',
             edit_mode ctx' = edit_mode (execute ctx).2 ->
             edit_mode (finish (execute ctx).1 ctx') = edit_mode ctx).
  { intros ctx' Hm. unfold finish. cbn [edit_mode]. rewrite Hm.
    unfold execute. cbn [fst snd initially_in_edit_mode edit_mode].
    destruct (edit_mode ctx); reflexivity. }
  induction events as [| event events IH]; [reflexivity |].
  cbn [session]. cbn zeta.
  destruct event as [[] []]; cbn [modal fst snd]; try exact IH.
  - split; [| split; [| split]].
    + intros i obj Hobj. apply finish_objects; [exact Hvis | reflexivity | exact Hobj].
    + apply Hmode. reflexivity.
    + reflexivity.
    + reflexivity.
  - split; [| split; [| split]].
    + intros i obj Hobj. apply finish_objects; [exact Hvis | reflexivity | exact Hobj].
    + apply Hmode. reflexivity.
    + reflexivity.
    + reflexivity.
  - split; [| split; [| split]].
    + intros i obj Hobj. apply finish_objects; [exact Hvis | reflexivity | exact Hobj].
    + apply Hmode. reflexivity.
    + reflexivity.
    + reflexivity.
Qed.

(** ** A scene *)

(** A lamp, the mesh being edited, a visible mesh and a hidden mesh. *)
Definition scene : Context :=
  {| objects :=
       [ {| name := "Lamp"; is_mesh := false; hide_viewport := false;
            visible_get := true |};
         {| name := "Target"; is_mesh := true; hide_viewport := false;
            visible_get := true |};
         {| name := "Source"; is_mesh := true; hide_viewport := false;
            visible_get := true |};
         {| name := "Spare"; is_mesh := true; hide_viewport := true;
            visible_get := false |} ];
     edit_object := Some 1;
     edit_mode := true;
     header := None;
     source := "" |}.

(** The object under the cursor is the first one offered. *)
Definition pick_first (sources : list Object) : option Object := head sources.

Example pick_in_scene :
  available_sources (execute scene).1 = [2] /\
  temporarily_hidden_objects (execute scene).1 = [0; 1] /\
  hide_viewport <$> objects (execute scene).2 = [true; true; false; true] /\
  session pick_first (execute scene).1 (execute scene).2
    [(OTHER, PRESS); (LEFTMOUSE, PRESS)]
  = ({| objects := objects scene; edit_object := Some 1; edit_mode := true;
        header := None; source := "Source" |}, FINISHED).
Proof. repeat split. Qed.

Lemma sources_stay_visible_witness :
  2 ∈ available_sources (execute scene).1 /\
  (2 ∉ temporarily_hidden_objects (execute scene).1) /\
  exists obj,
    objects scene !! 2 = Some obj /\
    objects (execute scene).2 !! 2 = Some obj /\
    is_mesh obj = true /\ hide_viewport obj = false /\
    edit_object scene <> Some 2.
Proof.
  assert (H : 2 ∈ available_sources (execute scene).1).
  { vm_compute. apply list_elem_of_here. }
  split; [exact H |]. exact (sources_stay_visible scene 2 H).
Defined.

Lemma scene_visible (obj : Object) :
  obj ∈ objects scene -> visible_get obj = true -> hide_viewport obj = false.
Proof.
  intros H. cbn [objects scene] in H.
  repeat (apply elem_of_cons in H as [-> | H]; [cbn; congruence |]).
  inversion H.
Defined.

Lemma pick_session_restores_witness :
  (forall obj, obj ∈ objects scene ->
     visible_get obj = true -> hide_viewport obj = false) /\
  let op := (execute scene).1 in
  let r := session pick_first op (execute scene).2 [(ESC, PRESS)] in
  match r.2 with
  | RUNNING_MODAL => r.1 = (execute scene).2
  | status =>
      (forall i obj,
         objects scene !! i = Some obj ->
         objects r.1 !! i
         = Some (if is_edit_object scene i
                 then {| name := name obj; is_mesh := is_mesh obj;
                         hide_viewport := false;
                         visible_get := visible_get obj |}
                 else obj)) /\
      edit_mode r.1 = edit_mode scene /\
      header r.1 = None /\
      match status with
      | CANCELLED => source r.1 = source scene
      | _ =>
          source r.1
          = match pick_first
                    (omap (fun i => objects (execute scene).2 !! i)
                       (available_sources op)) with
            | Some obj => name obj
            | None => ""
            end
      end
  end.
Proof.
  split; [exact scene_visible |].
  exact (pick_session_restores pick_first scene [(ESC, PRESS)] scene_visible).
Defined.

End PickSource.

(** * The custom data layers of an operator

    [MESH_OT_YAVNEBase.ensure_custom_layers] (lines 58-88), run by the
    initializer of every operator that derives from the base class. *)

Module CustomLayers.

Section Layers.

(** The contents of an integer and of a float layer, and the contents of
    a layer that [layers.new] has just created. *)
Variables IntLayer FloatLayer : Type.
Variable new_int : IntLayer.
Variable new_float : FloatLayer.

(** [bm.verts.layers.int], [bm.faces.layers.int], [bm.loops.layers.float] *)
Record Collections := {
  vert_int_layers : gmap string IntLayer;
  face_int_layers : gmap string IntLayer;
  loop_float_layers : gmap string FloatLayer
}.

(** [if name not in layers.keys(): layers.new(name)] *)
Definition ensure {D : Type} (name : string) (fresh : D)
    (layers : gmap string D) : gmap string D :=
  match layers !! name with
  | Some _ => layers
  | None => <[name := fresh]> layers
  end.

Definition ensure_custom_layers (c : Collections) : Collections :=
  {| vert_int_layers :=
       ensure "vertex-normal-weight" new_int (vert_int_layers c);
     face_int_layers :=
       ensure "face-normal-influence" new_int (face_int_layers c);
     loop_float_layers :=
       ensure "loop-normal-z" new_float
         (ensure "loop-normal-y" new_float
            (ensure "loop-normal-x" new_float (loop_float_layers c))) |}.

Lemma ensure_lookup {D : Type} (name : string) (fresh : D)
    (layers : gmap string D) (key : string) :
  ensure name fresh layers !! key
  = match layers !! key with
    | Some d => Some d
    | None => if decide (key = name) then Some fresh else None
    end.
Proof.
  unfold ensure. destruct (layers !! name) as [d |] eqn:Hname.
  - destruct (layers !! key) as [d' |] eqn:Hkey; [reflexivity |].
    destruct (decide (key = name)) as [-> | _]; [congruence | reflexivity].
  - destruct (decide (key = name)) as [-> | Hne].
    + rewrite lookup_insert_eq, Hname. reflexivity.
    + rewrite lookup_insert_ne by congruence.
      destruct (layers !! key); reflexivity.
Qed.

Lemma ensure_idempotent {D : Type} (name : string) (fresh : D)
    (layers : gmap string D) :
  ensure name fresh (ensure name fresh layers) = ensure name fresh layers.
Proof.
  unfold ensure at 1. rewrite ensure_lookup.
  destruct (layers !! name); [reflexivity |].
  rewrite decide_True by reflexivity. reflexivity.
Qed.

(** After [ensure_custom_layers] the five layers the operators look up by
    name exist; a layer that existed before keeps its contents, the only
    layers added are those five, each with the contents of a new layer;
    and running it again changes nothing. *)
Theorem ensure_custom_layers_keeps (c : Collections) :
  let c' := ensure_custom_layers c in
  (is_Some (vert_int_layers c' !! "vertex-normal-weight") /\
   is_Some (face_int_layers c' !! "face-normal-influence") /\
   is_Some (loop_float_layers c' !! "loop-normal-x") /\
   is_Some (loop_float_layers c' !! "loop-normal-y") /\
   is_Some (loop_float_layers c' !! "loop-normal-z")) /\
  (forall key,
     vert_int_layers c' !! key
     = match vert_int_layers c !! key with
       | Some d => Some d
       | None =>
           if decide (key = "vertex-normal-weight") then Some new_int else None
       end) /\
  (forall key,
     face_int_layers c' !! key
     = match face_int_layers c !! key with
       | Some d => Some d
       | None =>
           if decide (key = "face-normal-influence") then Some new_int
           else None
       end) /\
  (forall key,
     loop_float_layers c' !! key
     = match loop_float_layers c !! key with
       | Some d => Some d
       | None =>
           if decide (key ∈ ["loop-normal-x"; "loop-normal-y"; "loop-normal-z"])
           then Some new_float else None
       end) /\
  ensure_custom_layers c' = c'.
Proof.
  cbn zeta. unfold ensure_custom_layers.
  cbn [vert_int_layers face_int_layers loop_float_layers].
  assert (Hloop : forall key,
             ensure "loop-normal-z" new_float
               (ensure "loop-normal-y" new_float
                  (ensure "loop-normal-x" new_float (loop_float_layers c)))
               !! key
             = match loop_float_layers c !! key with
               | Some d => Some d
               | None =>
                   if decide (key ∈ ["loop-normal-x"; "loop-normal-y";
                                     "loop-normal-z"])
                   then Some new_float else None
               end).
  { intros key. rewrite !ensure_lookup.
    destruct (loop_float_layers c !! key); [reflexivity |].
    destruct (decide (key = "loop-normal-x")) as [-> | Hx].
    { rewrite decide_True by (apply list_elem_of_here). reflexivity. }
    destruct (decide (key = "loop-normal-y")) as [-> | Hy].
    { rewrite decide_True
        by (apply list_elem_of_further, list_elem_of_here).
      reflexivity. }
    destruct (decide (key = "loop-normal-z")) as [-> | Hz].
    { rewrite decide_True
        by (do 2 apply list_elem_of_further; apply list_elem_of_here).
      reflexivity. }
    rewrite decide_False; [reflexivity |].
    rewrite !elem_of_cons, elem_of_nil. tauto. }
  split; [| split; [| split; [| split]]].
  - repeat split.
    + rewrite ensure_lookup. destruct (vert_int_layers c !! _); eauto.
    + rewrite ensure_lookup. destruct (face_int_layers c !! _); eauto.
    + rewrite Hloop. destruct (loop_float_layers c !! _); eauto.
    + rewrite Hloop. destruct (loop_float_layers c !! _); eauto.
    + rewrite Hloop. destruct (loop_float_layers c !! _); eauto.
  - intros key. apply ensure_lookup.
  - intros key. apply ensure_lookup.
  - exact Hloop.
  - f_equal; try apply ensure_idempotent.
    apply map_eq. intros key. rewrite !ensure_lookup.
    destruct (loop_float_layers c !! key); [reflexivity |].
    repeat destruct (decide _); reflexivity.
Qed.

End Layers.

End CustomLayers.

(** * Transferring the shading of another object

    The loop over the selected vertices of [MESH_OT_TransferShading.execute]
    (lines 797-850), on the layers of the merge. *)

Module Transfer.

Import Merge.

#[export] Instance Qlt_decision (x y : Q) : Decision (x < y)%Q.
Proof.
  destruct (Qlt_le_dec x y) as [H | H].
  - left. exact H.
  - right. apply Qle_not_lt, H.
Defined.

Section Transfer.

Context {M : Mathutils} {E : Environment}.

(** The source mesh and what [mathutils] computes on it. *)
Variable SourceFace : Type.
(** [bm_source.faces] *)
Variable source_faces : list SourceFace.
(** [mathutils.geometry.intersect_point_tri] of a point with the first
    three vertices of a face *)
Variable intersect_point_tri : Point -> SourceFace -> option Point.
(** [(co - point).length] when it is a finite number; [None] stands for a
    length that is infinite or not a number.  Only the order of the lengths
    matters. *)
Variable distance : Point -> Point -> option Q.
(** The normal of the source vertex that [kd.find] returns; [None] when
    the tree is empty, where [bm_source.verts[None]] raises. *)
Variable closest_vert_normal : Point -> option Vector.
(** [barycentric_transform] of a point of a face over the normals of its
    three vertices *)
Variable barycentric_normal : SourceFace -> Point -> Vector.
(** The product with [edit_object.matrix_world.inverted_safe()] of the
    product with [source_object.matrix_world] *)
Variable to_target_space : Vector -> Vector.

(** [closest_face], [min_distance] and [closest_point] (lines 807-821);
    [None] is the state before any face was accepted, where [min_distance]
    is [float('inf')]. *)
Definition Closest : Type := SourceFace * Q * Point.

(** The point of a face and its distance, for a face that can be accepted:
    [distance < min_distance] (line 818) is false for every [min_distance],
    also for the initial [float('inf')], when the distance is infinite or
    not a number. *)
Definition candidate (co : Point) (face : SourceFace) : option (Point * Q) :=
  point ← intersect_point_tri co face;
  d ← distance co point;
  Some (point, d).

Definition closest_step (co : Point) (best : option Closest)
    (face : SourceFace) : option Closest :=
  match intersect_point_tri co face with
  | None => best
  | Some point =>
      match distance co point with
      | None => best
      | Some d =>
          match best with
          | None => Some (face, d, point)
          | Some (_, min_distance, _) =>
              if decide (d < min_distance)%Q then Some (face, d, point)
              else best
          end
      end
  end.

Definition closest (co : Point) (faces : list SourceFace) : option Closest :=
  foldl (closest_step co) None faces.

(** The normal for one target vertex (lines 802-840): the outer [None] is
    the exception of an empty source, the inner one the [continue] of a
    vertex for which no face gave a point. *)
Definition interpolated_normal (use_interpolation : bool) (co : Point)
  : option (option Vector) :=
  vn ← closest_vert_normal co;
  if use_interpolation then
    match closest co source_faces with
    | None => Some None
    | Some (face, _, point) =>
        Some (Some (normalize (barycentric_normal face point)))
    end
  else Some (Some vn).

Definition transfer_vertex (use_interpolation : bool)
    (layer : gmap nat Vector) (v : BMVert) : option (gmap nat Vector) :=
  found ← interpolated_normal use_interpolation (co v.2);
  match found with
  | None => Some layer
  | Some n =>
      let vn_local := to_target_space n in
      Some (foldl (fun layer loop =>
                     <[loop := loop_space_transform loop vn_local]> layer)
              layer (link_loops v.2))
  end.

(** The loop over the selected vertices. *)
Definition transfer_shading (use_interpolation : bool) (bm : BMesh)
    (layers : Layers) : option Layers :=
  loops ← foldM (transfer_vertex use_interpolation) (loop_normal layers)
             (selected bm);
  Some {| vertex_normal_weight := vertex_normal_weight layers;
          loop_normal := loops |}.

(** ** The closest face *)

Lemma closest_snoc (co : Point) (faces : list SourceFace) (face : SourceFace) :
  closest co (faces ++ [face]) = closest_step co (closest co faces) face.
Proof. unfold closest. rewrite foldl_app. reflexivity. Qed.

Lemma closest_step_candidate (co : Point) (best : option Closest)
    (face : SourceFace) :
  closest_step co best face
  = match candidate co face with
    | None => best
    | Some (point, d) =>
        match best with
        | None => Some (face, d, point)
        | Some (_, min_distance, _) =>
            if decide (d < min_distance)%Q then Some (face, d, point)
            else best
        end
    end.
Proof.
  unfold closest_step, candidate.
  destruct (intersect_point_tri co face) as [point |]; [| reflexivity].
  cbn [mbind option_bind].
  destruct (distance co point) as [d |]; reflexivity.
Qed.

(** The search over the faces of the source returns nothing exactly when no
    face gives a point at a finite distance (a distance that is infinite or
    not a number is below no minimum, not even the initial [float('inf')]);
    otherwise it returns a face with its point and its distance such that
    every face before it in [bm_source.faces] that gives a point at a
    finite distance is strictly farther and every such face after it is at
    least as far: the first of the nearest faces. *)
Theorem closest_face_is_first_nearest (co : Point) (faces : list SourceFace) :
  (closest co faces = None <->
   forall face, face ∈ faces -> candidate co face = None) /\
  (forall face d point,
     closest co faces = Some (face, d, point) ->
     exists before after,
       faces = before ++ face :: after /\
       intersect_point_tri co face = Some point /\
       distance co point = Some d /\
       (forall f p e, f ∈ before -> candidate co f = Some (p, e) ->
                      (d < e)%Q) /\
       (forall f p e, f ∈ after -> candidate co f = Some (p, e) ->
                      (d <= e)%Q)).
Proof.
  induction faces as [| face faces [IHnone IHsome]] using rev_ind.
  - split.
    + split; [intros _ f Hf; inversion Hf | reflexivity].
    + intros f d p [=].
  - rewrite closest_snoc, closest_step_candidate.
    destruct (candidate co face) as [[point e0] |] eqn:Hface.
    + assert (Hpoint : intersect_point_tri co face = Some point /\
                       distance co point = Some e0).
      { unfold candidate in Hface.
        destruct (intersect_point_tri co face) as [q |]; [| discriminate].
        cbn [mbind option_bind] in Hface.
        destruct (distance co q) as [e |] eqn:He; [| discriminate].
        cbn [mbind option_bind] in Hface. injection Hface as -> ->.
        split; [reflexivity | exact He]. }
      destruct Hpoint as [Hpoint Hdist].
      destruct (closest co faces) as [[[f0 d0] p0] |] eqn:Hbest.
      * destruct (IHsome f0 d0 p0 eq_refl)
          as (before & after & -> & Hf0 & Hd0 & Hbefore & Hafter).
        assert (Hc0 : candidate co f0 = Some (p0, d0)).
        { unfold candidate. rewrite Hf0. cbn [mbind option_bind].
          rewrite Hd0. reflexivity. }
        destruct (decide (e0 < d0)%Q) as [Hlt | Hge].
        -- split.
           ++ split; [discriminate |]. intros Hall.
              rewrite (Hall face) in Hface; [discriminate |].
              apply elem_of_app. right. apply list_elem_of_here.
           ++ intros f d p [= <- <- <-].
              exists (before ++ f0 :: after), [].
              split; [reflexivity |]. split; [exact Hpoint |].
              split; [exact Hdist |]. split.
              ** intros f p e Hf Hp. apply elem_of_app in Hf as [Hf | Hf].
                 { pose proof (Hbefore f p e Hf Hp). lra. }
                 apply elem_of_cons in Hf as [-> | Hf].
                 { rewrite Hc0 in Hp. injection Hp as <- <-. exact Hlt. }
                 pose proof (Hafter f p e Hf Hp). lra.
              ** intros f p e Hf. inversion Hf.
        -- split.
           ++ split; [discriminate |]. intros Hall.
              rewrite (Hall face) in Hface; [discriminate |].
              apply elem_of_app. right. apply list_elem_of_here.
           ++ intros f d p [= <- <- <-].
              exists before, (after ++ [face]).
              split; [rewrite <- app_assoc; reflexivity |].
              split; [exact Hf0 |]. split; [exact Hd0 |].
              split; [exact Hbefore |].
              intros f p e Hf Hp. apply elem_of_app in Hf as [Hf | Hf].
              { apply (Hafter f p e Hf Hp). }
              apply list_elem_of_singleton in Hf as ->.
              rewrite Hface in Hp. injection Hp as <- <-.
              apply Qnot_lt_le, Hge.
      * split.
        -- split; [discriminate |]. intros Hall.
           rewrite (Hall face) in Hface; [discriminate |].
           apply elem_of_app. right. apply list_elem_of_here.
        -- intros f d p [= <- <- <-].
           exists faces, []. split; [reflexivity |]. split; [exact Hpoint |].
           split; [exact Hdist |]. split.
           ++ intros f p e Hf Hp. rewrite (proj1 IHnone eq_refl f Hf) in Hp.
              discriminate Hp.
           ++ intros f p e Hf. inversion Hf.
    + split.
      * rewrite IHnone. split.
        -- intros Hall f Hf. apply elem_of_app in Hf as [Hf | Hf].
           ++ apply Hall, Hf.
           ++ apply list_elem_of_singleton in Hf as ->. exact Hface.
        -- intros Hall f Hf. apply Hall, elem_of_app. left. exact Hf.
      * intros f d p Hbest.
        destruct (IHsome f d p Hbest)
          as (before & after & -> & Hf & Hd & Hbefore & Hafter).
        exists before, (after ++ [face]).
        split; [rewrite <- app_assoc; reflexivity |].
        split; [exact Hf |]. split; [exact Hd |]. split; [exact Hbefore |].
        intros f' p' e' Hf' Hp'. apply elem_of_app in Hf' as [Hf' | Hf'].
        -- apply (Hafter f' p' e' Hf' Hp').
        -- apply list_elem_of_singleton in Hf' as ->.
           rewrite Hface in Hp'. discriminate Hp'.
Qed.

(** ** What the transfer writes *)

Lemma transfer_vertex_lookup (use_interpolation : bool)
    (layer layer' : gmap nat Vector) (v : BMVert) (loop : nat) :
  transfer_vertex use_interpolation layer v = Some layer' ->
  exists found,
    interpolated_normal use_interpolation (co v.2) = Some found /\
    layer' !! loop
    = match found with
      | Some n =>
          if decide (loop ∈ link_loops v.2)
          then Some (loop_space_transform loop (to_target_space n))
          else layer !! loop
      | None => layer !! loop
      end.
Proof.
  unfold transfer_vertex.
  destruct (interpolated_normal use_interpolation (co v.2)) as [found |];
    [| discriminate].
  cbn [mbind option_bind]. intros H. exists found. split; [reflexivity |].
  destruct found as [n |]; injection H as <-; [| reflexivity].
  apply (assign_loops_lookup
           (fun l => loop_space_transform l (to_target_space n))).
Qed.

(** Whether a normal is found for a vertex. *)
Definition finds (use_interpolation : bool) (v : BMVert) : bool :=
  match interpolated_normal use_interpolation (co v.2) with
  | Some (Some _) => true
  | _ => false
  end.

Lemma finds_true (use_interpolation : bool) (v : BMVert) :
  finds use_interpolation v = true <->
  exists n, interpolated_normal use_interpolation (co v.2) = Some (Some n).
Proof.
  unfold finds.
  destruct (interpolated_normal use_interpolation (co v.2)) as [[n |] |].
  - split; [intros _; exists n; reflexivity | reflexivity].
  - split; [discriminate | intros [n [=]]].
  - split; [discriminate | intros [n [=]]].
Qed.

Lemma transfer_loops (use_interpolation : bool) (vs : list BMVert)
    (layer layer' : gmap nat Vector) (loop : nat) :
  foldM (transfer_vertex use_interpolation) layer vs = Some layer' ->
  (forall v, v ∈ vs -> is_Some (interpolated_normal use_interpolation (co v.2))) /\
  ((forall v n, v ∈ vs -> loop ∈ link_loops v.2 ->
      interpolated_normal use_interpolation (co v.2) <> Some (Some n)) ->
   layer' !! loop = layer !! loop) /\
  (forall v n, v ∈ vs -> loop ∈ link_loops v.2 ->
     interpolated_normal use_interpolation (co v.2) = Some (Some n) ->
     exists w m,
       w ∈ vs /\ loop ∈ link_loops w.2 /\
       interpolated_normal use_interpolation (co w.2) = Some (Some m) /\
       layer' !! loop
       = Some (loop_space_transform loop (to_target_space m))).
Proof.
  revert layer. induction vs as [| v vs IH]; intros layer; cbn [foldM].
  - intros [= <-]. split; [intros v Hv; inversion Hv |].
    split; [reflexivity |]. intros v n Hv. inversion Hv.
  - destruct (transfer_vertex use_interpolation layer v) as [layer1 |] eqn:Hv;
      cbn [mbind option_bind]; [| discriminate].
    intros Hrest. destruct (IH layer1 Hrest) as (Hsome & Hframe & Hwritten).
    destruct (transfer_vertex_lookup _ _ _ _ loop Hv) as (found & Hfound & Hl1).
    split; [| split].
    + intros w Hw. apply elem_of_cons in Hw as [-> | Hw];
        [rewrite Hfound; eexists; reflexivity | apply Hsome, Hw].
    + intros Hno. rewrite Hframe.
      2: { intros w n Hw. apply Hno. right. exact Hw. }
      rewrite Hl1. destruct found as [n |]; [| reflexivity].
      destruct (decide (loop ∈ link_loops v.2)) as [Hin |]; [| reflexivity].
      exfalso. apply (Hno v n); [left | exact Hin | exact Hfound].
    + intros w n Hw Hloop Hn.
      destruct (decide (Exists
                          (fun w : nat * Vert =>
                             loop ∈ link_loops w.2 /\
                             finds use_interpolation w = true) vs))
        as [Hlater | Hnone].
      * apply Exists_exists in Hlater as (w' & Hw' & Hloop' & Hm).
        apply finds_true in Hm as [m Hm].
        destruct (Hwritten w' m Hw' Hloop' Hm) as (w2 & m2 & H1 & H2 & H3 & H4).
        exists w2, m2. split; [right; exact H1 |]. repeat split; assumption.
      * apply elem_of_cons in Hw as [-> | Hw].
        2: { exfalso. apply Hnone, Exists_exists. exists w.
             split; [exact Hw |]. split; [exact Hloop |].
             apply finds_true. exists n. exact Hn. }
        exists v, n. split; [left |]. split; [exact Hloop |].
        split; [exact Hn |]. rewrite Hframe.
        2: { intros w' m Hw' Hloop' Hm. apply Hnone, Exists_exists.
             exists w'. split; [exact Hw' |]. split; [exact Hloop' |].
             apply finds_true. exists m. exact Hm. }
        rewrite Hl1. rewrite Hfound in Hn. injection Hn as ->.
        rewrite decide_True by exact Hloop. reflexivity.
Qed.

(** A transfer that returns leaves the weight of every vertex as it was,
    selected or not: it writes loop layers only.  A loop changes only if
    it is a corner of a selected vertex for which a normal was found, and
    then holds that normal taken to the space of the target and of the
    corner; with interpolation on, the corners of a selected vertex for
    which no face of the source gives a point are skipped. *)
Theorem transfer_writes_corners_only (use_interpolation : bool) (bm : BMesh)
    (layers layers' : Layers) :
  transfer_shading use_interpolation bm layers = Some layers' ->
  vertex_normal_weight layers' = vertex_normal_weight layers /\
  (forall loop,
     (forall v n, v ∈ selected bm -> loop ∈ link_loops v.2 ->
        interpolated_normal use_interpolation (co v.2) <> Some (Some n)) ->
     loop_normal layers' !! loop = loop_normal layers !! loop) /\
  (forall loop v n,
     v ∈ selected bm -> loop ∈ link_loops v.2 ->
     interpolated_normal use_interpolation (co v.2) = Some (Some n) ->
     exists w m,
       w ∈ selected bm /\ loop ∈ link_loops w.2 /\
       interpolated_normal use_interpolation (co w.2) = Some (Some m) /\
       loop_normal layers' !! loop
       = Some (loop_space_transform loop (to_target_space m))).
Proof.
  unfold transfer_shading.
  destruct (foldM _ _ _) as [loops |] eqn:Hloops; [| discriminate].
  cbn [mbind option_bind]. intros [= <-].
  cbn [vertex_normal_weight loop_normal].
  split; [reflexivity |]. split.
  - intros loop Hno.
    apply (proj1 (proj2 (transfer_loops _ _ _ _ loop Hloops)) Hno).
  - intros loop v n.
    apply (proj2 (proj2 (transfer_loops _ _ _ _ loop Hloops))).
Qed.

End Transfer.

End Transfer.

Module TransferScenario.

Import Merge MergeScenario Transfer.

Local Open Scope float_scope.

(** A source of three faces: the first gives no point for any target, the
    second and the third give the points at heights 1 and 3. *)
Definition source_faces : list nat := [0; 1; 2]%nat.

Definition intersect_point_tri (co : Point) (face : nat) : option Point :=
  match face with
  | O => None
  | S O => Some {| px := px co; py := py co; pz := 1 |}
  | _ => Some {| px := px co; py := py co; pz := 3 |}
  end.

(** The difference of the heights; a point at height 3 or more above is
    taken as infinitely far. *)
Definition height_difference (co point : Point) : option Q :=
  if decide (pz point - pz co < 3)%Q then Some (Qabs (pz point - pz co))
  else None.

Definition closest_vert_normal (co : Point) : option Vector :=
  Some (FloatVec.mk 1 0 0).

Definition barycentric_normal (face : nat) (point : Point) : Vector :=
  match face with
  | S O => FloatVec.mk 0 0 2
  | _ => FloatVec.mk 0 2 0
  end.

Definition same_space (n : Vector) : Vector := n.

(** From the height 3 of the coincident vertices the third face is the
    nearest. *)
Example closest_of_three :
  closest nat intersect_point_tri height_difference
    {| px := 1; py := 2; pz := 3 |} source_faces
  = Some (2%nat, 0%Q, {| px := 1; py := 2; pz := 3 |}).
Proof. vm_compute. reflexivity. Qed.

(** From the height -3 both faces give a point, neither at a finite
    distance: no face is accepted. *)
Example no_face_at_finite_distance :
  intersect_point_tri {| px := 1; py := 2; pz := -3 |} 1%nat
  = Some {| px := 1; py := 2; pz := 1 |} /\
  closest nat intersect_point_tri height_difference
    {| px := 1; py := 2; pz := -3 |} source_faces
  = None.
Proof. vm_compute. split; reflexivity. Qed.

Definition transferred : Layers :=
  Eval vm_compute in
    default no_layers
      (transfer_shading nat source_faces intersect_point_tri
         height_difference closest_vert_normal barycentric_normal same_space
         true coincident no_layers).

Lemma transfer_run :
  transfer_shading nat source_faces intersect_point_tri height_difference
    closest_vert_normal barycentric_normal same_space true coincident
    no_layers
  = Some transferred.
Proof. vm_compute. reflexivity. Qed.

Lemma transfer_writes_corners_only_witness :
  transfer_shading nat source_faces intersect_point_tri height_difference
    closest_vert_normal barycentric_normal same_space true coincident
    no_layers
  = Some transferred /\
  vertex_normal_weight transferred = vertex_normal_weight no_layers /\
  (forall loop,
     (forall v n, v ∈ selected coincident -> loop ∈ link_loops v.2 ->
        interpolated_normal nat source_faces intersect_point_tri
          height_difference closest_vert_normal barycentric_normal true
          (co v.2) <> Some (Some n)) ->
     loop_normal transferred !! loop = loop_normal no_layers !! loop) /\
  (forall loop v n,
     v ∈ selected coincident -> loop ∈ link_loops v.2 ->
     interpolated_normal nat source_faces intersect_point_tri
       height_difference closest_vert_normal barycentric_normal true
       (co v.2) = Some (Some n) ->
     exists w m,
       w ∈ selected coincident /\ loop ∈ link_loops w.2 /\
       interpolated_normal nat source_faces intersect_point_tri
         height_difference closest_vert_normal barycentric_normal true
         (co w.2) = Some (Some m) /\
       loop_normal transferred !! loop
       = Some (loop_space_transform loop (same_space m))).
Proof.
  split; [exact transfer_run |].
  exact (transfer_writes_corners_only nat source_faces intersect_point_tri
           height_difference closest_vert_normal barycentric_normal
           same_space true coincident no_layers transferred transfer_run).
Defined.

End TransferScenario.

Module ManageScenario.

Import Merge MergeScenario Manage.

Local Open Scope float_scope.

(** The weights are numbered in the order of the enumeration, as in the
    recomputation pass, and every corner has the normal (0, 0, 1). *)
#[export] Instance types : Types := {|
  weight_value w :=
    match w with
    | Update.UNIFORM => 0 | Update.ANGLE => 1 | Update.AREA => 2
    | Update.COMBINED => 3 | Update.UNWEIGHTED => 4
    end%Z;
  calc_normal _ := FloatVec.mk 0 0 1
|}.

(** SET of UNWEIGHTED on the bystander mesh, then GET of UNWEIGHTED: the
    two selected vertices have the weight 4 and stay selected, the
    unselected one keeps the weight 0 and stays unselected. *)
Example set_unweighted_then_get :
  let r1 := manage_vertex_normal_weight SET Update.UNWEIGHTED true
              MergeRun.bystander no_layers in
  let r2 := manage_vertex_normal_weight GET Update.UNWEIGHTED true
              (mesh r1) (layers_after r1) in
  (layer_value (vertex_normal_weight (layers_after r1)) <$> [0; 1; 2]%nat)
  = [4; 4; 0]%Z /\
  select <$> verts (mesh r2) = [true; true; false] /\
  recomputed r1 = true /\ recomputed r2 = false.
Proof. vm_compute. repeat split. Qed.

(** Three faces, the first selected, the third with the influence 5. *)
Lemma set_then_get_keeps_faces_witness :
  1%nat = length (selected_faces [true; false; false]) /\
  let r1 := manage_face_normal_influence SET 5 true 1 [true; false; false]
              {[ 2%nat := 5%Z ]} in
  let r2 := manage_face_normal_influence GET 5 true 0 r1.1.1 r1.1.2 in
  forall i f,
    [true; false; false] !! i = Some f ->
    r2.1.1 !! i
    = Some (f || bool_decide (layer_value {[ 2%nat := 5%Z ]} i = 5%Z)).
Proof.
  assert (H : 1%nat = length (selected_faces [true; false; false]))
    by reflexivity.
  split; [exact H |].
  exact (set_then_get_keeps_faces 5 true true 1 0 [true; false; false]
           {[ 2%nat := 5%Z ]} H).
Defined.

End ManageScenario.
